(** * embedfiles: the byte encoder and the manifest builder

    A shallow embedding of [embedfiles.go] (github.com/gwatts/embedfiles):
    [fmtBytes], [generate] and the [Open] method of the generated code,
    with the properties of the encoding and of the manifest proved about
    them.

    Conventions.
    - Go's [int] is taken at 64 bits: sums are written with [int_add], which
      wraps around as the machine does.
    - [[]byte] is [list byte]; a Go [string] is a [string] (a sequence of
      8-bit characters), turned into bytes where the code writes it out.
    - A function that can panic returns an [outcome].
    - [io.Writer] is a type class; [io.Reader] is the list of the results
      that the successive [Read] calls give. *)

From Stdlib Require Import ZArith NArith Lia List.
From Stdlib Require Import Strings.String Strings.Ascii Strings.Byte.
From stdpp Require Import base tactics option list sorting gmap strings pretty.

Local Open Scope Z_scope.

(** ** Go's [int] *)

Module GoInt.

Definition max_int : Z := 2 ^ 63 - 1.
Definition min_int : Z := - 2 ^ 63.

(** The value a 64-bit signed register holds for the integer [z]. *)
Definition wrap_int (z : Z) : Z := (z + 2 ^ 63) mod 2 ^ 64 - 2 ^ 63.

(** [a + b], [a += b] on [int]. *)
Definition int_add (a b : Z) : Z := wrap_int (a + b).

Definition in_int (z : Z) : Prop := min_int <= z <= max_int.

End GoInt.
Export GoInt.

(** ** Errors and panics *)

(** Go [error] values.  The sentinels are compared by identity in the source
    ([rerr == io.EOF]), so each is a constructor of its own; [ErrNew] is a
    value made by [errors.New] or [fmt.Errorf], or any other error of the
    operating system, with its message. *)
Inductive error : Type :=
  | EOF                      (* io.EOF *)
  | ErrBadPattern            (* filepath.ErrBadPattern *)
  | ErrNotExist              (* os.ErrNotExist *)
  | ErrNew (msg : string).

(** [err.Error()] *)
Definition Error (e : error) : string :=
  match e with
  | EOF => "EOF"
  | ErrBadPattern => "syntax error in pattern"
  | ErrNotExist => "file does not exist"
  | ErrNew msg => msg
  end.

Global Instance error_eq_dec : EqDecision error.
Proof. solve_decision. Defined.

(** What a call gives: a value, or a panic that unwinds the program. *)
Inductive outcome (A : Type) : Type :=
  | Ret (a : A)
  | Panic.
Arguments Ret {A} a.
Arguments Panic {A}.

Global Instance outcome_bind : MBind outcome := λ A B k m,
  match m with
  | Ret a => k a
  | Panic => Panic
  end.
Global Instance outcome_ret : MRet outcome := @Ret.

(** ** Bytes and text *)

Abbreviation bytes := (list byte).

(** [[]byte(s)] *)
Definition bytes_of (s : string) : bytes := list_byte_of_string s.

(** [len(p)] as an [int]. *)
Definition len {A} (p : list A) : Z := Z.of_nat (length p).

(** ** io.Writer *)

(** [Write out p] gives the writer after the call, the count [n] and the
    error that [out.Write(p)] returns. *)
Class Writer (W : Type) : Type :=
  Write : W → bytes → outcome (W * Z * option error).

(** *** bytes.Buffer

    [Write] appends [p], returns [len(p)] and a nil error, and panics with
    [bytes.ErrTooLarge] when the buffer cannot grow.  A slice never holds more
    than [max_int] bytes; [buf_limit] is what the memory of the machine allows
    below that. *)
Record Buffer : Type := mkBuffer {
  buf_bytes : bytes;
  buf_limit : Z
}.

Definition Buffer_room (b : Buffer) : Z := Z.min (buf_limit b) max_int.

Global Instance Buffer_Writer : Writer Buffer := λ b p,
  if len (buf_bytes b ++ p) <=? Buffer_room b
  then Ret (mkBuffer (buf_bytes b ++ p) (buf_limit b), len p, None)
  else Panic.

(** *** A writer that follows a script

    Each [Write] takes the next [(n, err)] of the script as its result and
    keeps the first [n] bytes of [p]; when the script is over every write is
    accepted whole.  It stands for a pipe, a socket or a file on a full disk. *)
Record ScriptWriter : Type := mkScriptWriter {
  sw_taken : bytes;
  sw_script : list (Z * option error)
}.

Global Instance ScriptWriter_Writer : Writer ScriptWriter := λ w p,
  match sw_script w with
  | [] => Ret (mkScriptWriter (sw_taken w ++ p) [], len p, None)
  | (n, err) :: rest =>
      Ret (mkScriptWriter (sw_taken w ++ take (Z.to_nat n) p) rest, n, err)
  end.

(** ** io.Reader

    A reader is the list of what its successive [Read(buf)] calls return:
    the bytes stored in [buf] (there are [rn] of them, at most [len(buf)])
    and the error.  A reader whose list is over returns [0, io.EOF], as a
    file does at its end. *)
Definition reader : Type := list (bytes * option error).

(** [len(buf)] in [fmtBytes]. *)
Definition buf_len : Z := 16.

(** Every [Read] respects the size of the buffer it was given. *)
Definition fits_buf (inp : reader) : Prop :=
  Forall (λ rd, len rd.1 <= buf_len) inp.

(** The bytes a consumer gets that reads until the first non-nil error, and
    that error ([None] for [io.EOF], also when the list is over). *)
Fixpoint reader_data (inp : reader) : bytes :=
  match inp with
  | [] => []
  | (chunk, None) :: inp' => chunk ++ reader_data inp'
  | (chunk, Some _) :: _ => chunk
  end.

Fixpoint reader_err (inp : reader) : option error :=
  match inp with
  | [] => None
  | (_, None) :: inp' => reader_err inp'
  | (_, Some EOF) :: _ => None
  | (_, Some e) :: _ => Some e
  end.

(** The chunks of those [Read] calls that returned [rn > 0]. *)
Fixpoint reader_chunks (inp : reader) : list bytes :=
  match inp with
  | [] => []
  | (chunk, rerr) :: inp' =>
      let tl := match rerr with None => reader_chunks inp' | Some _ => [] end in
      match chunk with [] => tl | _ => chunk :: tl end
  end.

(** ** fmtBytes *)

Definition digits : string := "0123456789abcdef".

(** [digits[i]] *)
Definition digit_at (i : N) : byte :=
  nth (N.to_nat i) (bytes_of digits) "0"%byte.

(** [append(fbuf, ' ', '0', 'x', digits[b>>4], digits[b&0xf], ',')] *)
Definition append_byte (fbuf : bytes) (b : byte) : bytes :=
  fbuf ++ [" "; "0"; "x";
           digit_at (N.shiftr (Byte.to_N b) 4);
           digit_at (N.land (Byte.to_N b) 15);
           ","]%byte.

(** The line built in [fbuf] for the [rn] bytes of one chunk. *)
Definition fmt_line (chunk : bytes) : bytes :=
  fold_left append_byte chunk (bytes_of "   ") ++ ["010"%byte].

(** The [if rn > 0 { ... }] block: [inl] is the early return on a write
    error, [inr] the writer and the two counters after the block. *)
Definition fmt_chunk {W} `{!Writer W} (out : W) (chunk : bytes)
    (bytesRead bytesWritten : Z)
    : outcome ((W * (Z * Z * option error)) + (W * Z * Z)) :=
  let rn := len chunk in
  if 0 <? rn then
    '(out', wn, werr) ← Write out (fmt_line chunk);
    let bytesWritten := int_add bytesWritten wn in
    match werr with
    | Some e => Ret (inl (out', (bytesRead, bytesWritten, Some e)))
    | None => Ret (inr (out', int_add bytesRead rn, bytesWritten))
    end
  else Ret (inr (out, bytesRead, bytesWritten)).

(** The [for] loop, one iteration for each [Read]. *)
Fixpoint fmtBytes_loop {W} `{!Writer W} (out : W) (inp : reader)
    (bytesRead bytesWritten : Z) : outcome (W * (Z * Z * option error)) :=
  match inp with
  | [] => Ret (out, (bytesRead, bytesWritten, None))
  | (chunk, rerr) :: inp' =>
      r ← fmt_chunk out chunk bytesRead bytesWritten;
      match r with
      | inl res => Ret res
      | inr (out', bytesRead, bytesWritten) =>
          match rerr with
          | Some EOF => Ret (out', (bytesRead, bytesWritten, None))
          | Some e => Ret (out', (bytesRead, bytesWritten, Some e))
          | None => fmtBytes_loop out' inp' bytesRead bytesWritten
          end
      end
  end.

(** [fmtBytes(out, in)]: the writer after the call and
    [(bytesRead, bytesWritten, err)]. *)
Definition fmtBytes {W} `{!Writer W} (out : W) (inp : reader)
    : outcome (W * (Z * Z * option error)) :=
  fmtBytes_loop out inp 0 0.

(** ** Reading the literals back

    The data array of the generated file is read by the Go compiler; what it
    makes of the lines of [fmtBytes] is given by [decode]: the text is cut at
    blanks, commas and line ends, and each piece has to be a literal [0xHH]. *)

Definition is_sep (c : byte) : bool :=
  Byte.eqb c " " || Byte.eqb c "," || Byte.eqb c "010".

Fixpoint tokens_go (cur : bytes) (s : bytes) : list bytes :=
  match s with
  | [] => match cur with [] => [] | _ => [cur] end
  | c :: s' =>
      if is_sep c
      then match cur with [] => tokens_go [] s' | _ => cur :: tokens_go [] s' end
      else tokens_go (cur ++ [c]) s'
  end.

Definition tokens (s : bytes) : list bytes := tokens_go [] s.

Definition hex_val (c : byte) : option N :=
  let n := Byte.to_N c in
  if (48 <=? n)%N && (n <=? 57)%N then Some (n - 48)%N
  else if (97 <=? n)%N && (n <=? 102)%N then Some (n - 87)%N
  else if (65 <=? n)%N && (n <=? 70)%N then Some (n - 55)%N
  else None.

Definition parse_token (t : bytes) : option byte :=
  match t with
  | [z; x; h; l] =>
      if Byte.eqb z "0" && Byte.eqb x "x"
      then hv ← hex_val h; lv ← hex_val l; Byte.of_N (16 * hv + lv)
      else None
  | _ => None
  end.

Definition decode (s : bytes) : option bytes := mapM parse_token (tokens s).

(** ** Strings *)

Definition nl : string := String "010" EmptyString.
Definition tab : string := String "009" EmptyString.
Definition dq : string := String "034" EmptyString.

Definition cat (l : list string) : string := foldr String.append EmptyString l.

Fixpoint string_drop (n : nat) (s : string) : string :=
  match n, s with
  | S n', String _ s' => string_drop n' s'
  | _, _ => s
  end.

(** [strings.HasPrefix(s, prefix)] *)
Definition HasPrefix (s prefix : string) : bool := String.prefix prefix s.

(** [strings.TrimPrefix(s, prefix)]: [s[len(prefix):]] when [s] starts with
    [prefix], [s] otherwise. *)
Definition TrimPrefix (s prefix : string) : string :=
  if HasPrefix s prefix then string_drop (String.length prefix) s else s.

(** [sort.Strings]: increasing order, strings compared byte by byte. *)
Definition sort_Strings (l : list string) : list string :=
  merge_sort String.le l.

(** [%d] *)
Definition itoa (z : Z) : string := pretty z.

(** ** The world around [generate] *)

(** An opened [*os.File]: what [f.Stat()] gives ([fi.ModTime().Unix()], or
    [None] when it fails) and what reading it gives. *)
Record file : Type := mkFile {
  f_modtime : option Z;
  f_reader : reader
}.

(** The file system as the run sees it.  [fs_glob] is [filepath.Glob], whose
    only error is [filepath.ErrBadPattern] (here [None]); [fs_open] is
    [os.Open]. *)
Record filesystem : Type := mkFS {
  fs_glob : string → option (list string);
  fs_open : string → error + file
}.

(** [entry] *)
Record entry : Type := mkEntry {
  entry_ts : Z;
  entry_offset : Z;
  entry_size : Z
}.

(** What the Go runtime and library decide during one run: the clock, the text
    of [strconv.Quote] (used by [%#v] on a string), the order in which
    [range] goes through a map, and the memory a buffer may take. *)
Record runtime : Type := mkRuntime {
  rt_now : string;
  rt_quote : string → string;
  rt_range : list (string * entry) → list (string * entry);
  rt_mem : Z
}.

(** Go leaves the order of [range] over a map open, but every key is visited
    once. *)
Definition range_ok (rt : runtime) : Prop :=
  ∀ l, rt_range rt l ≡ₚ l.

(** ** The template *)

Inductive value : Type :=
  | VInt (z : Z)
  | VString (s : string)
  | VBool (b : bool).

#[local] Set Warnings "-register-all".
Inductive node : Type :=
  | Text (s : string)
  | Field (name : string)
  | If (name : string) (yes no : list node).

Definition header : list node :=
  [ Text "package ";
    Field "Pkg";
    Text (cat [nl; nl; "// Generated by github.com/gwatts/embedfiles"; nl;
               "// at "]);
    Field "Time";
    Text (cat [nl; nl; "import ("; nl;
               tab; dq; "bytes"; dq; nl;
               tab; dq; "errors"; dq; nl;
               tab]);
    If "IncludeHTTP"
      [Text (cat [dq; "net/http"; dq])]
      [];
    Text (cat [nl; tab; dq; "os"; dq; nl;
               tab; dq; "path"; dq; nl;
               tab; dq; "strings"; dq; nl;
               tab; dq; "time"; dq; nl;
               ")"; nl;
               nl; "type "]);
    Field "Prefix";
    Text (cat ["File struct {"; nl;
               tab; "*bytes.Reader"; nl;
               tab; "fi "]);
    Field "Prefix";
    Text (cat ["FI"; nl;
               "}"; nl;
               nl; "func (f *"]);
    Field "Prefix";
    Text (cat ["File) Close() error { return nil }"; nl;
               "func (f *"]);
    Field "Prefix";
    Text (cat ["File) Readdir(count int) ([]os.FileInfo, error) { return nil, errors.New("; dq; "Denied"; dq; ")}"; nl;
               "func (f *"]);
    Field "Prefix";
    Text (cat ["File) Stat() (os.FileInfo, error) { return f.fi, nil }"; nl;
               nl; "type "]);
    Field "Prefix";
    Text (cat ["FI struct {"; nl;
               tab; "name  string"; nl;
               tab; "size  int64"; nl;
               tab; "mode  os.FileMode"; nl;
               tab; "ftime time.Time"; nl;
               "}"; nl;
               nl; "func (fi "]);
    Field "Prefix";
    Text (cat ["FI) Name() string       { return fi.name }"; nl;
               "func (fi "]);
    Field "Prefix";
    Text (cat ["FI) Close() error       { return nil }"; nl;
               "func (fi "]);
    Field "Prefix";
    Text (cat ["FI) Size() int64        { return fi.size }"; nl;
               "func (fi "]);
    Field "Prefix";
    Text (cat ["FI) Mode() os.FileMode  { return fi.mode }"; nl;
               "func (fi "]);
    Field "Prefix";
    Text (cat ["FI) ModTime() time.Time { return fi.ftime }"; nl;
               "func (fi "]);
    Field "Prefix";
    Text (cat ["FI) IsDir() bool        { return false }"; nl;
               "func (fi "]);
    Field "Prefix";
    Text (cat ["FI) Sys() interface{}   { return nil }"; nl;
               nl; "type "]);
    Field "Prefix";
    Text (cat ["T struct {"; nl;
               tab; "filenames []string"; nl;
               tab; "files     map[string]struct {"; nl;
               tab; tab; "ts int64"; nl;
               tab; tab; "offset int"; nl;
               tab; tab; "size   int"; nl;
               tab; "}"; nl;
               tab; "data ["]);
    Field "DataSize";
    Text (cat ["]byte"; nl;
               "}"; nl;
               nl; "func (fs *"]);
    Field "Prefix";
    Text (cat ["T) Filenames() []string { return fs.filenames }"; nl;
               nl;
               "// Open returns a bytes.Reader for the given filename."; nl]);
    If "IncludeHTTP"
      [Text "func (fs *";
       Field "Prefix";
       Text "T) Open(filename string) (http.File, error) {"]
      [Text "func (fs *";
       Field "Prefix";
       Text (cat ["T) Open(filename string) ("; "*"]);
       Field "Prefix";
       Text "File, error) {"];
    Text (cat [nl;
               tab; "filename = strings.TrimPrefix(filename, "; dq; "/"; dq; ")"; nl;
               tab; "entry, ok := fs.files[filename]"; nl;
               tab; "if !ok {"; nl;
               tab; tab; "return nil, os.ErrNotExist"; nl;
               tab; "}"; nl;
               tab; "b := fs.data[entry.offset : entry.offset+entry.size]"; nl;
               tab; "return &"]);
    Field "Prefix";
    Text (cat ["File{"; nl;
               tab; tab; "Reader: bytes.NewReader(b),"; nl;
               tab; tab; "fi:     "]);
    Field "Prefix";
    Text (cat ["FI{name: path.Base(filename), size: int64(entry.size), mode: os.ModePerm, ftime: time.Unix(entry.ts, 0)},"; nl;
               tab; "}, nil"; nl;
               "}"; nl;
               nl]) ].

(** What [text/template] prints for [{{ .name }}] on a map. *)
Definition print_field (data : gmap string value) (name : string) : string :=
  match data !! name with
  | Some (VInt z) => itoa z
  | Some (VString s) => s
  | Some (VBool true) => "true"
  | Some (VBool false) => "false"
  | None => "<no value>"
  end.

(** The truth of the pipeline of [{{ if .name }}]. *)
Definition truth (data : gmap string value) (name : string) : bool :=
  match data !! name with
  | Some (VInt z) => negb (z =? 0)
  | Some (VString s) => negb (String.eqb s EmptyString)
  | Some (VBool b) => b
  | None => false
  end.

Fixpoint exec_node (data : gmap string value) (n : node) : string :=
  match n with
  | Text s => s
  | Field name => print_field data name
  | If name yes no =>
      cat (map (exec_node data) (if truth data name then yes else no))
  end.

(** [tmpl.Execute(w, data)]: the text sent to [w]. *)
Definition Execute (tmpl : list node) (data : gmap string value) : string :=
  cat (map (exec_node data) tmpl).

(** ** generate *)

(** The local variables of [generate].  [recorded] is not in the source: it
    keeps every assignment [filemap[name] = entry{...}] in the order in which
    the loop made them. *)
Record gen_state : Type := mkState {
  offset : Z;
  fcount : Z;
  filenames : list string;
  filemap : gmap string entry;
  databuf : Buffer;
  recorded : list (string * entry)
}.

Definition init_state (rt : runtime) : gen_state :=
  mkState 0 0 [] ∅ (mkBuffer [] (rt_mem rt)) [].

(** [fmt.Errorf(what + " %s: %v", name, err)] *)
Definition Errorf (what name : string) (err : error) : error :=
  ErrNew (cat [what; " "; name; ": "; Error err]).

(** What [fmt.Fprintln(databuf, "\n    //", name)] prints: the operands with
    a blank between them, and a line end. *)
Definition comment_line (name : string) : string :=
  cat [nl; "    //"; " "; name; nl].

(** The body of [for _, name := range names]. *)
Definition process_file (fs : filesystem) (st : gen_state) (name : string)
    : outcome (error + gen_state) :=
  let fcount := int_add (fcount st) 1 in
  '(databuf, _, _) ← Write (databuf st) (bytes_of (comment_line name));
  match fs_open fs name with
  | inl err => Ret (inl (Errorf "Failed to read" name err))
  | inr f =>
      let name := TrimPrefix name "/" in
      let filenames := filenames st ++ [name] in
      let ts := match f_modtime f with Some t => t | None => 0 end in
      '(databuf, (br, _, err)) ← fmtBytes databuf (f_reader f);
      match err with
      | Some err => Ret (inl (Errorf "Failed to process" name err))
      | None =>
          let e := mkEntry ts (offset st) br in
          Ret (inr (mkState (int_add (offset st) br) fcount filenames
                            (<[name := e]> (filemap st)) databuf
                            (recorded st ++ [(name, e)])))
      end
  end.

Fixpoint process_names (fs : filesystem) (st : gen_state) (names : list string)
    : outcome (error + gen_state) :=
  match names with
  | [] => Ret (inr st)
  | name :: names' =>
      r ← process_file fs st name;
      match r with
      | inl err => Ret (inl err)
      | inr st' => process_names fs st' names'
      end
  end.

(** [for _, pattern := range globs] *)
Fixpoint process_globs (fs : filesystem) (st : gen_state) (globs : list string)
    : outcome (error + gen_state) :=
  match globs with
  | [] => Ret (inr st)
  | pattern :: globs' =>
      match fs_glob fs pattern with
      | None => Ret (inl ErrBadPattern)
      | Some names =>
          r ← process_names fs st names;
          match r with
          | inl err => Ret (inl err)
          | inr st' => process_globs fs st' globs'
          end
      end
  end.

(** What [generate] does to [w], in order: the writes, each with its text,
    and at the end the [Close] that is called when [w] is an [io.Closer], as
    [os.Stdout] and the created file are.  [generate] never looks at what a
    write to [w] returns, so the list does not depend on it; [w] is taken to
    keep to the contract of [io.Writer]. *)
Inductive w_op : Type :=
  | Wr (text : string)
  | Cl.

(** [%#v] on a [[]string] *)
Definition gosyntax_strings (rt : runtime) (l : list string) : string :=
  match l with
  | [] => "[]string(nil)"
  | x :: l' =>
      cat ["[]string{"; rt_quote rt x;
           cat (map (λ y, cat [", "; rt_quote rt y]) l'); "}"]
  end.

(** [fmt.Fprintf(w, "        %#v: {%d, %d, %d},\n", fn, ...)] *)
Definition entry_line (rt : runtime) (kv : string * entry) : string :=
  cat ["        "; rt_quote rt kv.1; ": {"; itoa (entry_ts kv.2); ", ";
       itoa (entry_offset kv.2); ", "; itoa (entry_size kv.2); "},"; nl].

(** [databuf.WriteTo(w)]: one write of all the bytes, none for an empty
    buffer. *)
Definition WriteTo (b : Buffer) : list w_op :=
  match buf_bytes b with
  | [] => []
  | p => [Wr (string_of_list_byte p)]
  end.

(** From [sort.Strings(filenames)] to the end of [generate], in four
    stretches: the template, the three lines that open the value, the loop
    over [filemap], and the rest. *)
Definition render_header (rt : runtime) (incHTTP : bool) (pkg prefix : string)
    (st : gen_state) : w_op :=
  let filenames := sort_Strings (filenames st) in
  Wr (Execute header
        (<["DataSize" := VInt (offset st)]>
        (<["Filenames" := VString (gosyntax_strings rt filenames)]>
        (<["IncludeHTTP" := VBool incHTTP]>
        (<["Pkg" := VString pkg]>
        (<["Prefix" := VString prefix]>
        (<["Time" := VString (rt_now rt)]> ∅))))))).

Definition render_opening (rt : runtime) (prefix : string) (st : gen_state)
    : list w_op :=
  let filenames := sort_Strings (filenames st) in
  [ Wr (cat ["var "; prefix; " = &"; prefix; "T{"; nl]);
    Wr (cat ["    filenames: "; gosyntax_strings rt filenames; ","; nl]);
    Wr (cat ["    files: map[string]struct{ts int64; offset int; size int}{"; nl]) ].

Definition render_entries (rt : runtime) (st : gen_state) : list w_op :=
  (λ kv, Wr (entry_line rt kv)) <$> rt_range rt (map_to_list (filemap st)).

Definition render_closing (st : gen_state) : list w_op :=
  [ Wr (cat ["    },"; nl]);
    Wr (cat ["    data: ["; itoa (offset st); "]byte{"; nl]) ]
  ++ WriteTo (databuf st)
  ++ [ Wr (cat ["    },"; nl]);
       Wr (cat ["}"; nl]);
       Cl ].

Definition render (rt : runtime) (incHTTP : bool) (pkg prefix : string)
    (st : gen_state) : list w_op :=
  render_header rt incHTTP pkg prefix st
  :: render_opening rt prefix st ++ render_entries rt st ++ render_closing st.

(** [generate(w, pkg, prefix, globs)], with the flag [*incHTTP]: what is done
    to [w] and the error returned. *)
Definition generate (rt : runtime) (fs : filesystem) (incHTTP : bool)
    (pkg prefix : string) (globs : list string)
    : outcome (list w_op * option error) :=
  r ← process_globs fs (init_state rt) globs;
  match r with
  | inl err => Ret ([], Some err)
  | inr st =>
      if fcount st =? 0 then Ret ([], Some (ErrNew "No files found"))
      else Ret (render rt incHTTP pkg prefix st, None)
  end.

(** The text that reached [w]. *)
Definition written (ops : list w_op) : string :=
  cat (map (λ op, match op with Wr t => t | Cl => EmptyString end) ops).

(** ** The generated code

    What the emitted [Open] method does, on the value that the emitted
    initializer builds: [filenames], [files] and the array [data], which has
    [DataSize] elements.  [path.Base] belongs to Go's library and is a
    parameter. *)
Module Generated.

Record FI : Type := mkFI {
  fi_name : string;
  fi_size : Z;
  fi_mode : Z;
  fi_ftime : Z
}.

Record File : Type := mkFile {
  Reader : bytes;
  fi : FI
}.

Record T : Type := mkT {
  filenames : list string;
  files : gmap string entry;
  data : bytes
}.

(** [os.ModePerm] *)
Definition ModePerm : Z := 511.

(** [a[lo:hi]], which panics unless [0 <= lo <= hi <= len(a)]. *)
Definition slice (a : bytes) (lo hi : Z) : outcome bytes :=
  if (0 <=? lo) && (lo <=? hi) && (hi <=? len a)
  then Ret (take (Z.to_nat (hi - lo)) (drop (Z.to_nat lo) a))
  else Panic.

Definition Filenames (fs : T) : list string := filenames fs.

Definition Open (path_Base : string → string) (fs : T) (filename : string)
    : outcome (error + File) :=
  let filename := TrimPrefix filename "/" in
  match files fs !! filename with
  | None => Ret (inl ErrNotExist)
  | Some entry =>
      b ← slice (data fs) (entry_offset entry)
                (int_add (entry_offset entry) (entry_size entry));
      Ret (inr (mkFile b (mkFI (path_Base filename) (entry_size entry)
                               ModePerm (entry_ts entry))))
  end.

End Generated.

(** ** Words for the statements *)

(** The paths that the patterns give, in the order in which the loops of
    [generate] go through them; [None] when a pattern is malformed. *)
Definition resolve (fs : filesystem) (globs : list string) : option (list string) :=
  mjoin <$> mapM (fs_glob fs) globs.

(** The name under which a path is recorded. *)
Definition recorded_name (path : string) : string := TrimPrefix path "/".

(** The bytes of the file at [path]. *)
Definition file_data (fs : filesystem) (path : string) : bytes :=
  match fs_open fs path with
  | inr f => reader_data (f_reader f)
  | inl _ => []
  end.

(** What one file adds to [databuf]: the comment with its path, then the
    lines of [fmtBytes]. *)
Definition file_block (fs : filesystem) (path : string) : bytes :=
  bytes_of (comment_line path) ++
  match fs_open fs path with
  | inr f => mjoin (fmt_line <$> reader_chunks (f_reader f))
  | inl _ => []
  end.

(** The six bytes that [fmtBytes] appends for [b], and the literal in them. *)
Definition byte_literal (b : byte) : bytes := append_byte [] b.

Definition token (b : byte) : bytes :=
  [ "0"%byte; "x"%byte;
    digit_at (N.shiftr (Byte.to_N b) 4); digit_at (N.land (Byte.to_N b) 15) ].

(** The entries lie one after the other from [start] to [stop]. *)
Fixpoint contiguous (start : Z) (es : list entry) (stop : Z) : Prop :=
  match es with
  | [] => start = stop
  | e :: es' =>
      entry_offset e = start ∧ 0 <= entry_size e
      ∧ contiguous (start + entry_size e) es' stop
  end.

Definition sum_sizes (es : list entry) : Z :=
  foldr (λ e acc, entry_size e + acc) 0 es.

(** [fi.ModTime().Unix()] for the file at [path], 0 when [Stat] fails. *)
Definition file_ts (fs : filesystem) (path : string) : Z :=
  match fs_open fs path with
  | inr f => match f_modtime f with Some t => t | None => 0 end
  | inl _ => 0
  end.

(** The number of bytes in the files at [paths], each counted as often as it
    is listed. *)
Definition total_size (fs : filesystem) (paths : list string) : Z :=
  foldr (λ path acc, len (file_data fs path) + acc) 0 paths.

(** The file at [path] opens and is read to its end without error. *)
Definition readable (fs : filesystem) (path : string) : Prop :=
  ∃ f, fs_open fs path = inr f ∧ reader_err (f_reader f) = None.

(** [st] is what the loops of [generate] hold after the paths [names]. *)
Record reached (fs : filesystem) (names : list string) (st : gen_state)
    : Prop := mkReached {
  reached_recorded :
    Forall2 (λ path ne,
               ne.1 = recorded_name path
               ∧ entry_size ne.2 = len (file_data fs path)
               ∧ entry_ts ne.2 = file_ts fs path
               ∧ readable fs path)
            names (recorded st);
  reached_contiguous : contiguous 0 (recorded st).*2 (offset st);
  reached_filenames : filenames st = (recorded st).*1;
  reached_filemap : filemap st = list_to_map (reverse (recorded st));
  reached_fcount : fcount st = len names;
  reached_databuf : buf_bytes (databuf st) = mjoin (file_block fs <$> names);
  reached_room : 6 * offset st + fcount st <= len (buf_bytes (databuf st))
                 ∧ len (buf_bytes (databuf st)) <= max_int
}.

(** [strings.Contains(s, sub)] *)
Definition Contains (s sub : string) : bool :=
  bool_decide (is_Some (String.index 0 sub s)).

(** How many elements of [l] are [x]. *)
Definition occurrences (x : string) (l : list string) : nat :=
  length (filter (λ y, y = x) l).

(** What a finished call did to [w]. *)
Definition ops_of (r : outcome (list w_op * option error)) : list w_op :=
  match r with
  | Ret (ops, _) => ops
  | Panic => []
  end.

(** ** An example world *)
Module Example.

(** [strconv.Quote] on a name of plain letters, digits, dots and slashes. *)
Definition quote (s : string) : string := cat [dq; s; dq].

Definition rt : runtime :=
  mkRuntime "Mon Jan  2 15:04:05 MST 2006" quote id 1000000.

(** The same machine at the same time, with the other order of [range]. *)
Definition rt' : runtime :=
  mkRuntime "Mon Jan  2 15:04:05 MST 2006" quote reverse 1000000.

Definition a_txt : file :=
  mkFile (Some 1700000000) [(["001"; "002"; "003"]%byte, None)].
Definition b_txt : file := mkFile None [].
Definition root_a_txt : file := mkFile (Some 1600000000) [(["x"]%byte, Some EOF)].

(** A directory with [a.txt] (three bytes) and [b.txt] (empty), and another
    file [/a.txt] (one byte) in the root.  The patterns ["["] and ["a["] are
    malformed; every other pattern matches nothing. *)
Definition fs : filesystem :=
  mkFS (λ p, if String.eqb p "a.txt" then Some ["a.txt"]
             else if String.eqb p "b.txt" then Some ["b.txt"]
             else if String.eqb p "*.txt" then Some ["a.txt"; "b.txt"]
             else if String.eqb p "/a.txt" then Some ["/a.txt"]
             else if String.eqb p "[" then None
             else if String.eqb p "a[" then None
             else Some [])
       (λ n, if String.eqb n "a.txt" then inr a_txt
             else if String.eqb n "b.txt" then inr b_txt
             else if String.eqb n "/a.txt" then inr root_a_txt
             else inl ErrNotExist).

(** [path.Base] on a name without a slash. *)
Definition base (s : string) : string := s.

(** Two patterns, two files. *)
Definition run : outcome (list w_op * option error) :=
  generate rt fs false "main" "assets" ["a.txt"; "b.txt"].

(** Two patterns match [a.txt]. *)
Definition run_twice : outcome (list w_op * option error) :=
  generate rt fs false "main" "assets" ["a.txt"; "*.txt"].

End Example.

(** ** The rest of the program *)

(** *** A writer that keeps each write apart

    It takes every write whole, as [os.Stdout] does on a terminal, and shows
    how [fmtBytes] cuts its text into writes. *)
Record LogWriter : Type := mkLogWriter {
  lw_writes : list bytes
}.

Global Instance LogWriter_Writer : Writer LogWriter := λ w p,
  Ret (mkLogWriter (lw_writes w ++ [p]), len p, None).

Global Instance byte_eq_dec : EqDecision byte := Byte.byte_eq_dec.

(** The bytes that the text of [fmtBytes] is made of. *)
Definition fmt_alphabet : bytes :=
  bytes_of " 0123456789abcdefx," ++ ["010"%byte].

(** *** The methods of the generated file

    [File] embeds the [*bytes.Reader] made from the slice, so the bytes to be
    read from it are those of [Reader]. *)
Module GeneratedMethods.

(** [func (f *File) Close() error { return nil }] *)
Definition Close (f : Generated.File) : option error := None.

(** [func (f *File) Readdir(count int) ([]os.FileInfo, error)] *)
Definition Readdir (f : Generated.File) (count : Z)
    : option (list Generated.FI) * option error :=
  (None, Some (ErrNew "Denied")).

(** [func (f *File) Stat() (os.FileInfo, error) { return f.fi, nil }] *)
Definition Stat (f : Generated.File) : Generated.FI * option error :=
  (Generated.fi f, None).

Definition Name (fi : Generated.FI) : string := Generated.fi_name fi.
Definition Size (fi : Generated.FI) : Z := Generated.fi_size fi.
Definition Mode (fi : Generated.FI) : Z := Generated.fi_mode fi.
Definition ModTime (fi : Generated.FI) : Z := Generated.fi_ftime fi.
Definition IsDir (fi : Generated.FI) : bool := false.

(** [bytes.Reader.Len()] before anything is read. *)
Definition Len (f : Generated.File) : Z := len (Generated.Reader f).

End GeneratedMethods.

(** *** How the Go compiler reads the array

    The text of [databuf] stands between [data: [N]byte{] and [},] in the
    generated file.  The compiler drops each line comment, from [//] to the
    end of the line, reads the literals that are left, and fills the [N]
    elements of the array with them, with zeros after the last one; more than
    [N] literals are refused. *)
Inductive lex_state : Type :=
  | Code
  | Slash
  | Comment.

Fixpoint uncomment (q : lex_state) (s : bytes) : bytes :=
  match s with
  | [] => match q with Slash => ["/"%byte] | _ => [] end
  | c :: s' =>
      match q with
      | Code =>
          if Byte.eqb c "/" then uncomment Slash s' else c :: uncomment Code s'
      | Slash =>
          if Byte.eqb c "/" then uncomment Comment s'
          else "/"%byte :: c :: uncomment Code s'
      | Comment =>
          if Byte.eqb c "010" then c :: uncomment Code s'
          else uncomment Comment s'
      end
  end.

Definition go_elements (text : bytes) : option bytes :=
  decode (uncomment Code text).

Definition go_array (n : Z) (text : bytes) : option bytes :=
  elements ← go_elements text;
  if len elements <=? n
  then Some (elements ++ replicate (Z.to_nat (n - len elements)) "000"%byte)
  else None.

(** A path in which no line ends. *)
Definition one_line (path : string) : Prop := "010"%byte ∉ bytes_of path.

(** The lines that [fmtBytes] writes for the file at [path]. *)
Definition file_lines (fs : filesystem) (path : string) : bytes :=
  match fs_open fs path with
  | inr f => mjoin (fmt_line <$> reader_chunks (f_reader f))
  | inl _ => []
  end.

(** The value that the generated file declares, for the state in which
    [generate] wrote it. *)
Definition embedded (st : gen_state) (data : bytes) : Generated.T :=
  Generated.mkT (sort_Strings (filenames st)) (filemap st) data.

(** *** The flags, [fail] and [main] *)

(** The flags [-filename], [-package], [-var], [-include-http] and
    [flag.Args()] after [flag.Parse()]. *)
Record flags : Type := mkFlags {
  flag_fn : string;
  flag_pkg : string;
  flag_prefix : string;
  flag_incHTTP : bool;
  flag_args : list string
}.

(** The values that the flags have when they are not given. *)
Definition default_flags (args : list string) : flags :=
  mkFlags "-" "main" "assets" false args.

(** [fail(format, a...)] prints with [fmt.Fprintf(os.Stderr, format+"\n",
    a...)] and calls [os.Exit(100)].  The call of [Fprintf] is kept with its
    format and its operands: what [fmt] prints for them is Go's matter. *)
Record failure : Type := mkFailure {
  fail_format : string;
  fail_operands : list error;
  fail_code : Z
}.

Definition fail (format : string) (a : list error) : failure :=
  mkFailure (format +:+ nl) a 100.

(** What a run of [main] leaves: the file that [os.Create] made or emptied,
    what was done to [out], and the call of [fail] that ended the run, if
    one did. *)
Record main_result : Type := mkMain {
  m_created : option string;
  m_ops : list w_op;
  m_failure : option failure
}.

(** [*fn != "" && *fn != "-"] *)
Definition to_file (fl : flags) : bool :=
  negb (String.eqb (flag_fn fl) EmptyString)
  && negb (String.eqb (flag_fn fl) "-").

(** [main], with [os.Create] as the function that gives its error. *)
Definition main (rt : runtime) (fs : filesystem)
    (os_Create : string → option error) (fl : flags) : outcome main_result :=
  match flag_args fl with
  | [] => Ret (mkMain None [] (Some (fail "No globs specified" [])))
  | _ :: _ =>
      match (if to_file fl then os_Create (flag_fn fl) else None) with
      | Some err =>
          Ret (mkMain None []
                 (Some (fail "Failed to open file for write: %v" [err])))
      | None =>
          '(ops, err) ← generate rt fs (flag_incHTTP fl) (flag_pkg fl)
                                 (flag_prefix fl) (flag_args fl);
          Ret (mkMain (if to_file fl then Some (flag_fn fl) else None) ops
                      (match err with
                       | Some e => Some (fail (Error e) [])
                       | None => None
                       end))
      end
  end.

(** The exit status of the process. *)
Definition exit_status (r : main_result) : Z :=
  match m_failure r with
  | Some f => fail_code f
  | None => 0
  end.

(** *** More of the example world *)
Module Demo.

(** A file whose second read brings an error with its byte. *)
Definition broken : file :=
  mkFile (Some 1500000000)
    [(["h"; "i"]%byte, None); (["!"]%byte, Some (ErrNew "input/output error"))].

(** A file of one byte whose name has a line end in it. *)
Definition odd_name : string := cat ["odd"; nl; "0x2a,"].
Definition odd : file := mkFile None [(["A"]%byte, Some EOF)].

(** The directory of [Example.fs] with more entries: [locked.txt], which
    cannot be opened, as [100%s.txt] cannot; [broken.txt], which cannot be
    read to its end; the path [//a.txt], which names the file [/a.txt] again;
    and the file [odd]. *)
Definition fs : filesystem :=
  mkFS (λ p, if String.eqb p "locked.txt" then Some ["locked.txt"]
             else if String.eqb p "broken.txt" then Some ["broken.txt"]
             else if String.eqb p "//a.txt" then Some ["//a.txt"]
             else if String.eqb p "odd*" then Some [odd_name]
             else if String.eqb p "100%*" then Some ["100%s.txt"]
             else fs_glob Example.fs p)
       (λ n, if String.eqb n "locked.txt" then inl (ErrNew "permission denied")
             else if String.eqb n "100%s.txt"
                  then inl (ErrNew "permission denied")
             else if String.eqb n "broken.txt" then inr broken
             else if String.eqb n "//a.txt" then inr Example.root_a_txt
             else if String.eqb n odd_name then inr odd
             else fs_open Example.fs n).

(** [os.Create] that makes every file but [/proc/out.go]. *)
Definition create (path : string) : option error :=
  if String.eqb path "/proc/out.go" then Some (ErrNew "permission denied")
  else None.

End Demo.

(** * Proofs *)

(** ** Arithmetic on [int] *)

Lemma wrap_int_id z : in_int z → wrap_int z = z.
Proof.
  unfold in_int, min_int, max_int, wrap_int. intros Hz.
  rewrite Z.mod_small; lia.
Qed.

Lemma wrap_int_range z : in_int (wrap_int z).
Proof.
  unfold in_int, min_int, max_int, wrap_int.
  pose proof (Z.mod_pos_bound (z + 2 ^ 63) (2 ^ 64)). lia.
Qed.

Lemma wrap_int_idemp z : wrap_int (wrap_int z) = wrap_int z.
Proof. apply wrap_int_id, wrap_int_range. Qed.

Lemma int_add_exact a b : in_int (a + b) → int_add a b = a + b.
Proof. apply wrap_int_id. Qed.

Lemma int_add_wrap_l a b : int_add (wrap_int a) b = wrap_int (a + b).
Proof.
  unfold int_add, wrap_int.
  replace ((a + 2 ^ 63) mod 2 ^ 64 - 2 ^ 63 + b + 2 ^ 63)
    with ((a + 2 ^ 63) mod 2 ^ 64 + b) by lia.
  rewrite Zplus_mod_idemp_l. f_equal. f_equal. lia.
Qed.

Lemma len_app {A} (l k : list A) : len (l ++ k) = len l + len k.
Proof. unfold len. rewrite length_app. lia. Qed.

Lemma len_nil {A} : len (@nil A) = 0.
Proof. done. Qed.

Lemma len_nonneg {A} (l : list A) : 0 <= len l.
Proof. unfold len. lia. Qed.

Lemma len_pos_iff {A} (l : list A) : (0 <? len l) = true ↔ l ≠ [].
Proof.
  unfold len. destruct l; simpl; split; done.
Qed.

(** ** The lines of [fmtBytes] *)

#[local] Arguments byte_literal : simpl never.
#[local] Arguments token : simpl never.
#[local] Arguments fmt_line : simpl never.
#[local] Arguments bytes_of : simpl never.

Lemma fold_append_byte chunk fbuf :
  fold_left append_byte chunk fbuf = fbuf ++ mjoin (byte_literal <$> chunk).
Proof.
  revert fbuf. induction chunk as [|b chunk IH]; intros fbuf; csimpl.
  - by rewrite app_nil_r.
  - rewrite IH. unfold append_byte at 1. unfold byte_literal at 2, append_byte.
    csimpl. by rewrite <- app_assoc.
Qed.

Lemma fmt_line_eq chunk :
  fmt_line chunk =
  bytes_of "   " ++ mjoin (byte_literal <$> chunk) ++ ["010"%byte].
Proof. unfold fmt_line. rewrite fold_append_byte. by rewrite <- app_assoc. Qed.

Lemma length_byte_literals chunk :
  length (mjoin (byte_literal <$> chunk)) = (6 * length chunk)%nat.
Proof.
  induction chunk as [|b chunk IH]; [done|].
  csimpl. rewrite IH. lia.
Qed.

Lemma len_fmt_line chunk : len (fmt_line chunk) = 6 * len chunk + 4.
Proof.
  rewrite fmt_line_eq. unfold len. rewrite !length_app, length_byte_literals.
  csimpl. lia.
Qed.

(** A line has at most 100 bytes when the read kept to the 16 bytes of
    [buf]. *)
Lemma len_fmt_line_max chunk : len chunk <= buf_len → len (fmt_line chunk) <= 100.
Proof. rewrite len_fmt_line. unfold buf_len. lia. Qed.

Lemma fits_buf_lines inp :
  fits_buf inp → Forall (λ chunk, len (fmt_line chunk) <= 100) (reader_chunks inp).
Proof.
  induction 1 as [|[chunk rerr] inp Hrd _ IH]; [constructor|].
  simpl in *. destruct chunk as [|b chunk].
  - destruct rerr; [constructor|done].
  - constructor; [by apply len_fmt_line_max|]. destruct rerr; [constructor|done].
Qed.

Lemma reader_data_chunks inp : reader_data inp = mjoin (reader_chunks inp).
Proof.
  induction inp as [|[chunk rerr] inp IH]; [done|].
  csimpl. destruct rerr as [e|]; destruct chunk; csimpl; rewrite ?IH, ?app_nil_r; done.
Qed.

Lemma len_lines chunks :
  6 * len (mjoin chunks) <= len (mjoin (fmt_line <$> chunks)).
Proof.
  induction chunks as [|c chunks IH]; csimpl; [done|].
  rewrite !len_app, len_fmt_line. lia.
Qed.

(** ** Reading the lines back *)

Lemma tokens_go_literal b rest :
  tokens_go [] (byte_literal b ++ rest) = token b :: tokens_go [] rest.
Proof. destruct b; reflexivity. Qed.

Lemma parse_token_literal b : parse_token (token b) = Some b.
Proof. destruct b; reflexivity. Qed.

Lemma tokens_go_literals chunk rest :
  tokens_go [] (mjoin (byte_literal <$> chunk) ++ rest) =
  (token <$> chunk) ++ tokens_go [] rest.
Proof.
  induction chunk as [|b chunk IH]; [done|].
  rewrite fmap_cons. change (mjoin (?x :: ?l)) with (x ++ mjoin l).
  rewrite <- app_assoc, tokens_go_literal, IH. done.
Qed.

Lemma tokens_fmt_line chunk rest :
  tokens (fmt_line chunk ++ rest) = (token <$> chunk) ++ tokens rest.
Proof.
  unfold tokens. rewrite fmt_line_eq, <- !app_assoc.
  change (tokens_go [] (bytes_of "   " ++ ?x)) with (tokens_go [] x).
  rewrite tokens_go_literals. done.
Qed.

Lemma tokens_lines chunks :
  tokens (mjoin (fmt_line <$> chunks)) = token <$> mjoin chunks.
Proof.
  induction chunks as [|c chunks IH]; [done|].
  rewrite fmap_cons. change (mjoin (?x :: ?l)) with (x ++ mjoin l).
  rewrite tokens_fmt_line, IH. change (mjoin (c :: chunks)) with (c ++ mjoin chunks).
  by rewrite fmap_app.
Qed.

Lemma decode_lines chunks :
  decode (mjoin (fmt_line <$> chunks)) = Some (mjoin chunks).
Proof.
  unfold decode. rewrite tokens_lines. apply mapM_Some.
  induction (mjoin chunks) as [|b l IH]; csimpl; constructor; [|done].
  apply parse_token_literal.
Qed.

(** ** [fmtBytes] on any writer *)

Ltac case_write :=
  match goal with
  | |- context [Write ?out ?p] =>
      let E := fresh "Ewrite" in
      destruct (Write out p) as [[[? ?] [?|]]|] eqn:E; csimpl
  | H : context [Write ?out ?p] |- _ =>
      let E := fresh "Ewrite" in
      destruct (Write out p) as [[[? ?] [?|]]|] eqn:E; csimpl in H
  end.

Section fmtBytes_any.
Context {W : Type} `{!Writer W}.

Lemma fmt_chunk_nil (out : W) br bw :
  fmt_chunk out [] br bw = Ret (inr (out, br, bw)).
Proof. done. Qed.

Lemma fmt_chunk_cons (out : W) b chunk br bw :
  fmt_chunk out (b :: chunk) br bw =
  '(out', wn, werr) ← Write out (fmt_line (b :: chunk));
  match werr with
  | Some e => Ret (inl (out', (br, int_add bw wn, Some e)))
  | None => Ret (inr (out', int_add br (len (b :: chunk)), int_add bw wn))
  end.
Proof.
  unfold fmt_chunk.
  destruct (0 <? len (b :: chunk)) eqn:E; [done|].
  apply Z.ltb_ge in E. unfold len in E. simpl in E. lia.
Qed.

(** Going through reads that bring no error and whose lines are written
    without error, the loop reaches the rest of the reader with its
    counters. *)
Lemma fmtBytes_loop_prefix (out out1 : W) pre tail br bw br1 bw1 :
  Forall (λ rd, rd.2 = None) pre →
  fmtBytes_loop out pre br bw = Ret (out1, (br1, bw1, None)) →
  fmtBytes_loop out (pre ++ tail) br bw = fmtBytes_loop out1 tail br1 bw1.
Proof.
  intros Hpre. revert out br bw.
  induction Hpre as [|[chunk rerr] pre Hrd _ IH]; intros out br bw Hrun.
  - simpl in Hrun. by simplify_eq.
  - simpl in Hrd. subst rerr.
    cbn [fmtBytes_loop app] in *.
    destruct chunk as [|b chunk].
    + rewrite fmt_chunk_nil in *. csimpl in *. by apply IH.
    + rewrite fmt_chunk_cons in *. case_write; try done.
      by apply IH.
Qed.

(** When no error comes back, [bytesRead] has grown by all the bytes of the
    reader. *)
Lemma fmtBytes_loop_bytesRead (out out' : W) inp br bw br' bw' :
  fmtBytes_loop out inp br bw = Ret (out', (br', bw', None)) →
  wrap_int br = br →
  br' = wrap_int (br + len (reader_data inp)).
Proof.
  revert out br bw.
  induction inp as [|[chunk rerr] inp IH]; intros out br bw Hrun Hbr.
  - simpl in Hrun. simplify_eq. simpl. by rewrite len_nil, Z.add_0_r.
  - cbn [fmtBytes_loop] in Hrun.
    destruct chunk as [|b chunk].
    + rewrite fmt_chunk_nil in Hrun. csimpl in Hrun.
      destruct rerr as [[]|]; simplify_eq; simpl;
        rewrite ?len_nil, ?Z.add_0_r; eauto.
    + rewrite fmt_chunk_cons in Hrun. case_write; try done.
      destruct rerr as [[]|]; simplify_eq; try done.
      apply IH in Hrun; [|apply wrap_int_idemp].
      subst br'. cbn [reader_data]. rewrite len_app.
      change (wrap_int (int_add br ?x + ?y)) with (int_add (wrap_int (br + x)) y).
      rewrite int_add_wrap_l. f_equal. lia.
Qed.

End fmtBytes_any.

(** ** [fmtBytes] on a writer that keeps all it is given

    [bytes.Buffer] is such a writer, and so is a [ScriptWriter] whose script
    is over. *)
Section appending_writer.
Context {W : Type} `{!Writer W} (content : W → bytes) (good : W → Prop).
Hypothesis Write_appends : ∀ out p out' wn werr,
  good out → Write out p = Ret (out', wn, werr) →
  good out' ∧ content out' = content out ++ p ∧ wn = len p ∧ werr = None.

Lemma fmtBytes_loop_appends (out out' : W) inp br bw br' bw' err :
  good out →
  fmtBytes_loop out inp br bw = Ret (out', (br', bw', err)) →
  wrap_int br = br → wrap_int bw = bw →
  good out'
  ∧ content out' = content out ++ mjoin (fmt_line <$> reader_chunks inp)
  ∧ br' = wrap_int (br + len (reader_data inp))
  ∧ bw' = wrap_int (bw + len (mjoin (fmt_line <$> reader_chunks inp)))
  ∧ err = reader_err inp.
Proof.
  revert out br bw.
  induction inp as [|[chunk rerr] inp IH]; intros out br bw Hgood Hrun Hbr Hbw.
  - simpl in Hrun. simplify_eq. csimpl.
    by rewrite !len_nil, !Z.add_0_r, app_nil_r, Hbr, Hbw.
  - cbn [fmtBytes_loop] in Hrun. destruct chunk as [|b chunk].
    + rewrite fmt_chunk_nil in Hrun. csimpl in Hrun.
      destruct rerr as [e|].
      * assert (out' = out ∧ br' = br ∧ bw' = bw ∧
                err = reader_err (([], Some e) :: inp)) as (-> & -> & -> & ->)
          by (by destruct e; simplify_eq).
        csimpl. by rewrite !len_nil, !Z.add_0_r, app_nil_r, Hbr, Hbw.
      * apply IH in Hrun as (? & ? & ? & ? & ?); done.
    + rewrite fmt_chunk_cons in Hrun.
      destruct (Write out (fmt_line (b :: chunk))) as [[[out1 wn] werr]|] eqn:Ew;
        [|done].
      apply Write_appends in Ew as (Hgood1 & Hc1 & -> & ->); [|done].
      csimpl in Hrun. destruct rerr as [e|].
      * assert (out' = out1 ∧ br' = int_add br (len (b :: chunk)) ∧
                bw' = int_add bw (len (fmt_line (b :: chunk))) ∧
                err = reader_err ((b :: chunk, Some e) :: inp))
          as (-> & -> & -> & ->) by (by destruct e; simplify_eq).
        csimpl. rewrite Hc1, app_nil_r. done.
      * apply IH in Hrun as (? & Hc & -> & -> & ->);
          [|done|apply wrap_int_idemp..].
        split; [done|]. split.
        { rewrite Hc, Hc1. csimpl. by rewrite <- app_assoc. }
        split; [|split; [|done]].
        -- cbn [reader_data]. rewrite len_app.
           change (wrap_int (int_add br ?x + ?y))
             with (int_add (wrap_int (br + x)) y).
           rewrite int_add_wrap_l. f_equal. lia.
        -- csimpl. rewrite len_app.
           change (wrap_int (int_add bw ?x + ?y))
             with (int_add (wrap_int (bw + x)) y).
           rewrite int_add_wrap_l. f_equal. lia.
Qed.

End appending_writer.

(** A writer whose [Write] never panics always lets [fmtBytes] return. *)
Section total_writer.
Context {W : Type} `{!Writer W}.
Hypothesis Write_returns : ∀ (out : W) p, ∃ r, Write out p = Ret r.

Lemma fmtBytes_loop_returns (out : W) inp br bw :
  ∃ r, fmtBytes_loop out inp br bw = Ret r.
Proof.
  revert out br bw. induction inp as [|[chunk rerr] inp IH]; intros out br bw.
  - by eexists.
  - cbn [fmtBytes_loop]. destruct chunk as [|b chunk].
    + rewrite fmt_chunk_nil. csimpl. destruct rerr as [[]|]; eauto.
    + rewrite fmt_chunk_cons.
      destruct (Write_returns out (fmt_line (b :: chunk)))
        as [[[out1 wn] werr] ->].
      csimpl. destruct werr; csimpl; [by eexists|].
      destruct rerr as [[]|]; eauto.
Qed.

End total_writer.

Lemma ScriptWriter_returns (w : ScriptWriter) p : ∃ r, Write w p = Ret r.
Proof.
  unfold Write, ScriptWriter_Writer.
  destruct (sw_script w) as [|[n err] rest]; by eexists.
Qed.

Lemma ScriptWriter_appends (w w' : ScriptWriter) p wn werr :
  sw_script w = [] → Write w p = Ret (w', wn, werr) →
  sw_script w' = [] ∧ sw_taken w' = sw_taken w ++ p ∧ wn = len p ∧ werr = None.
Proof.
  unfold Write, ScriptWriter_Writer. intros ->. intros; by simplify_eq.
Qed.

Lemma Buffer_appends (b b' : Buffer) p wn werr :
  Write b p = Ret (b', wn, werr) →
  True ∧ buf_bytes b' = buf_bytes b ++ p ∧ wn = len p ∧ werr = None.
Proof.
  unfold Write, Buffer_Writer. case_match; intros; by simplify_eq.
Qed.

Lemma Buffer_write_room (b b' : Buffer) p wn werr :
  Write b p = Ret (b', wn, werr) →
  buf_limit b' = buf_limit b ∧ len (buf_bytes b') <= Buffer_room b.
Proof.
  unfold Write, Buffer_Writer. case_match eqn:E; intros; simplify_eq.
  apply Z.leb_le in E. done.
Qed.

(** What [fmtBytes] leaves in a writer that takes everything. *)
Lemma fmtBytes_accepting (inp : reader) (taken : bytes) :
  ∃ bytesWritten,
    fmtBytes (mkScriptWriter taken []) inp =
    Ret (mkScriptWriter (taken ++ mjoin (fmt_line <$> reader_chunks inp)) [],
         (wrap_int (len (reader_data inp)), bytesWritten, reader_err inp)).
Proof.
  destruct (fmtBytes_loop_returns ScriptWriter_returns
              (mkScriptWriter taken []) inp 0 0) as [[w' [[br bw] err]] Hrun].
  eapply (fmtBytes_loop_appends sw_taken (λ w, sw_script w = [])) in Hrun as Hfacts;
    [|by intros; eapply ScriptWriter_appends|done..].
  destruct Hfacts as (Hs & Hc & -> & -> & ->). simpl in Hc.
  destruct w' as [t s]. simpl in *. subst. eexists. exact Hrun.
Qed.

(** ** The encoder: round trip and write errors *)

(** C1.  Take any non-empty byte sequence [data] and any reader [inp] that
    delivers it (in chunks of any sizes, with reads that bring nothing in
    between, the end of the stream reported with the last bytes or after
    them).  Writing to a writer that takes every write, [fmtBytes] returns
    with [bytesRead] the length of [data] (as an [int]); reading the literals
    [0xHH] of the text it wrote, in order, gives back [data], and there are
    as many literals as bytes in [data]. *)
Theorem fmtBytes_decode_roundtrip (data : bytes) (inp : reader) :
  data ≠ [] →
  reader_data inp = data →
  ∃ text bytesWritten,
    fmtBytes (mkScriptWriter [] []) inp =
      Ret (mkScriptWriter text [],
           (wrap_int (len data), bytesWritten, reader_err inp))
    ∧ decode text = Some data
    ∧ length (tokens text) = length data.
Proof.
  intros _ <-.
  destruct (fmtBytes_accepting inp []) as [bw Hrun].
  eexists _, bw. split; [exact Hrun|]. csimpl.
  rewrite reader_data_chunks, decode_lines, tokens_lines, length_fmap. done.
Qed.

Lemma fmtBytes_decode_roundtrip_witness :
  let data := ["001"; "255"; "a"; "000"]%byte in
  let inp := [(["001"; "255"]%byte, None); ([], None);
              (["a"; "000"]%byte, Some EOF)] in
  data ≠ [] ∧ reader_data inp = data ∧
  ∃ text bytesWritten,
    fmtBytes (mkScriptWriter [] []) inp =
      Ret (mkScriptWriter text [],
           (wrap_int (len data), bytesWritten, reader_err inp))
    ∧ decode text = Some data
    ∧ length (tokens text) = length data.
Proof.
  intros data inp. split; [done|]. split; [reflexivity|].
  apply (fmtBytes_decode_roundtrip data inp); [done|reflexivity].
Defined.

(** C10.  Let the reads of [pre] bring no error and their lines be written
    without error, so that [fmtBytes] on [pre] alone returns the counts
    [br1] and [bw1].  If the next read brings the non-empty [chunk] and the
    write of its line fails, returning [wn] and the error [werr], then
    [fmtBytes] returns [werr] with [bytesRead = br1], the bytes of [pre] only
    and none of [chunk], and [bytesWritten = bw1 + wn]. *)
Theorem fmtBytes_write_error_counts {W : Type} `{!Writer W}
    (out out1 out' : W) (pre : reader) (chunk : bytes) (rerr : option error)
    (rest : reader) (br1 bw1 wn : Z) (werr : error) :
  Forall (λ rd, rd.2 = None) pre →
  fmtBytes out pre = Ret (out1, (br1, bw1, None)) →
  chunk ≠ [] →
  Write out1 (fmt_line chunk) = Ret (out', wn, Some werr) →
  fmtBytes out (pre ++ (chunk, rerr) :: rest) =
    Ret (out', (br1, int_add bw1 wn, Some werr))
  ∧ br1 = wrap_int (len (reader_data pre)).
Proof.
  intros Hpre Hrun Hchunk Hwrite. split.
  - unfold fmtBytes in *.
    rewrite (fmtBytes_loop_prefix _ _ _ _ _ _ _ _ Hpre Hrun).
    cbn [fmtBytes_loop]. destruct chunk as [|b chunk]; [done|].
    rewrite fmt_chunk_cons, Hwrite. done.
  - by apply fmtBytes_loop_bytesRead in Hrun.
Qed.

Lemma fmtBytes_write_error_counts_witness :
  let full := ErrNew "no space left on device" in
  let out := mkScriptWriter [] [(10, None); (3, Some full)] in
  let out1 := mkScriptWriter (fmt_line ["001"%byte]) [(3, Some full)] in
  let out' := mkScriptWriter (fmt_line ["001"%byte] ++ bytes_of "   ") [] in
  let pre := [(["001"%byte], None)] in
  let chunk := ["002"; "003"]%byte in
  Forall (λ rd, rd.2 = None) pre
  ∧ fmtBytes out pre = Ret (out1, (1, 10, None))
  ∧ chunk ≠ []
  ∧ Write out1 (fmt_line chunk) = Ret (out', 3, Some full)
  ∧ fmtBytes out (pre ++ (chunk, Some EOF) :: []) =
      Ret (out', (1, int_add 10 3, Some full))
  ∧ 1 = wrap_int (len (reader_data pre)).
Proof.
  intros full out out1 out' pre chunk.
  assert (Forall (λ rd : bytes * option error, rd.2 = None) pre) as H1
    by (repeat constructor).
  assert (fmtBytes out pre = Ret (out1, (1, 10, None))) as H2 by reflexivity.
  assert (chunk ≠ []) as H3 by done.
  assert (Write out1 (fmt_line chunk) = Ret (out', 3, Some full)) as H4
    by reflexivity.
  repeat (split; [assumption|]).
  exact (fmtBytes_write_error_counts out out1 out' pre chunk (Some EOF) []
           1 10 3 full H1 H2 H3 H4).
Defined.

(** ** [fmtBytes] into a [bytes.Buffer] *)

Lemma Buffer_room_max (b : Buffer) : Buffer_room b <= max_int.
Proof. unfold Buffer_room. lia. Qed.

(** A buffer never holds more than [max_int] bytes, so the count of the bytes
    read, six times smaller than the text, is exact. *)
Lemma fmtBytes_Buffer (b b' : Buffer) inp br bw err :
  fmtBytes b inp = Ret (b', (br, bw, err)) →
  len (buf_bytes b) <= max_int →
  buf_bytes b' = buf_bytes b ++ mjoin (fmt_line <$> reader_chunks inp)
  ∧ buf_limit b' = buf_limit b
  ∧ len (buf_bytes b') <= max_int
  ∧ br = len (reader_data inp)
  ∧ err = reader_err inp.
Proof.
  intros Hrun Hroom. unfold fmtBytes in Hrun.
  eapply (fmtBytes_loop_appends buf_bytes
            (λ b0, buf_limit b0 = buf_limit b ∧ len (buf_bytes b0) <= max_int))
    in Hrun as ((Hl & Hr) & Hc & -> & _ & ->); [|..|done|done|done].
  - repeat split; try done.
    apply wrap_int_id. rewrite ?Z.add_0_l.
    pose proof (len_lines (reader_chunks inp)) as Hlines.
    rewrite <- reader_data_chunks in Hlines.
    rewrite Hc, len_app in Hr.
    pose proof (len_nonneg (buf_bytes b)). pose proof (len_nonneg (reader_data inp)).
    unfold in_int, min_int, max_int in *. lia.
  - intros out p out' wn werr [Hl Hr] Hw.
    pose proof (Buffer_write_room _ _ _ _ _ Hw) as [Hl' Hr'].
    pose proof (Buffer_room_max out).
    apply Buffer_appends in Hw as (_ & ? & ? & ?).
    repeat split; try done; [congruence|lia].
Qed.

(** ** The loops of [generate] *)

Lemma len_comment_line name : 1 <= len (bytes_of (comment_line name)).
Proof.
  change (comment_line name)
    with (String "010" (cat ["    //"; " "; name; nl])).
  unfold bytes_of, list_byte_of_string, len. simpl. lia.
Qed.

Lemma process_file_ok fs st name st' :
  process_file fs st name = Ret (inr st') →
  let e := mkEntry (file_ts fs name) (offset st) (len (file_data fs name)) in
  readable fs name
  ∧ buf_bytes (databuf st') = buf_bytes (databuf st) ++ file_block fs name
  ∧ buf_limit (databuf st') = buf_limit (databuf st)
  ∧ len (buf_bytes (databuf st')) <= max_int
  ∧ offset st' = int_add (offset st) (len (file_data fs name))
  ∧ fcount st' = int_add (fcount st) 1
  ∧ filenames st' = filenames st ++ [recorded_name name]
  ∧ filemap st' = <[recorded_name name := e]> (filemap st)
  ∧ recorded st' = recorded st ++ [(recorded_name name, e)].
Proof.
  unfold process_file, readable, file_block, file_data, file_ts. intros Hrun.
  destruct (Write (databuf st) (bytes_of (comment_line name)))
    as [[[databuf1 wn] werr]|] eqn:Ew; [|done].
  csimpl in Hrun.
  pose proof (Buffer_write_room _ _ _ _ _ Ew) as [Hl1 Hr1].
  pose proof (Buffer_room_max (databuf st)).
  apply Buffer_appends in Ew as (_ & Hc1 & _ & _).
  destruct (fs_open fs name) as [err|f]; [done|].
  destruct (fmtBytes databuf1 (f_reader f)) as [[databuf2 [[br bw] err]]|] eqn:Ef;
    [|done].
  csimpl in Hrun.
  apply fmtBytes_Buffer in Ef as (Hc2 & Hl2 & Hr2 & -> & ->); [|lia].
  destruct (reader_err (f_reader f)) eqn:Eerr; [done|].
  simplify_eq. simpl. repeat split; try done.
  - by eexists.
  - rewrite Hc2, Hc1. by rewrite <- app_assoc.
  - congruence.
Qed.

(** *** Entries that lie one after the other *)

Lemma contiguous_le start es stop : contiguous start es stop → start <= stop.
Proof.
  revert start. induction es as [|e es IH]; simpl; intros start.
  - lia.
  - intros (_ & ? & Hes). apply IH in Hes. lia.
Qed.

Lemma contiguous_snoc start es stop e :
  contiguous start es stop → entry_offset e = stop → 0 <= entry_size e →
  contiguous start (es ++ [e]) (stop + entry_size e).
Proof.
  revert start. induction es as [|e' es IH]; simpl; intros start.
  - intros <- ? ?. done.
  - intros (? & ? & Hes) ? ?. repeat split; try done. by apply IH.
Qed.

Lemma contiguous_sum start es stop :
  contiguous start es stop → stop = start + sum_sizes es.
Proof.
  revert start. induction es as [|e es IH]; simpl; intros start.
  - lia.
  - intros (_ & _ & Hes). apply IH in Hes. lia.
Qed.

Lemma contiguous_first start es stop e :
  contiguous start es stop → es !! 0%nat = Some e → entry_offset e = start.
Proof. destruct es; simpl; [done|]. intros (? & _) ?. by simplify_eq. Qed.

Lemma contiguous_next start es stop i e e' :
  contiguous start es stop →
  es !! i = Some e → es !! S i = Some e' →
  entry_offset e + entry_size e = entry_offset e'.
Proof.
  revert start i. induction es as [|e0 es IH]; intros start i; [done|].
  simpl. intros (Ho & _ & Hes) Hi Hi'. destruct i as [|i].
  - simpl in *. simplify_eq. symmetry. by eapply contiguous_first.
  - simpl in Hi. apply (IH _ i Hes Hi Hi').
Qed.

Lemma contiguous_within start es stop e :
  contiguous start es stop → e ∈ es →
  start <= entry_offset e ∧ 0 <= entry_size e
  ∧ entry_offset e + entry_size e <= stop.
Proof.
  revert start. induction es as [|e0 es IH]; intros start; [by intros _ ?%elem_of_nil|].
  simpl. intros (Ho & Hs & Hes) [->|Hin]%elem_of_cons.
  - apply contiguous_le in Hes. lia.
  - apply (IH _ Hes) in Hin. lia.
Qed.

(** *** The state after each file *)

Lemma len_file_block fs name :
  1 + 6 * len (file_data fs name) <= len (file_block fs name).
Proof.
  unfold file_block, file_data. rewrite len_app.
  pose proof (len_comment_line name).
  destruct (fs_open fs name) as [?|f].
  - rewrite !(@len_nil byte). lia.
  - pose proof (len_lines (reader_chunks (f_reader f))).
    rewrite <- reader_data_chunks in *. lia.
Qed.

Lemma reached_init fs rt : reached fs [] (init_state rt).
Proof.
  split; simpl; done.
Qed.

Lemma offset_max fs names st : reached fs names st → 0 <= offset st <= max_int.
Proof.
  intros Hst. destruct (reached_room _ _ _ Hst) as [Hroom Hmax].
  pose proof (contiguous_le _ _ _ (reached_contiguous _ _ _ Hst)).
  pose proof (reached_fcount _ _ _ Hst). pose proof (len_nonneg names). lia.
Qed.

Lemma reached_file fs names st name st' :
  reached fs names st →
  process_file fs st name = Ret (inr st') →
  reached fs (names ++ [name]) st'.
Proof.
  intros [Hrec Hcont Hnames Hmap Hcount Hbuf [Hroom Hmax]] Hrun.
  apply process_file_ok in Hrun
    as (Hread & Hb & Hl & Hmax' & Ho & Hc & Hn & Hm & Hr).
  pose proof (len_file_block fs name) as Hblock.
  pose proof (len_nonneg (file_data fs name)) as Hdata.
  pose proof (len_nonneg names) as Hnn.
  pose proof (contiguous_le _ _ _ Hcont) as Hoff.
  assert (len (buf_bytes (databuf st')) =
          len (buf_bytes (databuf st)) + len (file_block fs name)) as Hlen
    by (by rewrite Hb, len_app).
  rewrite int_add_exact in Ho
    by (unfold in_int, min_int, max_int in *; lia).
  rewrite int_add_exact in Hc
    by (unfold in_int, min_int, max_int in *; lia).
  split.
  - rewrite Hr. apply Forall2_app; [done|]. by repeat constructor.
  - rewrite Hr, Ho, fmap_app. by apply contiguous_snoc.
  - rewrite Hr, Hn, fmap_app. by rewrite Hnames.
  - rewrite Hr, Hm, reverse_snoc, Hmap. done.
  - rewrite Hc, Hcount, len_app. done.
  - rewrite Hb, Hbuf, fmap_app, join_app. csimpl. by rewrite app_nil_r.
  - split; [lia|done].
Qed.

Lemma reached_names fs pre st names st' :
  reached fs pre st →
  process_names fs st names = Ret (inr st') →
  reached fs (pre ++ names) st'.
Proof.
  revert pre st. induction names as [|name names IH]; intros pre st Hst Hrun.
  - simpl in Hrun. simplify_eq. by rewrite app_nil_r.
  - simpl in Hrun.
    destruct (process_file fs st name) as [[err|st1]|] eqn:Efile; [done| |done].
    csimpl in Hrun. rewrite cons_middle, app_assoc.
    apply (IH _ st1); [|done]. by eapply reached_file.
Qed.

Lemma resolve_nil fs : resolve fs [] = Some [].
Proof. done. Qed.

Lemma resolve_cons fs pattern globs :
  resolve fs (pattern :: globs) =
  names ← fs_glob fs pattern; rest ← resolve fs globs; Some (names ++ rest).
Proof.
  unfold resolve. csimpl. destruct (fs_glob fs pattern) as [names|]; [|done].
  csimpl. by destruct (mapM (fs_glob fs) globs).
Qed.

Lemma reached_globs fs pre st globs st' :
  reached fs pre st →
  process_globs fs st globs = Ret (inr st') →
  ∃ names, resolve fs globs = Some names
           ∧ process_names fs st names = Ret (inr st')
           ∧ reached fs (pre ++ names) st'.
Proof.
  revert pre st. induction globs as [|pattern globs IH]; intros pre st Hst Hrun.
  - simpl in Hrun. simplify_eq. exists []. by rewrite app_nil_r.
  - simpl in Hrun. rewrite resolve_cons.
    destruct (fs_glob fs pattern) as [names|]; [|done].
    destruct (process_names fs st names) as [[err|st1]|] eqn:Enames; [done| |done].
    csimpl in Hrun.
    pose proof (reached_names _ _ _ _ _ Hst Enames) as Hst1.
    destruct (IH _ _ Hst1 Hrun) as (rest & -> & Hrest & Hst').
    exists (names ++ rest). csimpl. rewrite app_assoc. split; [done|].
    split; [|done].
    clear -Enames Hrest. revert st Enames.
    induction names as [|name names IHn]; intros st Enames.
    + simpl in Enames. by simplify_eq.
    + simpl in *. destruct (process_file fs st name) as [[?|st2]|]; [done| |done].
      csimpl in *. by apply IHn.
Qed.

(** What a run of [generate] that returns no error went through. *)
Lemma generate_ok rt fs incHTTP pkg prefix globs ops :
  generate rt fs incHTTP pkg prefix globs = Ret (ops, None) →
  ∃ names st,
    resolve fs globs = Some names
    ∧ names ≠ []
    ∧ process_globs fs (init_state rt) globs = Ret (inr st)
    ∧ reached fs names st
    ∧ ops = render rt incHTTP pkg prefix st.
Proof.
  unfold generate. intros Hrun.
  destruct (process_globs fs (init_state rt) globs) as [[err|st]|] eqn:Eglobs;
    [done| |done].
  csimpl in Hrun.
  destruct (reached_globs fs [] _ _ _ (reached_init fs rt) Eglobs)
    as (names & Hres & _ & Hst).
  simpl in Hst. destruct (fcount st =? 0) eqn:Ecount; [done|].
  simplify_eq. exists names, st. split_and!; try done.
  intros ->. apply Z.eqb_neq in Ecount. by destruct Hst.
Qed.

(** ** The map and the history of its assignments *)

Lemma lookup_last_assignment (l1 l2 : list (string * entry)) n e :
  n ∉ l2.*1 →
  (list_to_map (reverse (l1 ++ (n, e) :: l2)) : gmap string entry) !! n = Some e.
Proof.
  intros Hn. rewrite reverse_app, reverse_cons, <- app_assoc, list_to_map_app.
  rewrite lookup_union_r.
  - simpl. apply lookup_insert_eq.
  - apply not_elem_of_list_to_map. by rewrite fmap_reverse, elem_of_reverse.
Qed.

Lemma lookup_recorded fs names st n e :
  reached fs names st → filemap st !! n = Some e → (n, e) ∈ recorded st.
Proof.
  intros Hst Hn. rewrite (reached_filemap _ _ _ Hst) in Hn.
  apply elem_of_list_to_map_2 in Hn. by rewrite elem_of_reverse in Hn.
Qed.

Lemma lookup_filenames fs names st n :
  reached fs names st → n ∈ filenames st → is_Some (filemap st !! n).
Proof.
  intros Hst Hn. rewrite (reached_filenames _ _ _ Hst) in Hn.
  rewrite (reached_filemap _ _ _ Hst).
  destruct (list_to_map (reverse (recorded st)) !! n) eqn:E; [by eexists|].
  apply not_elem_of_list_to_map in E.
  by rewrite fmap_reverse, elem_of_reverse in E.
Qed.

Lemma Forall2_fst_fmap {A} (f : A → string) (Q : A → string * entry → Prop)
    (l : list A) (k : list (string * entry)) :
  Forall2 (λ p ne, ne.1 = f p ∧ Q p ne) l k → k.*1 = f <$> l.
Proof.
  induction 1 as [|p ne ps nes [Hn _] _ IH]; csimpl; [done|].
  by rewrite Hn, IH.
Qed.

Lemma recorded_names fs names st :
  reached fs names st → (recorded st).*1 = recorded_name <$> names.
Proof. intros Hst. apply (Forall2_fst_fmap _ _ _ _ (reached_recorded _ _ _ Hst)). Qed.

Lemma occurrences_cons (x y : string) l :
  occurrences x (y :: l) =
  ((if decide (y = x) then 1 else 0) + occurrences x l)%nat.
Proof. unfold occurrences. rewrite filter_cons. by case_decide. Qed.

Lemma occurrences_app (x : string) l k :
  occurrences x (l ++ k) = (occurrences x l + occurrences x k)%nat.
Proof. unfold occurrences. by rewrite filter_app, length_app. Qed.

Lemma occurrences_not_elem_of (x : string) l : x ∉ l → occurrences x l = 0%nat.
Proof.
  induction l as [|y l IH]; [done|].
  rewrite not_elem_of_cons, occurrences_cons. intros [? ?].
  rewrite decide_False by done. by rewrite IH.
Qed.

Lemma occurrences_NoDup (x : string) l :
  NoDup l → x ∈ l → occurrences x l = 1%nat.
Proof.
  induction 1 as [|y l Hy Hl IH]; [by intros ?%elem_of_nil|].
  rewrite occurrences_cons. intros [->|Hx]%elem_of_cons.
  - rewrite decide_True by done. by rewrite occurrences_not_elem_of.
  - rewrite decide_False by (by intros ->). by rewrite IH.
Qed.

Lemma occurrences_Permutation (x : string) l k :
  l ≡ₚ k → occurrences x l = occurrences x k.
Proof. unfold occurrences. by intros ->. Qed.

Lemma occurrences_keys (m : gmap string entry) n e :
  m !! n = Some e → occurrences n (map_to_list m).*1 = 1%nat.
Proof.
  intros Hn. apply occurrences_NoDup; [apply NoDup_fst_map_to_list|].
  apply list_elem_of_fmap. exists (n, e). split; [done|].
  by apply elem_of_map_to_list.
Qed.

(** ** The order of [sort.Strings]

    [String.le] compares two strings byte by byte, by the values of the
    bytes. *)

Lemma String_le_nil s : String.le EmptyString s.
Proof. by destruct s. Qed.

Lemma String_le_cons_nil a s : ¬ String.le (String a s) EmptyString.
Proof. by intros ?. Qed.

Lemma String_le_cons a s b t :
  String.le (String a s) (String b t) ↔
  (N_of_ascii a < N_of_ascii b)%N ∨ (a = b ∧ String.le s t).
Proof.
  unfold String.le, String.leb. simpl. unfold Ascii.compare.
  destruct (N.compare_spec (N_of_ascii a) (N_of_ascii b)) as [Heq|Hlt|Hgt].
  - apply (f_equal ascii_of_N) in Heq. rewrite !ascii_N_embedding in Heq.
    subst b. split; [by right|].
    intros [?|[_ ?]]; [lia|done].
  - split; [by left|done].
  - split; [done|]. intros [?|[-> _]]; lia.
Qed.

Lemma sort_Strings_sorted l : StronglySorted String.le (sort_Strings l).
Proof. apply StronglySorted_merge_sort; apply _. Qed.

Lemma sort_Strings_Permutation l : sort_Strings l ≡ₚ l.
Proof. apply merge_sort_Permutation. Qed.

(** ** The leading separator *)

Lemma TrimPrefix_slash n : TrimPrefix ("/" +:+ n) "/" = n.
Proof.
  unfold TrimPrefix, HasPrefix. simpl.
  destruct (ascii_dec "/" "/") as [_|Hne]; [|done]. by destruct n.
Qed.

Lemma TrimPrefix_relative n : HasPrefix n "/" = false → TrimPrefix n "/" = n.
Proof. unfold TrimPrefix. by intros ->. Qed.

Lemma HasPrefix_slash n :
  HasPrefix n "/" = true → n = "/" +:+ TrimPrefix n "/".
Proof.
  unfold TrimPrefix. intros Hn. rewrite Hn. revert Hn.
  unfold HasPrefix. destruct n as [|a n]; [done|].
  change (String.prefix "/" (String a n))
    with (if ascii_dec "/" a then String.prefix EmptyString n else false).
  destruct (ascii_dec "/" a) as [<-|]; done.
Qed.

(** One separator is stripped, so a recorded name starts with a separator
    only when the path starts with two. *)
Lemma recorded_name_relative path :
  HasPrefix path "//" = false → HasPrefix (recorded_name path) "/" = false.
Proof.
  unfold recorded_name. intros Hpath.
  destruct (HasPrefix path "/") eqn:Hone.
  - rewrite (HasPrefix_slash _ Hone) in Hpath. revert Hpath.
    generalize (TrimPrefix path "/"). intros q. unfold HasPrefix. simpl.
    by destruct (ascii_dec "/" "/").
  - by rewrite TrimPrefix_relative.
Qed.

Example recorded_name_two_separators : recorded_name "//a.txt" = "/a.txt".
Proof. reflexivity. Qed.

(** ** [Open] in the generated code *)

Lemma Open_found base (fs : Generated.T) path e :
  Generated.files fs !! recorded_name path = Some e →
  0 <= entry_offset e → 0 <= entry_size e →
  entry_offset e + entry_size e <= len (Generated.data fs) →
  len (Generated.data fs) <= max_int →
  Generated.Open base fs path =
    Ret (inr (Generated.mkFile
                (take (Z.to_nat (entry_size e))
                      (drop (Z.to_nat (entry_offset e)) (Generated.data fs)))
                (Generated.mkFI (base (recorded_name path)) (entry_size e)
                                Generated.ModePerm (entry_ts e)))).
Proof.
  intros He Ho Hs Hin Hmax. unfold Generated.Open, recorded_name in *.
  rewrite He. rewrite int_add_exact
    by (unfold in_int, min_int, max_int in *; lia).
  unfold Generated.slice.
  replace ((0 <=? entry_offset e)
           && (entry_offset e <=? entry_offset e + entry_size e)
           && (entry_offset e + entry_size e <=? len (Generated.data fs)))
    with true by (symmetry; rewrite !andb_true_iff, !Z.leb_le; lia).
  csimpl. do 4 f_equal. lia.
Qed.

Lemma Open_leading_slash base (fs : Generated.T) n :
  HasPrefix n "/" = false →
  Generated.Open base fs ("/" +:+ n) = Generated.Open base fs n.
Proof.
  intros Hn. unfold Generated.Open.
  by rewrite TrimPrefix_slash, TrimPrefix_relative.
Qed.

(** ** The manifest *)

(** C2.  When [generate] returns without error, the entries it assigned to
    [filemap], taken in the order of the assignments (the order in which the
    files were processed), lie one after the other: the first is at offset 0,
    each next one starts where the one before ends, no size is negative, and
    the sizes add up to [offset], the number that [generate] prints as
    [DataSize] in the template and as the length of the array [data].  The
    history [recorded] is tied to the run: it has one entry for each path
    that the patterns gave, in order, with the size of the file; its names
    are [filenames] before the sort; and [filemap] is what its assignments
    leave.  The sums are those of the integers: nothing wraps around. *)
Theorem manifest_offsets_contiguous rt fs incHTTP pkg prefix globs ops :
  generate rt fs incHTTP pkg prefix globs = Ret (ops, None) →
  ∃ names st,
    resolve fs globs = Some names
    ∧ process_globs fs (init_state rt) globs = Ret (inr st)
    ∧ ops = render rt incHTTP pkg prefix st
    ∧ Forall2 (λ path ne,
                 ne.1 = recorded_name path
                 ∧ entry_size ne.2 = len (file_data fs path)
                 ∧ entry_ts ne.2 = file_ts fs path
                 ∧ readable fs path)
              names (recorded st)
    ∧ (recorded st).*1 = filenames st
    ∧ filemap st = list_to_map (reverse (recorded st))
    ∧ (∀ e, (recorded st).*2 !! 0%nat = Some e → entry_offset e = 0)
    ∧ (∀ i e e', (recorded st).*2 !! i = Some e →
                 (recorded st).*2 !! S i = Some e' →
                 entry_offset e + entry_size e = entry_offset e')
    ∧ (∀ e, e ∈ (recorded st).*2 → 0 <= entry_size e)
    ∧ sum_sizes (recorded st).*2 = offset st
    ∧ Wr (cat ["    data: ["; itoa (sum_sizes (recorded st).*2); "]byte{"; nl])
        ∈ ops.
Proof.
  intros (names & st & Hres & _ & Hrun & Hst & ->)%generate_ok.
  pose proof (reached_contiguous _ _ _ Hst) as Hcont.
  pose proof (contiguous_sum _ _ _ Hcont) as Hsum. rewrite Z.add_0_l in Hsum.
  exists names, st. split_and!; try done.
  - by apply reached_recorded.
  - by rewrite (reached_filenames _ _ _ Hst).
  - by apply reached_filemap with fs names.
  - intros e. by apply (contiguous_first _ _ _ _ Hcont).
  - intros i e e'. by apply (contiguous_next _ _ _ _ _ _ Hcont).
  - intros e He. apply (contiguous_within _ _ _ _ Hcont) in He. lia.
  - rewrite <- Hsum. unfold render, render_closing.
    rewrite elem_of_cons, !elem_of_app. right. right. right. left.
    apply elem_of_cons. right. apply list_elem_of_singleton. done.
Qed.

Lemma manifest_offsets_contiguous_witness :
  let ops := ops_of Example.run_twice in
  Example.run_twice = Ret (ops, None) ∧
  ∃ names st,
    resolve Example.fs ["a.txt"; "*.txt"] = Some names
    ∧ process_globs Example.fs (init_state Example.rt) ["a.txt"; "*.txt"]
      = Ret (inr st)
    ∧ ops = render Example.rt false "main" "assets" st
    ∧ Forall2 (λ path ne,
                 ne.1 = recorded_name path
                 ∧ entry_size ne.2 = len (file_data Example.fs path)
                 ∧ entry_ts ne.2 = file_ts Example.fs path
                 ∧ readable Example.fs path)
              names (recorded st)
    ∧ (recorded st).*1 = filenames st
    ∧ filemap st = list_to_map (reverse (recorded st))
    ∧ (∀ e, (recorded st).*2 !! 0%nat = Some e → entry_offset e = 0)
    ∧ (∀ i e e', (recorded st).*2 !! i = Some e →
                 (recorded st).*2 !! S i = Some e' →
                 entry_offset e + entry_size e = entry_offset e')
    ∧ (∀ e, e ∈ (recorded st).*2 → 0 <= entry_size e)
    ∧ sum_sizes (recorded st).*2 = offset st
    ∧ Wr (cat ["    data: ["; itoa (sum_sizes (recorded st).*2); "]byte{"; nl])
        ∈ ops.
Proof.
  intros ops.
  assert (Example.run_twice = Ret (ops, None)) as Hrun by (vm_compute; reflexivity).
  split; [exact Hrun|].
  exact (manifest_offsets_contiguous Example.rt Example.fs false "main" "assets"
           ["a.txt"; "*.txt"] ops Hrun).
Defined.

Lemma contiguous_app start es1 es2 stop :
  contiguous start (es1 ++ es2) stop →
  contiguous start es1 (start + sum_sizes es1)
  ∧ contiguous (start + sum_sizes es1) es2 stop.
Proof.
  revert start. induction es1 as [|e es1 IH]; simpl; intros start.
  - rewrite Z.add_0_r. done.
  - intros (Ho & Hs & Hes). apply IH in Hes as [H1 H2].
    rewrite Z.add_assoc. done.
Qed.

Lemma sum_sizes_recorded fs ps (r : list (string * entry)) :
  Forall2 (λ path ne,
             ne.1 = recorded_name path
             ∧ entry_size ne.2 = len (file_data fs path)
             ∧ entry_ts ne.2 = file_ts fs path
             ∧ readable fs path) ps r →
  sum_sizes r.*2 = total_size fs ps.
Proof.
  induction 1 as [|p ne ps r (_ & Hsize & _) _ IH]; csimpl; [done|].
  by rewrite Hsize, IH.
Qed.

Lemma total_size_nonneg fs ps : 0 <= total_size fs ps.
Proof.
  induction ps as [|p ps IH]; simpl; [done|].
  pose proof (len_nonneg (file_data fs p)). lia.
Qed.

Lemma total_size_app fs ps qs :
  total_size fs (ps ++ qs) = total_size fs ps + total_size fs qs.
Proof. induction ps as [|p ps IH]; simpl; lia. Qed.

(** The entry assigned for the path at each place of the list. *)
Lemma recorded_at fs names st ps1 p ps2 :
  reached fs names st →
  names = ps1 ++ p :: ps2 →
  ∃ r1 r2,
    recorded st =
      r1 ++ (recorded_name p,
             mkEntry (file_ts fs p) (total_size fs ps1) (len (file_data fs p)))
         :: r2
    ∧ r1.*1 = recorded_name <$> ps1
    ∧ r2.*1 = recorded_name <$> ps2.
Proof.
  intros Hst ->.
  pose proof (reached_recorded _ _ _ Hst) as Hrec.
  apply Forall2_app_inv_l in Hrec as (r1 & r' & Hr1 & Hr' & Heq).
  apply Forall2_cons_inv_l in Hr' as ([n e] & r2 & (Hn & Hsize & Hts & _) & Hr2 & ->).
  simpl in *. subst n.
  pose proof (reached_contiguous _ _ _ Hst) as Hcont.
  rewrite Heq, fmap_app in Hcont. apply contiguous_app in Hcont as [_ Hcont].
  csimpl in Hcont. destruct Hcont as (Ho & _ & _).
  rewrite (sum_sizes_recorded _ _ _ Hr1), Z.add_0_l in Ho.
  exists r1, r2. split_and!.
  - rewrite Heq. do 2 f_equal. destruct e; simpl in *. by subst.
  - by apply Forall2_fst_fmap in Hr1.
  - by apply Forall2_fst_fmap in Hr2.
Qed.

(** C3.  Let [generate] return without error, and let [names] be the paths
    that the patterns gave, in order.  Take any place of [names] whose path
    [p] is the last one recorded under its name (the name occurs once, or
    twice, or more often before that place).  Then [filemap] has, under that
    name, the entry of this last occurrence: its size is the size of the file
    at [p] and its offset is the number of bytes of all the files processed
    before, the earlier occurrences of the same name among them; the keys of
    [filemap] hold the name exactly once; [Open] in the generated program
    reaches that entry from [p]; and [databuf] holds, for every occurrence in
    [names], the comment and the encoded bytes of the file. *)
Theorem duplicate_name_last_wins rt fs incHTTP pkg prefix globs ops :
  generate rt fs incHTTP pkg prefix globs = Ret (ops, None) →
  ∃ names st,
    resolve fs globs = Some names
    ∧ process_globs fs (init_state rt) globs = Ret (inr st)
    ∧ ops = render rt incHTTP pkg prefix st
    ∧ (∀ ps1 p ps2,
         names = ps1 ++ p :: ps2 →
         recorded_name p ∉ recorded_name <$> ps2 →
         filemap st !! recorded_name p =
           Some (mkEntry (file_ts fs p) (total_size fs ps1)
                         (len (file_data fs p)))
         ∧ occurrences (recorded_name p) (map_to_list (filemap st)).*1 = 1%nat
         ∧ ∀ base data,
             len data = offset st →
             Generated.Open base
               (Generated.mkT (sort_Strings (filenames st)) (filemap st) data) p
             = Ret (inr (Generated.mkFile
                           (take (Z.to_nat (len (file_data fs p)))
                                 (drop (Z.to_nat (total_size fs ps1)) data))
                           (Generated.mkFI (base (recorded_name p))
                                           (len (file_data fs p))
                                           Generated.ModePerm (file_ts fs p)))))
    ∧ buf_bytes (databuf st) = mjoin (file_block fs <$> names)
    ∧ offset st = total_size fs names.
Proof.
  intros (names & st & Hres & _ & Hrun & Hst & ->)%generate_ok.
  assert (offset st = total_size fs names) as Hoffset.
  { pose proof (contiguous_sum _ _ _ (reached_contiguous _ _ _ Hst)) as Hsum.
    by rewrite (sum_sizes_recorded _ _ _ (reached_recorded _ _ _ Hst)) in Hsum. }
  exists names, st. split_and!; try done.
  - intros ps1 p ps2 Hnames Hlast.
    destruct (recorded_at _ _ _ _ _ _ Hst Hnames) as (r1 & r2 & Hrec & _ & Hr2).
    assert (filemap st !! recorded_name p =
            Some (mkEntry (file_ts fs p) (total_size fs ps1)
                          (len (file_data fs p)))) as Hlook.
    { rewrite (reached_filemap _ _ _ Hst), Hrec.
      apply lookup_last_assignment. by rewrite Hr2. }
    split; [done|]. split; [by eapply occurrences_keys|].
    intros base data Hdata.
    pose proof (offset_max _ _ _ Hst) as Hmax. rewrite <- Hdata in Hmax.
    pose proof (total_size_nonneg fs ps1). pose proof (total_size_nonneg fs ps2).
    pose proof (len_nonneg (file_data fs p)).
    rewrite (Open_found base
               (Generated.mkT (sort_Strings (filenames st)) (filemap st) data)
               p _ Hlook); simpl; try lia; [done|].
    rewrite Hdata, Hoffset, Hnames, total_size_app. simpl. lia.
  - by apply reached_databuf.
Qed.

Lemma duplicate_name_last_wins_witness :
  let ops := ops_of Example.run_twice in
  Example.run_twice = Ret (ops, None) ∧
  ∃ names st,
    resolve Example.fs ["a.txt"; "*.txt"] = Some names
    ∧ process_globs Example.fs (init_state Example.rt)
        ["a.txt"; "*.txt"] = Ret (inr st)
    ∧ ops = render Example.rt false "main" "assets" st
    ∧ (∀ ps1 p ps2,
         names = ps1 ++ p :: ps2 →
         recorded_name p ∉ recorded_name <$> ps2 →
         filemap st !! recorded_name p =
           Some (mkEntry (file_ts Example.fs p) (total_size Example.fs ps1)
                         (len (file_data Example.fs p)))
         ∧ occurrences (recorded_name p) (map_to_list (filemap st)).*1 = 1%nat
         ∧ ∀ base data,
             len data = offset st →
             Generated.Open base
               (Generated.mkT (sort_Strings (filenames st)) (filemap st) data) p
             = Ret (inr (Generated.mkFile
                           (take (Z.to_nat (len (file_data Example.fs p)))
                                 (drop (Z.to_nat (total_size Example.fs ps1)) data))
                           (Generated.mkFI (base (recorded_name p))
                                           (len (file_data Example.fs p))
                                           Generated.ModePerm
                                           (file_ts Example.fs p)))))
    ∧ buf_bytes (databuf st) = mjoin (file_block Example.fs <$> names)
    ∧ offset st = total_size Example.fs names.
Proof.
  intros ops.
  assert (Example.run_twice = Ret (ops, None)) as Hrun by (vm_compute; reflexivity).
  split; [exact Hrun|].
  exact (duplicate_name_last_wins Example.rt Example.fs false "main" "assets"
           ["a.txt"; "*.txt"] ops Hrun).
Defined.

(** In that run [a.txt] is read twice and its entry is the second one, at
    offset 3. *)
Example run_twice_a_txt :
  ∃ st,
    process_globs Example.fs (init_state Example.rt)
      ["a.txt"; "*.txt"] = Ret (inr st)
    ∧ filenames st = ["a.txt"; "a.txt"; "b.txt"]
    ∧ filemap st !! "a.txt" = Some (mkEntry 1700000000 3 3)
    ∧ filemap st !! "b.txt" = Some (mkEntry 0 6 0)
    ∧ offset st = 6.
Proof. eexists. split; [vm_compute; reflexivity|]. by vm_compute. Qed.

(** ** The list of file names *)

Lemma filenames_line_written rt incHTTP pkg prefix st :
  Wr (cat ["    filenames: ";
           gosyntax_strings rt (sort_Strings (filenames st)); ","; nl])
    ∈ render rt incHTTP pkg prefix st.
Proof.
  unfold render, render_opening. rewrite elem_of_cons, elem_of_app.
  right. left. rewrite !elem_of_cons. right. by left.
Qed.

(** C5.  When [generate] returns without error, the list of names that it
    writes after [filenames:] is [filenames] sorted: every name in it is at
    most every later one in the order that compares strings byte by byte, and
    it has the names recorded for the paths, each as often as recorded.
    Every name of the list is a key of [filemap]; and in the generated
    program, whose array [data] has [DataSize] elements, [Open] finds a file
    for every path that was processed. *)
Theorem filenames_sorted_lookup_succeeds rt fs incHTTP pkg prefix globs ops :
  generate rt fs incHTTP pkg prefix globs = Ret (ops, None) →
  ∃ names st,
    resolve fs globs = Some names
    ∧ process_globs fs (init_state rt) globs = Ret (inr st)
    ∧ ops = render rt incHTTP pkg prefix st
    ∧ Wr (cat ["    filenames: ";
               gosyntax_strings rt (sort_Strings (filenames st)); ","; nl])
        ∈ ops
    ∧ StronglySorted String.le (sort_Strings (filenames st))
    ∧ sort_Strings (filenames st) ≡ₚ recorded_name <$> names
    ∧ (∀ name, name ∈ sort_Strings (filenames st) →
               is_Some (filemap st !! name))
    ∧ (∀ path base data,
         path ∈ names → len data = offset st →
         ∃ file,
           Generated.Open base
             (Generated.mkT (sort_Strings (filenames st)) (filemap st) data)
             path = Ret (inr file)).
Proof.
  intros (names & st & Hres & _ & Hrun & Hst & ->)%generate_ok.
  exists names, st. split_and!; try done.
  - apply filenames_line_written.
  - apply sort_Strings_sorted.
  - rewrite sort_Strings_Permutation, (reached_filenames _ _ _ Hst).
    by rewrite (recorded_names _ _ _ Hst).
  - intros name Hname. rewrite sort_Strings_Permutation in Hname.
    by eapply lookup_filenames.
  - intros path base data Hpath Hdata.
    assert (recorded_name path ∈ filenames st) as Hname.
    { rewrite (reached_filenames _ _ _ Hst), (recorded_names _ _ _ Hst).
      by apply list_elem_of_fmap_2. }
    destruct (lookup_filenames _ _ _ _ Hst Hname) as [e He].
    pose proof (lookup_recorded _ _ _ _ _ Hst He) as Hin.
    apply (list_elem_of_fmap_2 snd) in Hin. simpl in Hin.
    apply (contiguous_within _ _ _ _ (reached_contiguous _ _ _ Hst)) in Hin.
    pose proof (offset_max _ _ _ Hst).
    eexists. apply Open_found with (e := e); simpl; try lia. done.
Qed.

Lemma filenames_sorted_lookup_succeeds_witness :
  let ops := ops_of Example.run in
  Example.run = Ret (ops, None) ∧
  ∃ names st,
    resolve Example.fs ["a.txt"; "b.txt"] = Some names
    ∧ process_globs Example.fs (init_state Example.rt) ["a.txt"; "b.txt"]
        = Ret (inr st)
    ∧ ops = render Example.rt false "main" "assets" st
    ∧ Wr (cat ["    filenames: ";
               gosyntax_strings Example.rt (sort_Strings (filenames st)); ",";
               nl])
        ∈ ops
    ∧ StronglySorted String.le (sort_Strings (filenames st))
    ∧ sort_Strings (filenames st) ≡ₚ recorded_name <$> names
    ∧ (∀ name, name ∈ sort_Strings (filenames st) →
               is_Some (filemap st !! name))
    ∧ (∀ path base data,
         path ∈ names → len data = offset st →
         ∃ file,
           Generated.Open base
             (Generated.mkT (sort_Strings (filenames st)) (filemap st) data)
             path = Ret (inr file)).
Proof.
  intros ops.
  assert (Example.run = Ret (ops, None)) as Hrun by (vm_compute; reflexivity).
  split; [exact Hrun|].
  exact (filenames_sorted_lookup_succeeds Example.rt Example.fs false "main"
           "assets" ["a.txt"; "b.txt"] ops Hrun).
Defined.

(** For an entry under a name without leading separator, in any value of
    the generated type, [Open] on the name with a separator put before it
    does what [Open] on the name does. *)
Lemma Open_relative_name base (fs : Generated.T) (n : string) (e : entry) :
  Generated.files fs !! n = Some e →
  HasPrefix n "/" = false →
  Generated.Open base fs ("/" +:+ n) = Generated.Open base fs n
  ∧ Generated.Open base fs n =
      (b ← Generated.slice (Generated.data fs) (entry_offset e)
             (int_add (entry_offset e) (entry_size e));
       Ret (inr (Generated.mkFile b
                   (Generated.mkFI (base n) (entry_size e)
                                   Generated.ModePerm (entry_ts e))))).
Proof.
  intros He Hn. split; [by apply Open_leading_slash|].
  unfold Generated.Open. rewrite TrimPrefix_relative by done. by rewrite He.
Qed.

(** C8, as the code has it.  [generate] strips one separator from a path and
    [Open] strips one from the name it is asked for.  So in the program
    generated by a run without error, for every path that was processed, with
    [n] the name recorded for it: [Open] on ["/" + n] looks up [n] and
    returns the file made from the entry that [filemap] holds under [n]; and
    when the path does not begin with two separators, [n] has no leading
    separator and [Open] on [n] returns that same file.  (For a path that
    begins with two separators [n] begins with one, and [Open] on [n] looks
    up another name.) *)
Theorem Open_leading_separator rt fs incHTTP pkg prefix globs ops :
  generate rt fs incHTTP pkg prefix globs = Ret (ops, None) →
  ∃ names st,
    resolve fs globs = Some names
    ∧ process_globs fs (init_state rt) globs = Ret (inr st)
    ∧ ops = render rt incHTTP pkg prefix st
    ∧ ∀ path base data,
        path ∈ names → len data = offset st →
        ∃ e,
          filemap st !! recorded_name path = Some e
          ∧ Generated.Open base (embedded st data) ("/" +:+ recorded_name path)
            = Ret (inr (Generated.mkFile
                          (take (Z.to_nat (entry_size e))
                                (drop (Z.to_nat (entry_offset e)) data))
                          (Generated.mkFI (base (recorded_name path))
                                          (entry_size e)
                                          Generated.ModePerm (entry_ts e))))
          ∧ (HasPrefix path "//" = false →
             HasPrefix (recorded_name path) "/" = false
             ∧ Generated.Open base (embedded st data) (recorded_name path)
               = Generated.Open base (embedded st data)
                   ("/" +:+ recorded_name path)).
Proof.
  intros (names & st & Hres & _ & Hrun & Hst & ->)%generate_ok.
  exists names, st. split_and!; try done.
  intros path base data Hpath Hdata.
  assert (recorded_name path ∈ filenames st) as Hname.
  { rewrite (reached_filenames _ _ _ Hst), (recorded_names _ _ _ Hst).
    by apply list_elem_of_fmap_2. }
  destruct (lookup_filenames _ _ _ _ Hst Hname) as [e He].
  pose proof (lookup_recorded _ _ _ _ _ Hst He) as Hin.
  apply (list_elem_of_fmap_2 snd) in Hin. simpl in Hin.
  apply (contiguous_within _ _ _ _ (reached_contiguous _ _ _ Hst)) in Hin.
  pose proof (offset_max _ _ _ Hst).
  assert (recorded_name ("/" +:+ recorded_name path) = recorded_name path)
    as Hstrip by apply TrimPrefix_slash.
  exists e. split_and!.
  - done.
  - rewrite (Open_found base (embedded st data) ("/" +:+ recorded_name path) e);
      simpl; rewrite ?Hstrip; try lia; done.
  - intros Hrel%recorded_name_relative. split; [done|].
    symmetry. by apply Open_leading_slash.
Qed.

Lemma Open_leading_separator_witness :
  let ops := ops_of (generate Example.rt Example.fs false "main" "assets"
                       ["/a.txt"; "b.txt"]) in
  generate Example.rt Example.fs false "main" "assets" ["/a.txt"; "b.txt"]
    = Ret (ops, None)
  ∧ ∃ names st,
      resolve Example.fs ["/a.txt"; "b.txt"] = Some names
      ∧ process_globs Example.fs (init_state Example.rt) ["/a.txt"; "b.txt"]
          = Ret (inr st)
      ∧ ops = render Example.rt false "main" "assets" st
      ∧ Forall (λ path, HasPrefix path "//" = false) names
      ∧ ∀ path base data,
          path ∈ names → len data = offset st →
          ∃ e,
            filemap st !! recorded_name path = Some e
            ∧ Generated.Open base (embedded st data)
                ("/" +:+ recorded_name path)
              = Ret (inr (Generated.mkFile
                            (take (Z.to_nat (entry_size e))
                                  (drop (Z.to_nat (entry_offset e)) data))
                            (Generated.mkFI (base (recorded_name path))
                                            (entry_size e)
                                            Generated.ModePerm (entry_ts e))))
            ∧ HasPrefix (recorded_name path) "/" = false
            ∧ Generated.Open base (embedded st data) (recorded_name path)
              = Generated.Open base (embedded st data)
                  ("/" +:+ recorded_name path).
Proof.
  intros ops.
  assert (generate Example.rt Example.fs false "main" "assets"
            ["/a.txt"; "b.txt"] = Ret (ops, None)) as Hrun
    by (vm_compute; reflexivity).
  split; [exact Hrun|].
  destruct (Open_leading_separator Example.rt Example.fs false "main" "assets"
              ["/a.txt"; "b.txt"] ops Hrun)
    as (names & st & Hres & Hglobs & Hops & Hopen).
  assert (Some names = Some ["/a.txt"; "b.txt"]) as Hnames
    by (rewrite <- Hres; vm_compute; reflexivity).
  assert (Forall (λ path, HasPrefix path "//" = false) names) as Hpaths.
  { injection Hnames as ->. repeat constructor. }
  exists names, st.
  refine (conj Hres (conj Hglobs (conj Hops (conj Hpaths _)))).
  intros path base data Hin Hlen.
  destruct (Hopen path base data Hin Hlen) as (e & He & Hfile & Hrel).
  exists e.
  exact (conj He (conj Hfile
           (Hrel (proj1 (Forall_forall _ names) Hpaths path Hin)))).
Defined.

(** C8 as stated does not hold of every recorded name.  The path [//a.txt]
    is recorded under [/a.txt], a name with a leading separator; it is a key
    of [filemap] and is listed by [Filenames].  [Open] on ["/" + n] finds its
    entry, and [Open] on [n] looks up [a.txt] and returns
    [os.ErrNotExist]. *)
Theorem Open_leading_separator_differs :
  ∃ st e,
    process_globs Demo.fs (init_state Example.rt) ["//a.txt"] = Ret (inr st)
    ∧ generate Example.rt Demo.fs false "main" "assets" ["//a.txt"]
        = Ret (render Example.rt false "main" "assets" st, None)
    ∧ recorded_name "//a.txt" = "/a.txt"
    ∧ filemap st !! "/a.txt" = Some e
    ∧ Generated.Filenames (embedded st ["x"%byte]) = ["/a.txt"]
    ∧ len ["x"%byte] = offset st
    ∧ Generated.Open Example.base (embedded st ["x"%byte]) ("/" +:+ "/a.txt")
        = Ret (inr (Generated.mkFile ["x"%byte]
                      (Generated.mkFI "/a.txt" 1 Generated.ModePerm
                                      1600000000)))
    ∧ Generated.Open Example.base (embedded st ["x"%byte]) "/a.txt"
        = Ret (inl ErrNotExist)
    ∧ Generated.Open Example.base (embedded st ["x"%byte]) ("/" +:+ "/a.txt")
        ≠ Generated.Open Example.base (embedded st ["x"%byte]) "/a.txt".
Proof.
  eexists _, _. split; [by vm_compute|].
  split_and!; try (vm_compute; reflexivity).
  vm_compute. discriminate.
Qed.

(** ** One name for each occurrence *)

Lemma recorded_name_eq_relative p q :
  HasPrefix p "/" = false → q ≠ "/" +:+ p →
  recorded_name q = p ↔ q = p.
Proof.
  intros Hp Hq. unfold recorded_name. split.
  - intros Hrec. destruct (HasPrefix q "/") eqn:Eq.
    + apply HasPrefix_slash in Eq. rewrite Hrec in Eq. done.
    + by rewrite TrimPrefix_relative in Hrec.
  - intros ->. by apply TrimPrefix_relative.
Qed.

Lemma occurrences_recorded_relative p names :
  HasPrefix p "/" = false → ("/" +:+ p) ∉ names →
  occurrences p (recorded_name <$> names) = occurrences p names.
Proof.
  intros Hp. induction names as [|q names IH]; [done|].
  rewrite not_elem_of_cons. intros [Hq Hnames].
  rewrite fmap_cons, !occurrences_cons, IH by done. f_equal.
  pose proof (recorded_name_eq_relative p q Hp (not_eq_sym Hq)) as Hiff.
  repeat case_decide; tauto.
Qed.

Lemma occurrences_keys_le (m : gmap string entry) n :
  (occurrences n (map_to_list m).*1 <= 1)%nat.
Proof.
  destruct (m !! n) as [e|] eqn:En.
  - by rewrite (occurrences_keys _ _ _ En).
  - rewrite occurrences_not_elem_of; [lia|].
    intros ([n' e] & -> & Hin%elem_of_map_to_list)%list_elem_of_fmap.
    simpl in *. congruence.
Qed.

(** C9, as the code has it.  When [generate] returns without error, the list
    written after [filenames:] has one element for each occurrence of a path
    in what the patterns gave, and that element is the name recorded for the
    path, which is the path without one leading separator.  So a name is in
    the list as often as paths recorded under it were matched; a path [p]
    without leading separator whose twin ["/" + p] was not matched is there as
    often as [p] was matched; and all the while the keys of [filemap] hold a
    name once at most. *)
Theorem filenames_one_per_occurrence rt fs incHTTP pkg prefix globs ops :
  generate rt fs incHTTP pkg prefix globs = Ret (ops, None) →
  ∃ names st,
    resolve fs globs = Some names
    ∧ process_globs fs (init_state rt) globs = Ret (inr st)
    ∧ ops = render rt incHTTP pkg prefix st
    ∧ Wr (cat ["    filenames: ";
               gosyntax_strings rt (sort_Strings (filenames st)); ","; nl])
        ∈ ops
    ∧ length (sort_Strings (filenames st)) = length names
    ∧ (∀ n, occurrences n (sort_Strings (filenames st)) =
            occurrences n (recorded_name <$> names))
    ∧ (∀ p, HasPrefix p "/" = false → ("/" +:+ p) ∉ names →
            occurrences p (sort_Strings (filenames st)) = occurrences p names)
    ∧ (∀ n, (occurrences n (map_to_list (filemap st)).*1 <= 1)%nat).
Proof.
  intros (names & st & Hres & _ & Hrun & Hst & ->)%generate_ok.
  assert (sort_Strings (filenames st) ≡ₚ recorded_name <$> names) as Hperm.
  { rewrite sort_Strings_Permutation, (reached_filenames _ _ _ Hst).
    by rewrite (recorded_names _ _ _ Hst). }
  exists names, st. split_and!; try done.
  - apply filenames_line_written.
  - by rewrite Hperm, length_fmap.
  - intros n. by apply occurrences_Permutation.
  - intros p Hp Htwin. rewrite (occurrences_Permutation _ _ _ Hperm).
    by apply occurrences_recorded_relative.
  - intros n. apply occurrences_keys_le.
Qed.

Lemma filenames_one_per_occurrence_witness :
  let ops := ops_of Example.run_twice in
  Example.run_twice = Ret (ops, None) ∧
  ∃ names st,
    resolve Example.fs ["a.txt"; "*.txt"] = Some names
    ∧ process_globs Example.fs (init_state Example.rt)
        ["a.txt"; "*.txt"] = Ret (inr st)
    ∧ ops = render Example.rt false "main" "assets" st
    ∧ Wr (cat ["    filenames: ";
               gosyntax_strings Example.rt (sort_Strings (filenames st)); ",";
               nl])
        ∈ ops
    ∧ length (sort_Strings (filenames st)) = length names
    ∧ (∀ n, occurrences n (sort_Strings (filenames st)) =
            occurrences n (recorded_name <$> names))
    ∧ (∀ p, HasPrefix p "/" = false → ("/" +:+ p) ∉ names →
            occurrences p (sort_Strings (filenames st)) = occurrences p names)
    ∧ (∀ n, (occurrences n (map_to_list (filemap st)).*1 <= 1)%nat).
Proof.
  intros ops.
  assert (Example.run_twice = Ret (ops, None)) as Hrun by (vm_compute; reflexivity).
  split; [exact Hrun|].
  exact (filenames_one_per_occurrence Example.rt Example.fs false "main"
           "assets" ["a.txt"; "*.txt"] ops Hrun).
Defined.

(** C9 as the specification words it fails where a path has a leading
    separator: with the patterns [a.txt] and [/a.txt], which match one path
    each, two different files, the path [a.txt] is matched once and is twice
    in the list, and the path [/a.txt] is matched once and is not in the
    list. *)
Lemma filenames_count_differs_from_matches :
  ∃ names st,
    resolve Example.fs ["a.txt"; "/a.txt"] = Some names
    ∧ process_globs Example.fs (init_state Example.rt) ["a.txt"; "/a.txt"]
        = Ret (inr st)
    ∧ generate Example.rt Example.fs false "main" "assets" ["a.txt"; "/a.txt"]
        = Ret (render Example.rt false "main" "assets" st, None)
    ∧ names = ["a.txt"; "/a.txt"]
    ∧ sort_Strings (filenames st) = ["a.txt"; "a.txt"]
    ∧ occurrences "a.txt" names = 1%nat
    ∧ occurrences "a.txt" (sort_Strings (filenames st)) = 2%nat
    ∧ occurrences "/a.txt" names = 1%nat
    ∧ occurrences "/a.txt" (sort_Strings (filenames st)) = 0%nat.
Proof.
  eexists _, _. split; [vm_compute; reflexivity|].
  split; [vm_compute; reflexivity|].
  split; [vm_compute; reflexivity|].
  by vm_compute.
Qed.

(** ** Patterns: no match, and no sense *)

Lemma process_globs_app fs st pre rest :
  process_globs fs st (pre ++ rest) =
  r ← process_globs fs st pre;
  match r with
  | inl err => Ret (inl err)
  | inr st' => process_globs fs st' rest
  end.
Proof.
  revert st. induction pre as [|pattern pre IH]; intros st; [done|].
  simpl. destruct (fs_glob fs pattern) as [names|]; [|done].
  destruct (process_names fs st names) as [[err|st1]|]; csimpl; auto.
Qed.

Lemma process_globs_no_match fs st pattern rest :
  fs_glob fs pattern = Some [] →
  process_globs fs st (pattern :: rest) = process_globs fs st rest.
Proof. intros Hp. simpl. by rewrite Hp. Qed.

Lemma resolve_app fs pre rest :
  resolve fs (pre ++ rest) =
  names ← resolve fs pre; more ← resolve fs rest; Some (names ++ more).
Proof.
  induction pre as [|pattern pre IH].
  - rewrite resolve_nil. csimpl. by destruct (resolve fs rest).
  - rewrite <- app_comm_cons, !resolve_cons, IH.
    destruct (fs_glob fs pattern); csimpl; [|done].
    destruct (resolve fs pre); csimpl; [|done].
    destruct (resolve fs rest); csimpl; [|done]. by rewrite app_assoc.
Qed.

Lemma resolve_none_matched fs globs :
  resolve fs globs = Some [] ↔ Forall (λ p, fs_glob fs p = Some []) globs.
Proof.
  induction globs as [|pattern globs IH].
  - by rewrite resolve_nil.
  - rewrite resolve_cons, Forall_cons, <- IH.
    destruct (fs_glob fs pattern) as [names|]; csimpl; [|by split; [|intros []]].
    destruct (resolve fs globs) as [rest|]; csimpl; [|by split; [|intros []]].
    split.
    + intros [= [-> ->]%app_eq_nil]. done.
    + intros [[= ->] [= ->]]. done.
Qed.

Lemma process_globs_none_matched fs st globs :
  Forall (λ p, fs_glob fs p = Some []) globs →
  process_globs fs st globs = Ret (inr st).
Proof.
  induction 1 as [|pattern globs Hp _ IH]; [done|].
  by rewrite process_globs_no_match.
Qed.

(** The errors that the loops return. *)
Lemma process_names_error fs st names err :
  process_names fs st names = Ret (inl err) →
  ∃ name cause, err = Errorf "Failed to read" name cause
                ∨ err = Errorf "Failed to process" name cause.
Proof.
  revert st. induction names as [|name names IH]; intros st; [done|].
  simpl. destruct (process_file fs st name) as [[err'|st1]|] eqn:Efile;
    csimpl; [|by eauto|done].
  intros [= ->]. unfold process_file in Efile.
  destruct (Write (databuf st) (bytes_of (comment_line name)))
    as [[[databuf1 wn] werr]|]; [|done].
  csimpl in Efile. destruct (fs_open fs name) as [cause|f].
  { simplify_eq. eauto. }
  destruct (fmtBytes databuf1 (f_reader f)) as [[databuf2 [[br bw] [cause|]]]|];
    csimpl in Efile; simplify_eq. eauto.
Qed.

Lemma process_globs_error fs st globs err :
  process_globs fs st globs = Ret (inl err) →
  err = ErrBadPattern
  ∨ ∃ name cause, err = Errorf "Failed to read" name cause
                  ∨ err = Errorf "Failed to process" name cause.
Proof.
  revert st. induction globs as [|pattern globs IH]; intros st; [done|].
  simpl. destruct (fs_glob fs pattern) as [names|]; [|intros [= <-]; by left].
  destruct (process_names fs st names) as [[err'|st1]|] eqn:Enames;
    csimpl; [|by eauto|done].
  intros [= ->]. right. by eapply process_names_error.
Qed.

Lemma Errorf_not_no_files what name cause :
  what = "Failed to read" ∨ what = "Failed to process" →
  Errorf what name cause ≠ ErrNew "No files found".
Proof. intros [-> | ->]; done. Qed.

(** C4.  If every pattern is well formed and none matches a file, [generate]
    returns the error [No files found] and does nothing to [w].  That error
    comes in this case only; and a pattern that matches nothing, anywhere in
    the list, is passed over: the run is the run without it. *)
Theorem no_files_found rt fs incHTTP pkg prefix globs :
  (resolve fs globs = Some [] →
   generate rt fs incHTTP pkg prefix globs =
     Ret ([], Some (ErrNew "No files found")))
  ∧ (∀ ops,
       generate rt fs incHTTP pkg prefix globs =
         Ret (ops, Some (ErrNew "No files found")) →
       ops = [] ∧ resolve fs globs = Some [])
  ∧ (∀ pre pattern post,
       globs = pre ++ pattern :: post →
       fs_glob fs pattern = Some [] →
       generate rt fs incHTTP pkg prefix globs =
         generate rt fs incHTTP pkg prefix (pre ++ post)).
Proof.
  split_and!.
  - intros Hnone%resolve_none_matched. unfold generate.
    by rewrite process_globs_none_matched.
  - intros ops. unfold generate.
    destruct (process_globs fs (init_state rt) globs) as [[err|st]|] eqn:Eglobs;
      csimpl; [| |done].
    + intros [= -> ->]. exfalso.
      apply process_globs_error in Eglobs as [?|(name & cause & [H|H])];
        [done|..]; symmetry in H; revert H; apply Errorf_not_no_files; auto.
    + destruct (reached_globs fs [] _ _ _ (reached_init fs rt) Eglobs)
        as (names & Hres & _ & Hst).
      destruct (fcount st =? 0) eqn:Ecount; [|done].
      intros [= <-]. split; [done|]. rewrite Hres. f_equal.
      apply Z.eqb_eq in Ecount. rewrite (reached_fcount _ _ _ Hst) in Ecount.
      destruct names; [done|]. unfold len in Ecount. simpl in Ecount. lia.
  - intros pre pattern post -> Hp. unfold generate.
    rewrite !process_globs_app.
    destruct (process_globs fs (init_state rt) pre) as [[err|st]|]; csimpl;
      try done.
    by rewrite Hp.
Qed.

Lemma no_files_found_witness :
  let globs := ["*.png"; "img/*"] in
  resolve Example.fs globs = Some []
  ∧ generate Example.rt Example.fs false "main" "assets" globs =
      Ret ([], Some (ErrNew "No files found")).
Proof.
  intros globs.
  assert (resolve Example.fs globs = Some []) as Hnone by reflexivity.
  split; [exact Hnone|].
  exact (proj1 (no_files_found Example.rt Example.fs false "main" "assets" globs)
           Hnone).
Defined.

(** A pattern without a match next to one with matches is no error. *)
Example no_match_is_passed_over :
  generate Example.rt Example.fs false "main" "assets" ["*.png"; "a.txt"; "b.txt"]
  = Example.run.
Proof. by vm_compute. Qed.

(** C7, as the code has it.  When the patterns before a malformed one were
    gone through without error, [generate] returns at the malformed pattern:
    whatever patterns follow it, nothing is done to [w] and the error is
    [filepath.ErrBadPattern] as [filepath.Glob] made it, with the message
    [syntax error in pattern]. *)
Theorem bad_pattern_stops_run rt fs incHTTP pkg prefix pre pattern post st :
  process_globs fs (init_state rt) pre = Ret (inr st) →
  fs_glob fs pattern = None →
  generate rt fs incHTTP pkg prefix (pre ++ pattern :: post) =
    Ret ([], Some ErrBadPattern)
  ∧ Error ErrBadPattern = "syntax error in pattern".
Proof.
  intros Hpre Hbad. split; [|done].
  unfold generate. rewrite process_globs_app, Hpre. csimpl. by rewrite Hbad.
Qed.

Lemma bad_pattern_stops_run_witness :
  ∃ st,
    process_globs Example.fs (init_state Example.rt) ["a.txt"] = Ret (inr st)
    ∧ fs_glob Example.fs "[" = None
    ∧ generate Example.rt Example.fs false "main" "assets"
        (["a.txt"] ++ "[" :: ["b.txt"]) = Ret ([], Some ErrBadPattern)
    ∧ Error ErrBadPattern = "syntax error in pattern".
Proof.
  eexists.
  refine (let Hpre := _ : process_globs Example.fs (init_state Example.rt)
                            ["a.txt"] = Ret (inr _) in
          let Hbad := eq_refl : fs_glob Example.fs "[" = None in
          conj Hpre (conj Hbad
            (bad_pattern_stops_run Example.rt Example.fs false "main" "assets"
               ["a.txt"] "[" ["b.txt"] _ Hpre Hbad))).
  vm_compute. reflexivity.
Defined.

(** C7 as the specification words it fails: the error that comes back for the
    malformed pattern ["["] does not hold the pattern, and it is the same
    error, with the same message, as for the malformed pattern ["a["]. *)
Lemma bad_pattern_error_does_not_name_it :
  ∃ err,
    generate Example.rt Example.fs false "main" "assets" ["a.txt"; "["; "b.txt"]
      = Ret ([], Some err)
    ∧ generate Example.rt Example.fs false "main" "assets" ["a["]
      = Ret ([], Some err)
    ∧ Error err = "syntax error in pattern"
    ∧ Contains (Error err) "[" = false
    ∧ Contains (Error err) "a[" = false.
Proof. exists ErrBadPattern. by vm_compute. Qed.

(** ** Two runs on the same input *)

(** The time is printed at one place of the template, after [// at]. *)
Lemma Execute_header_time (size : Z) (names : string) (incHTTP : bool)
    (pkg prefix : string) :
  ∃ rest, ∀ now,
    Execute header
      (<["DataSize" := VInt size]>
      (<["Filenames" := VString names]>
      (<["IncludeHTTP" := VBool incHTTP]>
      (<["Pkg" := VString pkg]>
      (<["Prefix" := VString prefix]>
      (<["Time" := VString now]> ∅)))))) =
    "package " +:+ pkg +:+ nl +:+ nl +:+
    "// Generated by github.com/gwatts/embedfiles" +:+ nl +:+
    "// at " +:+ now +:+ rest.
Proof.
  exists (Execute (drop 4 header)
            (<["DataSize" := VInt size]>
            (<["IncludeHTTP" := VBool incHTTP]>
            (<["Prefix" := VString prefix]> ∅)))).
  intros now. destruct incHTTP; vm_compute; reflexivity.
Qed.

Lemma gosyntax_strings_quote rt1 rt2 l :
  rt_quote rt1 = rt_quote rt2 → gosyntax_strings rt1 l = gosyntax_strings rt2 l.
Proof. unfold gosyntax_strings. by intros ->. Qed.

Lemma entry_line_quote rt1 rt2 kv :
  rt_quote rt1 = rt_quote rt2 → entry_line rt1 kv = entry_line rt2 kv.
Proof. unfold entry_line. by intros ->. Qed.

Lemma render_opening_quote rt1 rt2 prefix st :
  rt_quote rt1 = rt_quote rt2 →
  render_opening rt2 prefix st = render_opening rt1 prefix st.
Proof.
  intros Hq. unfold render_opening.
  by rewrite (gosyntax_strings_quote rt1 rt2).
Qed.

Lemma render_entries_quote rt1 rt2 st :
  rt_quote rt1 = rt_quote rt2 →
  render_entries rt2 st =
  Wr <$> (entry_line rt1 <$> rt_range rt2 (map_to_list (filemap st))).
Proof.
  intros Hq. unfold render_entries. rewrite <- list_fmap_compose.
  apply list_fmap_ext. intros _ kv _. simpl.
  by rewrite (entry_line_quote rt1 rt2).
Qed.

Lemma range_ok_id now quote mem : range_ok (mkRuntime now quote id mem).
Proof. by intros l. Qed.

Lemma range_ok_reverse now quote mem : range_ok (mkRuntime now quote reverse mem).
Proof. intros l. apply reverse_Permutation. Qed.

(** C6, as the code has it.  Take two runs of [generate] on the same file
    system, flags and patterns, on the same machine; the clock and the order
    of [range] over [filemap] are what may differ.  Both panic, or both return
    the same error and do nothing to [w], or both return without error after
    the same work: what they write is the same but for two stretches, the time
    after [// at] in the first write, and the lines of the entries of
    [filemap], which are the same lines in an order that may differ. *)
Theorem generate_same_but_time_and_order rt1 rt2 fs incHTTP pkg prefix globs :
  rt_quote rt1 = rt_quote rt2 →
  rt_mem rt1 = rt_mem rt2 →
  range_ok rt1 →
  range_ok rt2 →
  (generate rt1 fs incHTTP pkg prefix globs = Panic
   ∧ generate rt2 fs incHTTP pkg prefix globs = Panic)
  ∨ (∃ err,
       generate rt1 fs incHTTP pkg prefix globs = Ret ([], Some err)
       ∧ generate rt2 fs incHTTP pkg prefix globs = Ret ([], Some err))
  ∨ (∃ st rest lines1 lines2,
       process_globs fs (init_state rt1) globs = Ret (inr st)
       ∧ process_globs fs (init_state rt2) globs = Ret (inr st)
       ∧ generate rt1 fs incHTTP pkg prefix globs =
           Ret (Wr ("package " +:+ pkg +:+ nl +:+ nl +:+
                    "// Generated by github.com/gwatts/embedfiles" +:+ nl +:+
                    "// at " +:+ rt_now rt1 +:+ rest)
                :: render_opening rt1 prefix st
                   ++ (Wr <$> lines1) ++ render_closing st, None)
       ∧ generate rt2 fs incHTTP pkg prefix globs =
           Ret (Wr ("package " +:+ pkg +:+ nl +:+ nl +:+
                    "// Generated by github.com/gwatts/embedfiles" +:+ nl +:+
                    "// at " +:+ rt_now rt2 +:+ rest)
                :: render_opening rt1 prefix st
                   ++ (Wr <$> lines2) ++ render_closing st, None)
       ∧ lines1 ≡ₚ entry_line rt1 <$> map_to_list (filemap st)
       ∧ lines2 ≡ₚ entry_line rt1 <$> map_to_list (filemap st)).
Proof.
  intros Hquote Hmem Hrange1 Hrange2. unfold generate.
  assert (init_state rt2 = init_state rt1) as -> by (unfold init_state; by rewrite Hmem).
  destruct (process_globs fs (init_state rt1) globs) as [[err|st]|]; csimpl.
  - right. left. by exists err.
  - destruct (fcount st =? 0).
    { right. left. by eexists. }
    right. right.
    destruct (Execute_header_time (offset st)
                (gosyntax_strings rt1 (sort_Strings (filenames st)))
                incHTTP pkg prefix) as [rest Hrest].
    exists st, rest,
      (entry_line rt1 <$> rt_range rt1 (map_to_list (filemap st))),
      (entry_line rt1 <$> rt_range rt2 (map_to_list (filemap st))).
    split_and!; try done.
    + unfold render, render_header.
      by rewrite Hrest, (render_entries_quote rt1 rt1).
    + unfold render, render_header.
      rewrite <- (gosyntax_strings_quote rt1 rt2) by done.
      by rewrite Hrest, (render_entries_quote rt1 rt2),
                 (render_opening_quote rt1 rt2).
    + apply fmap_Permutation, Hrange1.
    + apply fmap_Permutation, Hrange2.
  - by left.
Qed.

Lemma generate_same_but_time_and_order_witness :
  let run rt := generate rt Example.fs false "main" "assets" ["a.txt"; "b.txt"] in
  rt_quote Example.rt = rt_quote Example.rt'
  ∧ rt_mem Example.rt = rt_mem Example.rt'
  ∧ range_ok Example.rt
  ∧ range_ok Example.rt'
  ∧ ((run Example.rt = Panic ∧ run Example.rt' = Panic)
     ∨ (∃ err, run Example.rt = Ret ([], Some err)
               ∧ run Example.rt' = Ret ([], Some err))
     ∨ (∃ st rest lines1 lines2,
          process_globs Example.fs (init_state Example.rt) ["a.txt"; "b.txt"]
            = Ret (inr st)
          ∧ process_globs Example.fs (init_state Example.rt') ["a.txt"; "b.txt"]
            = Ret (inr st)
          ∧ run Example.rt =
              Ret (Wr ("package " +:+ "main" +:+ nl +:+ nl +:+
                       "// Generated by github.com/gwatts/embedfiles" +:+ nl +:+
                       "// at " +:+ rt_now Example.rt +:+ rest)
                   :: render_opening Example.rt "assets" st
                      ++ (Wr <$> lines1) ++ render_closing st, None)
          ∧ run Example.rt' =
              Ret (Wr ("package " +:+ "main" +:+ nl +:+ nl +:+
                       "// Generated by github.com/gwatts/embedfiles" +:+ nl +:+
                       "// at " +:+ rt_now Example.rt' +:+ rest)
                   :: render_opening Example.rt "assets" st
                      ++ (Wr <$> lines2) ++ render_closing st, None)
          ∧ lines1 ≡ₚ entry_line Example.rt <$> map_to_list (filemap st)
          ∧ lines2 ≡ₚ entry_line Example.rt <$> map_to_list (filemap st))).
Proof.
  intros run.
  pose proof (eq_refl : rt_quote Example.rt = rt_quote Example.rt') as H1.
  pose proof (eq_refl : rt_mem Example.rt = rt_mem Example.rt') as H2.
  pose proof (range_ok_id (rt_now Example.rt) Example.quote 1000000
              : range_ok Example.rt) as H3.
  pose proof (range_ok_reverse (rt_now Example.rt) Example.quote 1000000
              : range_ok Example.rt') as H4.
  repeat (split; [assumption|]).
  exact (generate_same_but_time_and_order Example.rt Example.rt' Example.fs
           false "main" "assets" ["a.txt"; "b.txt"] H1 H2 H3 H4).
Defined.

(** C6 as the specification words it fails: on the same machine at the same
    time, a run in which [range] takes the entry of [a.txt] first and a run
    in which it takes the entry of [b.txt] first write different texts. *)
Lemma generate_entry_order_differs :
  rt_now Example.rt = rt_now Example.rt'
  ∧ rt_quote Example.rt = rt_quote Example.rt'
  ∧ rt_mem Example.rt = rt_mem Example.rt'
  ∧ range_ok Example.rt
  ∧ range_ok Example.rt'
  ∧ ∃ ops ops',
      generate Example.rt Example.fs false "main" "assets" ["a.txt"; "b.txt"]
        = Ret (ops, None)
      ∧ generate Example.rt' Example.fs false "main" "assets" ["a.txt"; "b.txt"]
        = Ret (ops', None)
      ∧ ops !! 4%nat =
          Some (Wr (entry_line Example.rt ("a.txt", mkEntry 1700000000 0 3)))
      ∧ ops' !! 4%nat =
          Some (Wr (entry_line Example.rt ("b.txt", mkEntry 0 3 0)))
      ∧ written ops ≠ written ops'.
Proof.
  split_and!; try reflexivity.
  - apply range_ok_id.
  - apply range_ok_reverse.
  - eexists _, _. split; [vm_compute; reflexivity|].
    split; [vm_compute; reflexivity|].
    split; [vm_compute; reflexivity|].
    split; [vm_compute; reflexivity|].
    intros Heq%String.eqb_eq. vm_compute in Heq. discriminate.
Qed.

(** ** When [generate] returns without error

    The runs that the theorems above speak of are all the runs on patterns
    that are well formed and match at least one file, on files that can be
    opened and read, with memory for the text of the data. *)

Lemma Buffer_write_returns (b : Buffer) p :
  len (buf_bytes b) + len p <= Buffer_room b →
  Write b p = Ret (mkBuffer (buf_bytes b ++ p) (buf_limit b), len p, None).
Proof.
  intros Hroom. unfold Write, Buffer_Writer.
  rewrite len_app. by apply Z.leb_le in Hroom as ->.
Qed.

Lemma fmtBytes_loop_Buffer_returns (b : Buffer) inp br bw :
  len (buf_bytes b) + len (mjoin (fmt_line <$> reader_chunks inp))
    <= Buffer_room b →
  ∃ b' br' bw',
    fmtBytes_loop b inp br bw = Ret (b', (br', bw', reader_err inp)).
Proof.
  revert b br bw. induction inp as [|[chunk rerr] inp IH]; intros b br bw Hroom.
  - by eexists _, _, _.
  - cbn [fmtBytes_loop]. destruct chunk as [|c chunk].
    + rewrite fmt_chunk_nil. csimpl.
      destruct rerr as [[]|]; try by eexists _, _, _.
      by apply IH.
    + rewrite fmt_chunk_cons.
      assert (len (mjoin (fmt_line <$> reader_chunks ((c :: chunk, rerr) :: inp)))
              = len (fmt_line (c :: chunk))
                + len (mjoin (fmt_line <$> match rerr with
                                           | None => reader_chunks inp
                                           | Some _ => []
                                           end))) as Hlen
        by (csimpl; by rewrite len_app).
      rewrite Hlen in Hroom.
      pose proof (len_nonneg (mjoin (fmt_line <$> match rerr with
                                                  | None => reader_chunks inp
                                                  | Some _ => []
                                                  end))).
      rewrite Buffer_write_returns by lia. csimpl.
      destruct rerr as [[]|]; try by eexists _, _, _.
      apply IH. simpl. rewrite len_app. unfold Buffer_room in *. simpl. lia.
Qed.

Lemma process_file_returns fs st name :
  readable fs name →
  len (buf_bytes (databuf st)) + len (file_block fs name)
    <= Buffer_room (databuf st) →
  ∃ st', process_file fs st name = Ret (inr st').
Proof.
  intros (f & Hopen & Herr). unfold file_block, process_file.
  rewrite Hopen, len_app. intros Hroom.
  pose proof (len_nonneg (mjoin (fmt_line <$> reader_chunks (f_reader f)))).
  rewrite Buffer_write_returns by lia. csimpl.
  destruct (fmtBytes_loop_Buffer_returns
              (mkBuffer (buf_bytes (databuf st) ++ bytes_of (comment_line name))
                        (buf_limit (databuf st)))
              (f_reader f) 0 0) as (b' & br' & bw' & Hrun).
  { simpl. rewrite len_app. unfold Buffer_room in *. simpl. lia. }
  unfold fmtBytes. rewrite Hrun, Herr. csimpl. by eexists.
Qed.

Lemma process_names_returns fs st names :
  Forall (readable fs) names →
  len (buf_bytes (databuf st)) + len (mjoin (file_block fs <$> names))
    <= Buffer_room (databuf st) →
  ∃ st', process_names fs st names = Ret (inr st').
Proof.
  intros Hnames. revert st.
  induction Hnames as [|name names Hname _ IH]; intros st Hroom.
  - by eexists.
  - rewrite fmap_cons in Hroom.
    change (mjoin (?x :: ?l)) with (x ++ mjoin l) in Hroom.
    rewrite len_app in Hroom.
    pose proof (len_nonneg (mjoin (file_block fs <$> names))).
    destruct (process_file_returns fs st name Hname) as [st1 Hfile]; [lia|].
    simpl. rewrite Hfile. csimpl.
    apply process_file_ok in Hfile as (_ & Hb & Hl & _).
    apply IH. unfold Buffer_room in *. rewrite Hb, Hl, len_app. lia.
Qed.

Lemma process_globs_names fs st globs names :
  resolve fs globs = Some names →
  process_globs fs st globs = process_names fs st names.
Proof.
  revert st names. induction globs as [|pattern globs IH]; intros st names.
  - rewrite resolve_nil. by intros [= <-].
  - rewrite resolve_cons. simpl.
    destruct (fs_glob fs pattern) as [first|]; csimpl; [|done].
    destruct (resolve fs globs) as [rest|] eqn:Hrest; csimpl; [|done].
    intros [= <-]. clear Hrest. revert st.
    induction first as [|name first IHf]; intros st; csimpl; [by apply IH|].
    destruct (process_file fs st name) as [[err|st1]|]; csimpl; auto.
Qed.

Theorem generate_returns rt fs incHTTP pkg prefix globs names :
  resolve fs globs = Some names →
  names ≠ [] →
  Forall (readable fs) names →
  len (mjoin (file_block fs <$> names)) <= Z.min (rt_mem rt) max_int →
  ∃ st,
    process_globs fs (init_state rt) globs = Ret (inr st)
    ∧ reached fs names st
    ∧ generate rt fs incHTTP pkg prefix globs =
        Ret (render rt incHTTP pkg prefix st, None).
Proof.
  intros Hres Hne Hread Hroom.
  destruct (process_names_returns fs (init_state rt) names Hread) as [st Hrun].
  { simpl. rewrite len_nil. unfold Buffer_room. simpl. lia. }
  rewrite <- (process_globs_names _ _ _ _ Hres) in Hrun.
  destruct (reached_globs fs [] _ _ _ (reached_init fs rt) Hrun)
    as (names' & Hres' & _ & Hst).
  rewrite Hres in Hres'. injection Hres' as <-. simpl in Hst.
  exists st. split_and!; try done.
  unfold generate. rewrite Hrun. csimpl.
  rewrite (reached_fcount _ _ _ Hst).
  destruct names; [done|]. by unfold len.
Qed.

(** The scenario of the patterns [a.txt] and [b.txt], the first file with
    the bytes 1, 2, 3 and the second empty. *)
Example two_files_manifest :
  ∃ st,
    process_globs Example.fs (init_state Example.rt) ["a.txt"; "b.txt"]
      = Ret (inr st)
    ∧ Example.run = Ret (render Example.rt false "main" "assets" st, None)
    ∧ sort_Strings (filenames st) = ["a.txt"; "b.txt"]
    ∧ map_to_list (filemap st) =
        [("a.txt", mkEntry 1700000000 0 3); ("b.txt", mkEntry 0 3 0)]
    ∧ offset st = 3
    ∧ decode (mjoin (fmt_line <$> reader_chunks (f_reader Example.a_txt)))
      = Some ["001"; "002"; "003"]%byte.
Proof.
  eexists. split; [vm_compute; reflexivity|]. by vm_compute.
Qed.

(** * More about the program *)

(** ** [fmtBytes]: empty input, the end of the reading, the writes *)

(** X1.  When no read brings a byte, [fmtBytes] never calls [Write], whatever
    the writer is: the writer is as before, both counts are 0, and the error
    is the one of the reader ([nil] at the end of the stream). *)
Theorem fmtBytes_nothing_read {W : Type} `{!Writer W} (out : W) (inp : reader) :
  Forall (λ rd, rd.1 = []) inp →
  fmtBytes out inp = Ret (out, (0, 0, reader_err inp)).
Proof.
  unfold fmtBytes. generalize 0 at 1 3. generalize 0.
  intros bw br Hinp. revert out.
  induction Hinp as [|[chunk rerr] inp Hrd _ IH]; intros out; [done|].
  simpl in Hrd. subst chunk. cbn [fmtBytes_loop]. rewrite fmt_chunk_nil.
  csimpl. destruct rerr as [[]|]; auto.
Qed.

Lemma fmtBytes_nothing_read_witness :
  let full := mkBuffer (bytes_of "full") 4 in
  let inp := [([], None); ([], None); ([], Some EOF)] in
  Forall (λ rd : bytes * option error, rd.1 = []) inp
  ∧ fmtBytes full inp = Ret (full, (0, 0, reader_err inp)).
Proof.
  intros full inp.
  assert (Forall (λ rd : bytes * option error, rd.1 = []) inp) as Hinp
    by (repeat constructor).
  split; [exact Hinp|].
  exact (fmtBytes_nothing_read full inp Hinp).
Defined.

Lemma fmtBytes_rest_unread {W : Type} `{!Writer W} (out : W)
    (pre : reader) (chunk : bytes) (e : error) (rest : reader) :
  fmtBytes out (pre ++ (chunk, Some e) :: rest) =
  fmtBytes out (pre ++ [(chunk, Some e)]).
Proof.
  unfold fmtBytes. generalize 0 at 1 3. generalize 0.
  intros bw br. revert out br bw.
  induction pre as [|[c rerr] pre IH]; intros out br bw.
  - cbn [app fmtBytes_loop].
    destruct (fmt_chunk out chunk br bw) as [[res|[[out' br'] bw']]|]; csimpl;
      try done; by destruct e.
  - cbn [app fmtBytes_loop].
    destruct (fmt_chunk out c br bw) as [[res|[[out' br'] bw']]|]; csimpl;
      try done.
    destruct rerr as [[]|]; auto.
Qed.

Lemma reader_data_until_error pre chunk e rest :
  Forall (λ rd, rd.2 = None) pre →
  reader_data (pre ++ (chunk, Some e) :: rest) = reader_data pre ++ chunk.
Proof.
  induction 1 as [|[c rerr] pre Hrd _ IH]; [done|].
  simpl in Hrd. subst rerr. cbn [app reader_data].
  by rewrite IH, app_assoc.
Qed.

Lemma reader_err_until_error pre chunk e rest :
  Forall (λ rd, rd.2 = None) pre →
  reader_err (pre ++ (chunk, Some e) :: rest) =
  match e with EOF => None | _ => Some e end.
Proof.
  induction 1 as [|[c rerr] pre Hrd _ IH]; [by destruct e|].
  simpl in Hrd. subst rerr. done.
Qed.

(** X2.  [fmtBytes] stops at the first read that brings an error, [io.EOF] or
    another, after it has written the bytes that came with that read.
    Whatever the reader would give after that read makes no difference to
    the writer, the counts and the error returned.  When the reads before
    it brought no error and their lines were written without error, the
    line of the bytes of that read is written to the writer as those writes
    left it, the counts grow by the bytes of the read and by what that write
    returns, and the error returned is that of the read, [nil] for [io.EOF].
    So what a writer that takes every write has got, read back, is the bytes
    of all the reads up to and with that one. *)
Theorem fmtBytes_stops_at_error {W : Type} `{!Writer W} (out : W)
    (pre : reader) (chunk : bytes) (e : error) (rest : reader) :
  fmtBytes out (pre ++ (chunk, Some e) :: rest) =
  fmtBytes out (pre ++ [(chunk, Some e)])
  ∧ (∀ (out1 out2 : W) (br1 bw1 wn : Z),
       Forall (λ rd, rd.2 = None) pre →
       fmtBytes out pre = Ret (out1, (br1, bw1, None)) →
       chunk ≠ [] →
       Write out1 (fmt_line chunk) = Ret (out2, wn, None) →
       fmtBytes out (pre ++ (chunk, Some e) :: rest) =
         Ret (out2, (int_add br1 (len chunk), int_add bw1 wn,
                     match e with EOF => None | _ => Some e end)))
  ∧ (Forall (λ rd, rd.2 = None) pre →
     ∃ text bytesWritten,
       fmtBytes (mkScriptWriter [] []) (pre ++ (chunk, Some e) :: rest) =
         Ret (mkScriptWriter text [],
              (wrap_int (len (reader_data pre ++ chunk)), bytesWritten,
               match e with EOF => None | _ => Some e end))
       ∧ decode text = Some (reader_data pre ++ chunk)).
Proof.
  split_and!.
  - apply fmtBytes_rest_unread.
  - intros out1 out2 br1 bw1 wn Hpre Hrun Hchunk Hwrite.
    unfold fmtBytes in *.
    rewrite (fmtBytes_loop_prefix _ _ _ _ _ _ _ _ Hpre Hrun).
    cbn [fmtBytes_loop]. destruct chunk as [|b chunk]; [done|].
    rewrite fmt_chunk_cons, Hwrite. csimpl. by destruct e.
  - intros Hpre.
    destruct (fmtBytes_accepting (pre ++ (chunk, Some e) :: rest) [])
      as [bw Hrun].
    rewrite (reader_data_until_error _ _ _ _ Hpre),
            (reader_err_until_error _ _ _ _ Hpre) in Hrun.
    eexists _, bw. split; [exact Hrun|]. csimpl.
    by rewrite decode_lines, <- reader_data_chunks,
               (reader_data_until_error _ _ _ _ Hpre).
Qed.

Lemma fmtBytes_stops_at_error_witness :
  let failed := ErrNew "input/output error" in
  let pre := [(["001"%byte], None); ([], None)] in
  let chunk := ["002"; "003"]%byte in
  let rest := [(["004"%byte], None)] in
  let out := mkLogWriter [] in
  let out1 := mkLogWriter [fmt_line ["001"%byte]] in
  let out2 := mkLogWriter [fmt_line ["001"%byte]; fmt_line chunk] in
  Forall (λ rd, rd.2 = None) pre
  ∧ fmtBytes out pre = Ret (out1, (1, 10, None))
  ∧ chunk ≠ []
  ∧ Write out1 (fmt_line chunk) = Ret (out2, 16, None)
  ∧ fmtBytes out (pre ++ (chunk, Some failed) :: rest) =
      Ret (out2, (int_add 1 (len chunk), int_add 10 16, Some failed))
  ∧ ∃ text bytesWritten,
      fmtBytes (mkScriptWriter [] []) (pre ++ (chunk, Some failed) :: rest) =
        Ret (mkScriptWriter text [],
             (wrap_int (len (reader_data pre ++ chunk)), bytesWritten,
              Some failed))
      ∧ decode text = Some (reader_data pre ++ chunk).
Proof.
  intros failed pre chunk rest out out1 out2.
  assert (Forall (λ rd : bytes * option error, rd.2 = None) pre) as H1
    by (repeat constructor).
  assert (fmtBytes out pre = Ret (out1, (1, 10, None))) as H2 by reflexivity.
  assert (chunk ≠ []) as H3 by discriminate.
  assert (Write out1 (fmt_line chunk) = Ret (out2, 16, None)) as H4
    by reflexivity.
  destruct (fmtBytes_stops_at_error out pre chunk failed rest)
    as (_ & Hwritten & Hread).
  exact (conj H1 (conj H2 (conj H3 (conj H4
           (conj (Hwritten out1 out2 1 10 16 H1 H2 H3 H4) (Hread H1)))))).
Defined.

(** X3.  Let the reads keep to the 16 bytes of [buf], as [io.Reader] asks.
    Into a writer that takes every write, [fmtBytes] makes one write for each
    read that brought bytes, in order, and none for the others; the write for
    [rn] bytes has [6 * rn + 4] bytes and ends the line; and no write has
    more than 100 bytes, however long the input is. *)
Theorem fmtBytes_one_write_per_read (log : list bytes) (inp : reader) :
  fits_buf inp →
  ∃ bytesRead bytesWritten,
    fmtBytes (mkLogWriter log) inp =
      Ret (mkLogWriter (log ++ (fmt_line <$> reader_chunks inp)),
           (bytesRead, bytesWritten, reader_err inp))
    ∧ Forall2 (λ chunk p, chunk ≠ [] ∧ len p = 6 * len chunk + 4
                          ∧ last p = Some "010"%byte)
              (reader_chunks inp) (fmt_line <$> reader_chunks inp)
    ∧ Forall (λ p, len p <= 100) (fmt_line <$> reader_chunks inp).
Proof.
  intros Hfits.
  assert (∀ w p, ∃ r, Write (W := LogWriter) w p = Ret r) as Hret
    by (intros; by eexists).
  destruct (fmtBytes_loop_returns Hret (mkLogWriter log) inp 0 0)
    as [[w' [[br bw] err]] Hrun].
  exists br, bw. split_and!.
  - unfold fmtBytes. rewrite Hrun. do 2 f_equal; [|f_equal].
    + clear Hret Hfits. revert log br bw Hrun. generalize 0 at 1. generalize 0.
      induction inp as [|[chunk rerr] inp IH]; intros bw0 br0 log br bw Hrun.
      * simpl in Hrun. simplify_eq. csimpl. by rewrite app_nil_r.
      * cbn [fmtBytes_loop] in Hrun. destruct chunk as [|b chunk].
        -- rewrite fmt_chunk_nil in Hrun. csimpl in Hrun.
           destruct rerr as [[]|]; simplify_eq; csimpl;
             rewrite ?app_nil_r; try done.
           by apply IH in Hrun.
        -- rewrite fmt_chunk_cons in Hrun.
           unfold Write at 1, LogWriter_Writer in Hrun. csimpl in Hrun.
           destruct rerr as [[]|]; simplify_eq; csimpl; try done.
           apply IH in Hrun. rewrite Hrun. simpl. by rewrite <- app_assoc.
    + eapply (fmtBytes_loop_appends (λ w, mjoin (lw_writes w)) (λ _, True))
        in Hrun as (_ & _ & _ & _ & ->); try done.
      intros out p out' wn werr _. unfold Write, LogWriter_Writer.
      intros [= <- <- <-]. simpl. rewrite join_app. csimpl.
      by rewrite app_nil_r.
  - clear. induction inp as [|[chunk rerr] inp IH]; [constructor|].
    simpl. destruct chunk as [|b chunk].
    + destruct rerr; [constructor|done].
    + csimpl. constructor.
      * split; [done|]. split; [apply len_fmt_line|].
        rewrite fmt_line_eq, !app_assoc. apply last_snoc.
      * destruct rerr; [constructor|done].
  - apply Forall_fmap. apply fits_buf_lines in Hfits.
    eapply Forall_impl; [exact Hfits|]. done.
Qed.

Lemma fmtBytes_one_write_per_read_witness :
  let inp := [(bytes_of "0123456789abcdef", None); ([], None);
              (bytes_of "gh", Some EOF)] in
  fits_buf inp
  ∧ ∃ bytesRead bytesWritten,
      fmtBytes (mkLogWriter []) inp =
        Ret (mkLogWriter ([] ++ (fmt_line <$> reader_chunks inp)),
             (bytesRead, bytesWritten, reader_err inp))
      ∧ Forall2 (λ chunk p, chunk ≠ [] ∧ len p = 6 * len chunk + 4
                            ∧ last p = Some "010"%byte)
                (reader_chunks inp) (fmt_line <$> reader_chunks inp)
      ∧ Forall (λ p, len p <= 100) (fmt_line <$> reader_chunks inp).
Proof.
  intros inp.
  assert (fits_buf inp) as Hfits
    by (repeat constructor; vm_compute; discriminate).
  split; [exact Hfits|].
  exact (fmtBytes_one_write_per_read [] inp Hfits).
Defined.

Lemma len_lines_exact chunks :
  len (mjoin (fmt_line <$> chunks)) = 6 * len (mjoin chunks) + 4 * len chunks.
Proof.
  induction chunks as [|c chunks IH]; [done|].
  rewrite fmap_cons. change (mjoin (?x :: ?l)) with (x ++ mjoin l).
  rewrite !len_app, len_fmt_line, IH. unfold len. simpl length. lia.
Qed.

(** X4.  When [fmtBytes] writes into a [bytes.Buffer] and returns, its counts
    are exact and fit what the buffer got: [bytesRead] is the number of bytes
    that the reader gave, [bytesWritten] is six bytes for each of them and
    four for each read that brought some, the buffer has grown by
    [bytesWritten] bytes, and the error is the one of the reader, for a
    buffer never returns one. *)
Theorem fmtBytes_Buffer_counts (b b' : Buffer) (inp : reader)
    (bytesRead bytesWritten : Z) (err : option error) :
  fmtBytes b inp = Ret (b', (bytesRead, bytesWritten, err)) →
  len (buf_bytes b) <= max_int →
  bytesRead = len (reader_data inp)
  ∧ bytesWritten = 6 * bytesRead + 4 * len (reader_chunks inp)
  ∧ len (buf_bytes b') = len (buf_bytes b) + bytesWritten
  ∧ buf_bytes b' = buf_bytes b ++ mjoin (fmt_line <$> reader_chunks inp)
  ∧ err = reader_err inp.
Proof.
  intros Hrun Hroom. unfold fmtBytes in Hrun.
  eapply (fmtBytes_loop_appends buf_bytes
            (λ b0, len (buf_bytes b0) <= max_int))
    in Hrun as (Hr & Hc & -> & -> & ->); [|..|done|done|done].
  - pose proof (len_lines_exact (reader_chunks inp)) as Hlines.
    rewrite <- reader_data_chunks in Hlines.
    pose proof (len_nonneg (buf_bytes b)).
    pose proof (len_nonneg (reader_data inp)).
    pose proof (len_nonneg (reader_chunks inp)).
    assert (len (buf_bytes b') =
            len (buf_bytes b) + len (mjoin (fmt_line <$> reader_chunks inp)))
      as Hlen by (by rewrite Hc, len_app).
    rewrite !Z.add_0_l.
    rewrite !wrap_int_id by (unfold in_int, min_int, max_int in *; lia).
    split_and!; try done; lia.
  - intros out p out' wn werr Hr Hw.
    pose proof (Buffer_write_room _ _ _ _ _ Hw) as [_ Hr'].
    pose proof (Buffer_room_max out).
    apply Buffer_appends in Hw as (_ & ? & ? & ?).
    split_and!; try done. lia.
Qed.

Lemma fmtBytes_Buffer_counts_witness :
  let b := mkBuffer (bytes_of "// x") 1000 in
  let inp := [(["001"; "002"]%byte, None); ([], None); (["003"]%byte, Some EOF)] in
  let b' := mkBuffer (bytes_of "// x" ++ fmt_line ["001"; "002"]%byte
                      ++ fmt_line ["003"%byte]) 1000 in
  fmtBytes b inp = Ret (b', (3, 26, None))
  ∧ len (buf_bytes b) <= max_int
  ∧ 3 = len (reader_data inp)
  ∧ 26 = 6 * 3 + 4 * len (reader_chunks inp)
  ∧ len (buf_bytes b') = len (buf_bytes b) + 26
  ∧ buf_bytes b' = buf_bytes b ++ mjoin (fmt_line <$> reader_chunks inp)
  ∧ None = reader_err inp.
Proof.
  intros b inp b'.
  assert (fmtBytes b inp = Ret (b', (3, 26, None))) as H1 by reflexivity.
  assert (len (buf_bytes b) <= max_int) as H2 by (by vm_compute).
  split; [exact H1|]. split; [exact H2|].
  exact (fmtBytes_Buffer_counts b b' inp 3 26 None H1 H2).
Defined.

Lemma byte_literal_alphabet b : Forall (λ c, c ∈ fmt_alphabet) (byte_literal b).
Proof.
  apply (bool_decide_unpack _). destruct b; vm_compute; reflexivity.
Qed.

Lemma fmt_line_alphabet chunk : Forall (λ c, c ∈ fmt_alphabet) (fmt_line chunk).
Proof.
  rewrite fmt_line_eq. rewrite !Forall_app. split_and!.
  - apply (bool_decide_unpack _). reflexivity.
  - induction chunk as [|b chunk IH]; [constructor|].
    rewrite fmap_cons. change (mjoin (?x :: ?l)) with (x ++ mjoin l).
    apply Forall_app. split; [apply byte_literal_alphabet|done].
  - apply (bool_decide_unpack _). reflexivity.
Qed.

Lemma lines_alphabet chunks :
  Forall (λ c, c ∈ fmt_alphabet) (mjoin (fmt_line <$> chunks)).
Proof.
  induction chunks as [|chunk chunks IH]; [constructor|].
  rewrite fmap_cons. change (mjoin (?x :: ?l)) with (x ++ mjoin l).
  apply Forall_app. split; [apply fmt_line_alphabet|done].
Qed.

(** X5.  The text that [fmtBytes] writes is made of blanks, line ends,
    commas, the letter [x] and the digits [0] to [9] and [a] to [f], whatever
    the bytes of the input are: no byte of the input reaches the generated
    file as it is, and the text holds no slash, no quote and no brace. *)
Theorem fmtBytes_alphabet (inp : reader) :
  ∃ text bytesRead bytesWritten,
    fmtBytes (mkScriptWriter [] []) inp =
      Ret (mkScriptWriter text [], (bytesRead, bytesWritten, reader_err inp))
    ∧ Forall (λ c, c ∈ fmt_alphabet) text
    ∧ Forall (λ c, c ∉ "034"%byte :: bytes_of "/{}") text.
Proof.
  destruct (fmtBytes_accepting inp []) as [bw Hrun].
  eexists _, _, bw. split; [exact Hrun|]. csimpl.
  pose proof (lines_alphabet (reader_chunks inp)) as Halpha.
  split; [done|].
  eapply Forall_impl; [exact Halpha|]. intros c Hc.
  assert (Forall (λ c, c ∉ "034"%byte :: bytes_of "/{}") fmt_alphabet) as Hgood
    by (apply (bool_decide_unpack _); reflexivity).
  by apply (proj1 (Forall_forall _ _) Hgood).
Qed.

(** ** [generate]: its errors, its successes *)

Lemma process_file_fails fs st name err :
  process_file fs st name = Ret (inl err) →
  (∃ cause, fs_open fs name = inl cause
            ∧ err = Errorf "Failed to read" name cause)
  ∨ (∃ f cause, fs_open fs name = inr f
                ∧ reader_err (f_reader f) = Some cause
                ∧ err = Errorf "Failed to process" (recorded_name name) cause).
Proof.
  unfold process_file. intros Hrun.
  destruct (Write (databuf st) (bytes_of (comment_line name)))
    as [[[databuf1 wn] werr]|] eqn:Ew; [|done].
  csimpl in Hrun.
  pose proof (Buffer_write_room _ _ _ _ _ Ew) as [_ Hr1].
  pose proof (Buffer_room_max (databuf st)).
  destruct (fs_open fs name) as [cause|f].
  { left. exists cause. by simplify_eq. }
  destruct (fmtBytes databuf1 (f_reader f)) as [[databuf2 [[br bw] err']]|] eqn:Ef;
    [|done].
  csimpl in Hrun.
  apply fmtBytes_Buffer in Ef as (_ & _ & _ & _ & ->); [|lia].
  destruct (reader_err (f_reader f)) as [cause|] eqn:Eerr; [|done].
  right. exists f, cause. by simplify_eq.
Qed.

Lemma process_names_fails fs st names err :
  process_names fs st names = Ret (inl err) →
  ∃ path, path ∈ names
    ∧ ((∃ cause, fs_open fs path = inl cause
                 ∧ err = Errorf "Failed to read" path cause)
       ∨ (∃ f cause, fs_open fs path = inr f
                     ∧ reader_err (f_reader f) = Some cause
                     ∧ err = Errorf "Failed to process" (recorded_name path)
                               cause)).
Proof.
  revert st. induction names as [|name names IH]; intros st; [done|].
  simpl. destruct (process_file fs st name) as [[err'|st1]|] eqn:Efile;
    csimpl; [| |done].
  - intros [= ->]. exists name. split; [by left|].
    by apply process_file_fails in Efile.
  - intros (path & Hin & Hpath)%IH. exists path. split; [by right|done].
Qed.

Lemma process_globs_fails fs st globs err :
  process_globs fs st globs = Ret (inl err) →
  (err = ErrBadPattern
   ∧ ∃ pattern, pattern ∈ globs ∧ fs_glob fs pattern = None)
  ∨ (∃ pattern names path cause,
       pattern ∈ globs ∧ fs_glob fs pattern = Some names ∧ path ∈ names
       ∧ fs_open fs path = inl cause
       ∧ err = Errorf "Failed to read" path cause)
  ∨ (∃ pattern names path f cause,
       pattern ∈ globs ∧ fs_glob fs pattern = Some names ∧ path ∈ names
       ∧ fs_open fs path = inr f
       ∧ reader_err (f_reader f) = Some cause
       ∧ err = Errorf "Failed to process" (recorded_name path) cause).
Proof.
  revert st. induction globs as [|pattern globs IH]; intros st; [done|].
  simpl. destruct (fs_glob fs pattern) as [names|] eqn:Hglob.
  - destruct (process_names fs st names) as [[err''|st1]|] eqn:Enames;
      csimpl; [| |done].
    + intros [= ->].
      apply process_names_fails in Enames
        as (path & Hin & [(cause & Hopen & ->)|(f & cause & Hopen & Hread & ->)]).
      * right. left. exists pattern, names, path, cause.
        split_and!; try done. by left.
      * right. right. exists pattern, names, path, f, cause.
        split_and!; try done. by left.
    + intros Hrest%IH.
      destruct Hrest as [(-> & p & Hp & Hbad)|[Hopen|Hread]].
      * left. split; [done|]. exists p. split; [by right|done].
      * destruct Hopen as (p & ns & path & cause & Hp & ?).
        right. left. exists p, ns, path, cause.
        split; [by right|done].
      * destruct Hread as (p & ns & path & f & cause & Hp & ?).
        right. right. exists p, ns, path, f, cause.
        split; [by right|done].
  - intros [= <-]. left. split; [done|]. exists pattern.
    split; [by left|done].
Qed.

(** X6.  Every error that [generate] returns is one of four, and with each of
    them nothing has been done to [w]: the error of [filepath.Glob] for a
    pattern of the list that is malformed; [No files found], when all the
    patterns are well formed and match nothing; [Failed to read], with the
    path as it was matched and the error of [os.Open], for a matched path
    that cannot be opened; [Failed to process], with the name as it is
    recorded and the error of the read, for a matched file that cannot be
    read to its end. *)
Theorem generate_errors rt fs incHTTP pkg prefix globs ops err :
  generate rt fs incHTTP pkg prefix globs = Ret (ops, Some err) →
  ops = []
  ∧ ((err = ErrBadPattern
      ∧ ∃ pattern, pattern ∈ globs ∧ fs_glob fs pattern = None)
     ∨ (err = ErrNew "No files found" ∧ resolve fs globs = Some [])
     ∨ (∃ pattern names path cause,
          pattern ∈ globs ∧ fs_glob fs pattern = Some names ∧ path ∈ names
          ∧ fs_open fs path = inl cause
          ∧ err = Errorf "Failed to read" path cause)
     ∨ (∃ pattern names path f cause,
          pattern ∈ globs ∧ fs_glob fs pattern = Some names ∧ path ∈ names
          ∧ fs_open fs path = inr f
          ∧ reader_err (f_reader f) = Some cause
          ∧ err = Errorf "Failed to process" (recorded_name path) cause)).
Proof.
  unfold generate.
  destruct (process_globs fs (init_state rt) globs) as [[err'|st]|] eqn:Eglobs;
    csimpl; [| |done].
  - intros [= <- ->]. split; [done|].
    apply process_globs_fails in Eglobs as [?|[?|?]]; auto.
  - destruct (reached_globs fs [] _ _ _ (reached_init fs rt) Eglobs)
      as (names & Hres & _ & Hst).
    destruct (fcount st =? 0) eqn:Ecount; [|done].
    intros [= <- <-]. split; [done|]. right. left. split; [done|].
    rewrite Hres. f_equal.
    apply Z.eqb_eq in Ecount. rewrite (reached_fcount _ _ _ Hst) in Ecount.
    destruct names; [done|]. unfold len in Ecount. simpl in Ecount. lia.
Qed.

Lemma generate_errors_witness :
  let globs := ["a.txt"; "broken.txt"; "["] in
  let err := ErrNew "Failed to process broken.txt: input/output error" in
  generate Example.rt Demo.fs false "main" "assets" globs = Ret ([], Some err)
  ∧ ([] : list w_op) = []
  ∧ ((err = ErrBadPattern
      ∧ ∃ pattern, pattern ∈ globs ∧ fs_glob Demo.fs pattern = None)
     ∨ (err = ErrNew "No files found" ∧ resolve Demo.fs globs = Some [])
     ∨ (∃ pattern names path cause,
          pattern ∈ globs ∧ fs_glob Demo.fs pattern = Some names ∧ path ∈ names
          ∧ fs_open Demo.fs path = inl cause
          ∧ err = Errorf "Failed to read" path cause)
     ∨ (∃ pattern names path f cause,
          pattern ∈ globs ∧ fs_glob Demo.fs pattern = Some names ∧ path ∈ names
          ∧ fs_open Demo.fs path = inr f
          ∧ reader_err (f_reader f) = Some cause
          ∧ err = Errorf "Failed to process" (recorded_name path) cause)).
Proof.
  intros globs err.
  assert (generate Example.rt Demo.fs false "main" "assets" globs
          = Ret ([], Some err)) as Hrun by (vm_compute; reflexivity).
  split; [exact Hrun|].
  exact (generate_errors Example.rt Demo.fs false "main" "assets" globs [] err
           Hrun).
Defined.

(** The path goes into [Failed to read] as it was matched, with its
    separator, and into [Failed to process] as it is recorded. *)
Example unreadable_file_errors :
  generate Example.rt Demo.fs false "main" "assets" ["a.txt"; "locked.txt"]
    = Ret ([], Some (ErrNew "Failed to read locked.txt: permission denied")).
Proof. by vm_compute. Qed.

(** X7.  What [generate] does depends on the patterns only through the paths
    that they give, in order: two lists of patterns that give the same paths
    in the same order, however they group them, give the same run. *)
Theorem generate_by_names rt fs incHTTP pkg prefix globs globs' names :
  resolve fs globs = Some names →
  resolve fs globs' = Some names →
  generate rt fs incHTTP pkg prefix globs =
  generate rt fs incHTTP pkg prefix globs'.
Proof.
  intros Hres Hres'. unfold generate.
  by rewrite (process_globs_names _ _ _ _ Hres),
             (process_globs_names _ _ _ _ Hres').
Qed.

Lemma generate_by_names_witness :
  let names := ["a.txt"; "b.txt"] in
  resolve Example.fs ["a.txt"; "*.png"; "b.txt"] = Some names
  ∧ resolve Example.fs ["*.txt"] = Some names
  ∧ generate Example.rt Example.fs true "web" "Assets" ["a.txt"; "*.png"; "b.txt"]
    = generate Example.rt Example.fs true "web" "Assets" ["*.txt"].
Proof.
  intros names.
  assert (resolve Example.fs ["a.txt"; "*.png"; "b.txt"] = Some names) as H1
    by reflexivity.
  assert (resolve Example.fs ["*.txt"] = Some names) as H2 by reflexivity.
  split; [exact H1|]. split; [exact H2|].
  exact (generate_by_names Example.rt Example.fs true "web" "Assets"
           ["a.txt"; "*.png"; "b.txt"] ["*.txt"] names H1 H2).
Defined.

(** X8.  [generate] returns, and without error, whenever the patterns are
    well formed, give at least one path, every path names a file that can be
    opened and read to its end, and the text made for the array (a comment
    and the lines of [fmtBytes] per path) fits in memory: nothing else makes
    it fail or panic, and what it then does to [w] is [render] on the state
    that the loops reach. *)
Theorem generate_succeeds rt fs incHTTP pkg prefix globs names :
  resolve fs globs = Some names →
  names ≠ [] →
  Forall (readable fs) names →
  len (mjoin (file_block fs <$> names)) <= Z.min (rt_mem rt) max_int →
  ∃ st,
    process_globs fs (init_state rt) globs = Ret (inr st)
    ∧ generate rt fs incHTTP pkg prefix globs =
        Ret (render rt incHTTP pkg prefix st, None)
    ∧ fcount st = len names
    ∧ filenames st = recorded_name <$> names
    ∧ buf_bytes (databuf st) = mjoin (file_block fs <$> names)
    ∧ offset st = total_size fs names.
Proof.
  intros Hres Hne Hread Hroom.
  destruct (generate_returns rt fs incHTTP pkg prefix globs names
              Hres Hne Hread Hroom) as (st & Hrun & Hst & Hgen).
  exists st. split_and!; try done.
  - apply (reached_fcount _ _ _ Hst).
  - by rewrite (reached_filenames _ _ _ Hst), (recorded_names _ _ _ Hst).
  - apply (reached_databuf _ _ _ Hst).
  - pose proof (contiguous_sum _ _ _ (reached_contiguous _ _ _ Hst)) as Hsum.
    by rewrite (sum_sizes_recorded _ _ _ (reached_recorded _ _ _ Hst)) in Hsum.
Qed.

Lemma generate_succeeds_witness :
  let names := ["a.txt"; "b.txt"; "/a.txt"] in
  resolve Example.fs ["*.txt"; "*.png"; "/a.txt"] = Some names
  ∧ names ≠ []
  ∧ Forall (readable Example.fs) names
  ∧ len (mjoin (file_block Example.fs <$> names))
      <= Z.min (rt_mem Example.rt) max_int
  ∧ ∃ st,
      process_globs Example.fs (init_state Example.rt)
        ["*.txt"; "*.png"; "/a.txt"] = Ret (inr st)
      ∧ generate Example.rt Example.fs true "web" "Assets"
          ["*.txt"; "*.png"; "/a.txt"] =
          Ret (render Example.rt true "web" "Assets" st, None)
      ∧ fcount st = len names
      ∧ filenames st = recorded_name <$> names
      ∧ buf_bytes (databuf st) = mjoin (file_block Example.fs <$> names)
      ∧ offset st = total_size Example.fs names.
Proof.
  intros names.
  assert (resolve Example.fs ["*.txt"; "*.png"; "/a.txt"] = Some names) as H1
    by reflexivity.
  assert (names ≠ []) as H2 by done.
  assert (Forall (readable Example.fs) names) as H3.
  { repeat constructor; eexists; (split; [reflexivity|reflexivity]). }
  assert (len (mjoin (file_block Example.fs <$> names))
          <= Z.min (rt_mem Example.rt) max_int) as H4
    by (vm_compute; discriminate).
  split_and!; [exact H1|exact H2|exact H3|exact H4|].
  exact (generate_succeeds Example.rt Example.fs true "web" "Assets"
           ["*.txt"; "*.png"; "/a.txt"] names H1 H2 H3 H4).
Defined.

(** ** The ranges of the files in [data] *)

Lemma contiguous_ordered start es stop i j e e' :
  contiguous start es stop → (i < j)%nat →
  es !! i = Some e → es !! j = Some e' →
  entry_offset e + entry_size e <= entry_offset e'.
Proof.
  revert start i j. induction es as [|e0 es IH]; intros start i j; [done|].
  simpl. intros (Ho & Hs & Hes) Hij Hi Hj.
  destruct j as [|j]; [lia|]. simpl in Hj. destruct i as [|i].
  - simpl in Hi. simplify_eq.
    apply list_elem_of_lookup_2 in Hj.
    apply (contiguous_within _ _ _ _ Hes) in Hj. lia.
  - simpl in Hi. apply (IH _ i j Hes); [lia|done|done].
Qed.

(** X9.  After a run without error, two entries that [filemap] holds under
    different names have ranges in [data] that do not overlap: one ends at or
    before the offset where the other begins; and every entry of [filemap]
    has a range within the [DataSize] bytes of the array, with an offset and
    a size that are not negative. *)
Theorem filemap_ranges_disjoint rt fs incHTTP pkg prefix globs ops :
  generate rt fs incHTTP pkg prefix globs = Ret (ops, None) →
  ∃ st,
    process_globs fs (init_state rt) globs = Ret (inr st)
    ∧ ops = render rt incHTTP pkg prefix st
    ∧ (∀ n e, filemap st !! n = Some e →
              0 <= entry_offset e ∧ 0 <= entry_size e
              ∧ entry_offset e + entry_size e <= offset st)
    ∧ (∀ n1 n2 e1 e2,
         filemap st !! n1 = Some e1 → filemap st !! n2 = Some e2 → n1 ≠ n2 →
         entry_offset e1 + entry_size e1 <= entry_offset e2
         ∨ entry_offset e2 + entry_size e2 <= entry_offset e1).
Proof.
  intros (names & st & Hres & _ & Hrun & Hst & ->)%generate_ok.
  pose proof (reached_contiguous _ _ _ Hst) as Hcont.
  exists st. split_and!; try done.
  - intros n e Hin%(lookup_recorded _ _ _ _ _ Hst).
    apply (list_elem_of_fmap_2 snd) in Hin.
    apply (contiguous_within _ _ _ _ Hcont) in Hin. simpl in Hin. lia.
  - intros n1 n2 e1 e2 H1%(lookup_recorded _ _ _ _ _ Hst)
      H2%(lookup_recorded _ _ _ _ _ Hst) Hne.
    apply list_elem_of_lookup_1 in H1 as [i Hi].
    apply list_elem_of_lookup_1 in H2 as [j Hj].
    assert ((recorded st).*2 !! i = Some e1) as Hi'
      by by rewrite list_lookup_fmap, Hi.
    assert ((recorded st).*2 !! j = Some e2) as Hj'
      by by rewrite list_lookup_fmap, Hj.
    destruct (lt_eq_lt_dec i j) as [[Hlt| ->]|Hlt].
    + left. by eapply contiguous_ordered.
    + rewrite Hi in Hj. by simplify_eq.
    + right. by eapply contiguous_ordered.
Qed.

Lemma filemap_ranges_disjoint_witness :
  let ops := ops_of Example.run_twice in
  Example.run_twice = Ret (ops, None)
  ∧ ∃ st,
      process_globs Example.fs (init_state Example.rt) ["a.txt"; "*.txt"]
        = Ret (inr st)
      ∧ ops = render Example.rt false "main" "assets" st
      ∧ (∀ n e, filemap st !! n = Some e →
                0 <= entry_offset e ∧ 0 <= entry_size e
                ∧ entry_offset e + entry_size e <= offset st)
      ∧ (∀ n1 n2 e1 e2,
           filemap st !! n1 = Some e1 → filemap st !! n2 = Some e2 → n1 ≠ n2 →
           entry_offset e1 + entry_size e1 <= entry_offset e2
           ∨ entry_offset e2 + entry_size e2 <= entry_offset e1).
Proof.
  intros ops.
  assert (Example.run_twice = Ret (ops, None)) as Hrun
    by (vm_compute; reflexivity).
  split; [exact Hrun|].
  exact (filemap_ranges_disjoint Example.rt Example.fs false "main" "assets"
           ["a.txt"; "*.txt"] ops Hrun).
Defined.

(** ** [Open] and the methods of the file that it returns *)

(** X10.  In the program generated by a run without error, [Open] does not
    panic for any name: it returns [os.ErrNotExist] exactly for the names
    that, without one leading separator, are not recorded for any path, and
    for every other name a file whose [Stat] gives, without error, an info
    whose [Size] is the number of bytes that the file's reader holds, whose
    [Name] is [path.Base] of the stripped name, whose [Mode] is [os.ModePerm]
    and which is no directory; [Close] on the file returns no error and
    [Readdir] the error [Denied]. *)
Theorem Open_never_panics rt fs incHTTP pkg prefix globs ops :
  generate rt fs incHTTP pkg prefix globs = Ret (ops, None) →
  ∃ names st,
    resolve fs globs = Some names
    ∧ process_globs fs (init_state rt) globs = Ret (inr st)
    ∧ ops = render rt incHTTP pkg prefix st
    ∧ ∀ base data filename,
        len data = offset st →
        match Generated.Open base (embedded st data) filename with
        | Panic => False
        | Ret (inl err) =>
            err = ErrNotExist
            ∧ recorded_name filename ∉ recorded_name <$> names
        | Ret (inr file) =>
            recorded_name filename ∈ recorded_name <$> names
            ∧ (∃ info, GeneratedMethods.Stat file = (info, None)
                 ∧ GeneratedMethods.Size info = GeneratedMethods.Len file
                 ∧ GeneratedMethods.Name info = base (recorded_name filename)
                 ∧ GeneratedMethods.Mode info = Generated.ModePerm
                 ∧ GeneratedMethods.IsDir info = false)
            ∧ GeneratedMethods.Close file = None
            ∧ ∀ count, GeneratedMethods.Readdir file count =
                         (None, Some (ErrNew "Denied"))
        end.
Proof.
  intros (names & st & Hres & _ & Hrun & Hst & ->)%generate_ok.
  exists names, st. split_and!; try done.
  intros base data filename Hdata.
  destruct (filemap st !! recorded_name filename) as [e|] eqn:He.
  - pose proof (lookup_recorded _ _ _ _ _ Hst He) as Hin.
    pose proof (list_elem_of_fmap_2 fst _ _ Hin) as Hname.
    rewrite (recorded_names _ _ _ Hst) in Hname. simpl in Hname.
    apply (list_elem_of_fmap_2 snd) in Hin. simpl in Hin.
    apply (contiguous_within _ _ _ _ (reached_contiguous _ _ _ Hst)) in Hin.
    pose proof (offset_max _ _ _ Hst).
    rewrite (Open_found base (embedded st data) filename e);
      simpl; try lia; [|done].
    split_and!; try done.
    eexists. split; [reflexivity|]. split_and!; try done.
    unfold GeneratedMethods.Size, GeneratedMethods.Len, len. simpl.
    rewrite length_take, length_drop. unfold len in Hdata. lia.
  - unfold Generated.Open. fold (recorded_name filename). simpl. rewrite He.
    split; [done|]. intros Hname.
    rewrite <- (recorded_names _ _ _ Hst), <- (reached_filenames _ _ _ Hst)
      in Hname.
    destruct (lookup_filenames _ _ _ _ Hst Hname) as [e' He'].
    by rewrite He in He'.
Qed.

Lemma Open_never_panics_witness :
  let ops := ops_of Example.run in
  Example.run = Ret (ops, None)
  ∧ ∃ names st,
      resolve Example.fs ["a.txt"; "b.txt"] = Some names
      ∧ process_globs Example.fs (init_state Example.rt) ["a.txt"; "b.txt"]
          = Ret (inr st)
      ∧ ops = render Example.rt false "main" "assets" st
      ∧ ∀ base data filename,
          len data = offset st →
          match Generated.Open base (embedded st data) filename with
          | Panic => False
          | Ret (inl err) =>
              err = ErrNotExist
              ∧ recorded_name filename ∉ recorded_name <$> names
          | Ret (inr file) =>
              recorded_name filename ∈ recorded_name <$> names
              ∧ (∃ info, GeneratedMethods.Stat file = (info, None)
                   ∧ GeneratedMethods.Size info = GeneratedMethods.Len file
                   ∧ GeneratedMethods.Name info = base (recorded_name filename)
                   ∧ GeneratedMethods.Mode info = Generated.ModePerm
                   ∧ GeneratedMethods.IsDir info = false)
              ∧ GeneratedMethods.Close file = None
              ∧ ∀ count, GeneratedMethods.Readdir file count =
                           (None, Some (ErrNew "Denied"))
          end.
Proof.
  intros ops.
  assert (Example.run = Ret (ops, None)) as Hrun by (vm_compute; reflexivity).
  split; [exact Hrun|].
  exact (Open_never_panics Example.rt Example.fs false "main" "assets"
           ["a.txt"; "b.txt"] ops Hrun).
Defined.

(** X11.  When no processed path begins with two separators, every name that
    [Filenames] lists in the generated program can be opened: [Open] on it
    returns a file.  ([generate] strips one separator from each path and
    [Open] one from each name, so the name recorded for the path [//a.txt],
    which is [/a.txt], is listed and is not found: see
    [listed_name_not_found].) *)
Theorem listed_names_open rt fs incHTTP pkg prefix globs ops :
  generate rt fs incHTTP pkg prefix globs = Ret (ops, None) →
  ∃ names st,
    resolve fs globs = Some names
    ∧ process_globs fs (init_state rt) globs = Ret (inr st)
    ∧ ops = render rt incHTTP pkg prefix st
    ∧ (Forall (λ path, HasPrefix path "//" = false) names →
       ∀ base data name,
         len data = offset st →
         name ∈ Generated.Filenames (embedded st data) →
         ∃ file, Generated.Open base (embedded st data) name = Ret (inr file)).
Proof.
  intros (names & st & Hres & _ & Hrun & Hst & ->)%generate_ok.
  exists names, st. split_and!; try done.
  intros Hpaths base data name Hdata Hname.
  unfold Generated.Filenames, embedded in Hname. simpl in Hname.
  rewrite sort_Strings_Permutation in Hname.
  assert (recorded_name name = name) as Hrel.
  { rewrite (reached_filenames _ _ _ Hst), (recorded_names _ _ _ Hst) in Hname.
    apply list_elem_of_fmap in Hname as (path & -> & Hpath).
    rewrite Forall_forall in Hpaths.
    apply TrimPrefix_relative, recorded_name_relative, Hpaths, Hpath. }
  destruct (lookup_filenames _ _ _ _ Hst Hname) as [e He].
  pose proof (lookup_recorded _ _ _ _ _ Hst He) as Hin.
  apply (list_elem_of_fmap_2 snd) in Hin. simpl in Hin.
  apply (contiguous_within _ _ _ _ (reached_contiguous _ _ _ Hst)) in Hin.
  pose proof (offset_max _ _ _ Hst).
  eexists. apply Open_found with (e := e); simpl; try lia.
  by rewrite Hrel.
Qed.

Lemma listed_names_open_witness :
  let ops := ops_of Example.run in
  Example.run = Ret (ops, None)
  ∧ ∃ names st,
      resolve Example.fs ["a.txt"; "b.txt"] = Some names
      ∧ process_globs Example.fs (init_state Example.rt) ["a.txt"; "b.txt"]
          = Ret (inr st)
      ∧ ops = render Example.rt false "main" "assets" st
      ∧ Forall (λ path, HasPrefix path "//" = false) names
      ∧ ∀ base data name,
          len data = offset st →
          name ∈ Generated.Filenames (embedded st data) →
          ∃ file,
            Generated.Open base (embedded st data) name = Ret (inr file).
Proof.
  intros ops.
  assert (Example.run = Ret (ops, None)) as Hrun by (vm_compute; reflexivity).
  split; [exact Hrun|].
  destruct (listed_names_open Example.rt Example.fs false "main" "assets"
              ["a.txt"; "b.txt"] ops Hrun)
    as (names & st & Hres & Hglobs & Hops & Hopen).
  assert (Some names = Some ["a.txt"; "b.txt"]) as Hnames
    by (rewrite <- Hres; vm_compute; reflexivity).
  assert (Forall (λ path, HasPrefix path "//" = false) names) as Hpaths.
  { injection Hnames as ->. repeat constructor. }
  exists names, st.
  exact (conj Hres (conj Hglobs (conj Hops (conj Hpaths (Hopen Hpaths))))).
Defined.

(** The path [//a.txt] is recorded as [/a.txt]; [Filenames] lists that name
    and [Open] looks for [a.txt], which is no key. *)
Example listed_name_not_found :
  ∃ st,
    process_globs Demo.fs (init_state Example.rt) ["//a.txt"] = Ret (inr st)
    ∧ generate Example.rt Demo.fs false "main" "assets" ["//a.txt"]
        = Ret (render Example.rt false "main" "assets" st, None)
    ∧ Generated.Filenames (embedded st ["x"%byte]) = ["/a.txt"]
    ∧ len ["x"%byte] = offset st
    ∧ Generated.Open Example.base (embedded st ["x"%byte]) "/a.txt"
        = Ret (inl ErrNotExist).
Proof. eexists. split; [by vm_compute|]. by vm_compute. Qed.

(** ** From the files to the array and back *)

Lemma bytes_of_app s t : bytes_of (s +:+ t) = bytes_of s ++ bytes_of t.
Proof.
  unfold bytes_of, list_byte_of_string. induction s as [|c s IH]; [done|].
  change (String c s +:+ t) with (String c (s +:+ t)).
  cbn [list_ascii_of_string map app]. by rewrite IH.
Qed.

Lemma bytes_of_comment_line name :
  bytes_of (comment_line name) =
  "010"%byte :: bytes_of "    //" ++ " "%byte :: bytes_of name ++ ["010"%byte].
Proof.
  unfold comment_line, cat. simpl foldr.
  change (nl +:+ ?x) with (String "010" x).
  change (" " +:+ ?x) with (String " " x).
  change ("    //" +:+ ?x)
    with (String " " (String " " (String " " (String " "
            (String "/" (String "/" x)))))).
  change (bytes_of (String ?a (String ?b (String ?c (String ?d (String ?e
            (String ?f (String ?g (String ?h ?x)))))))))
    with (byte_of_ascii a :: byte_of_ascii b :: byte_of_ascii c
          :: byte_of_ascii d :: byte_of_ascii e :: byte_of_ascii f
          :: byte_of_ascii g :: byte_of_ascii h :: bytes_of x).
  by rewrite bytes_of_app.
Qed.

Lemma uncomment_to_line_end l rest :
  "010"%byte ∉ l →
  uncomment Comment (l ++ "010"%byte :: rest) = "010"%byte :: uncomment Code rest.
Proof.
  induction l as [|c l IH]; intros Hl; [done|].
  apply not_elem_of_cons in Hl as [Hc Hl]. simpl.
  destruct (Byte.eqb c "010") eqn:E; [|by apply IH].
  apply Byte.byte_dec_bl in E. by subst.
Qed.

Lemma uncomment_plain l rest :
  "/"%byte ∉ l → uncomment Code (l ++ rest) = l ++ uncomment Code rest.
Proof.
  induction l as [|c l IH]; intros Hl; [done|].
  apply not_elem_of_cons in Hl as [Hc Hl]. simpl.
  destruct (Byte.eqb c "/") eqn:E.
  - apply Byte.byte_dec_bl in E. by subst.
  - by rewrite IH.
Qed.

Lemma lines_no_slash chunks : "/"%byte ∉ mjoin (fmt_line <$> chunks).
Proof.
  intros Hin.
  pose proof (lines_alphabet chunks) as Hall. rewrite Forall_forall in Hall.
  apply Hall in Hin. revert Hin. apply (bool_decide_unpack _). reflexivity.
Qed.

Lemma uncomment_comment_start x :
  uncomment Code ("010"%byte :: bytes_of "    //" ++ x) =
  "010"%byte :: bytes_of "    " ++ uncomment Comment x.
Proof. done. Qed.

Lemma uncomment_file_block fs path rest :
  one_line path →
  uncomment Code (file_block fs path ++ rest) =
  "010"%byte :: bytes_of "    " ++ "010"%byte
    :: file_lines fs path ++ uncomment Code rest.
Proof.
  intros Hpath.
  assert (file_block fs path ++ rest =
          "010"%byte :: bytes_of "    //" ++ (" "%byte :: bytes_of path)
            ++ "010"%byte :: file_lines fs path ++ rest) as ->.
  { unfold file_block. fold (file_lines fs path).
    rewrite bytes_of_comment_line. by simplify_list_eq. }
  rewrite uncomment_comment_start, uncomment_to_line_end.
  - rewrite uncomment_plain; [done|].
    unfold file_lines. destruct (fs_open fs path); [apply not_elem_of_nil|].
    apply lines_no_slash.
  - apply not_elem_of_cons. split; [done|exact Hpath].
Qed.

Lemma tokens_lines_app chunks rest :
  tokens (mjoin (fmt_line <$> chunks) ++ rest) =
  (token <$> mjoin chunks) ++ tokens rest.
Proof.
  induction chunks as [|c chunks IH]; [done|].
  rewrite fmap_cons. change (mjoin (?x :: ?l)) with (x ++ mjoin l).
  rewrite <- app_assoc, tokens_fmt_line, IH, fmap_app, app_assoc. done.
Qed.

Lemma tokens_file_lines fs path rest :
  tokens (file_lines fs path ++ rest) =
  (token <$> file_data fs path) ++ tokens rest.
Proof.
  unfold file_lines, file_data. destruct (fs_open fs path) as [|f]; [done|].
  by rewrite tokens_lines_app, reader_data_chunks.
Qed.

Lemma tokens_blocks fs names :
  Forall one_line names →
  tokens (uncomment Code (mjoin (file_block fs <$> names))) =
  token <$> mjoin (file_data fs <$> names).
Proof.
  induction 1 as [|path names Hpath _ IH]; [done|].
  rewrite !fmap_cons. change (mjoin (?x :: ?l)) with (x ++ mjoin l).
  rewrite uncomment_file_block by done.
  change (tokens ("010"%byte :: bytes_of "    " ++ "010"%byte :: ?x))
    with (tokens x).
  by rewrite tokens_file_lines, IH, fmap_app.
Qed.

Lemma decode_tokens l : mapM parse_token (token <$> l) = Some l.
Proof.
  apply mapM_Some. induction l as [|b l IH]; csimpl; constructor; [|done].
  apply parse_token_literal.
Qed.

Lemma len_files fs names :
  len (mjoin (file_data fs <$> names)) = total_size fs names.
Proof.
  induction names as [|path names IH]; [done|].
  rewrite fmap_cons. change (mjoin (?x :: ?l)) with (x ++ mjoin l).
  rewrite len_app, IH. done.
Qed.

(** X12.  After a run without error in which no path has a line end in it,
    the text that [generate] puts between [data: [DataSize]byte{] and [},],
    read as Go reads it (the comments with the paths dropped, the literals
    taken in order), lists exactly [DataSize] elements, and they are the
    bytes of the files, one file after the other in the order in which the
    paths were processed.  That text is written to [w] in one piece, right
    after the line that opens the array. *)
Theorem array_holds_the_files rt fs incHTTP pkg prefix globs ops :
  generate rt fs incHTTP pkg prefix globs = Ret (ops, None) →
  ∃ names st,
    resolve fs globs = Some names
    ∧ process_globs fs (init_state rt) globs = Ret (inr st)
    ∧ ops = render rt incHTTP pkg prefix st
    ∧ (∃ before after,
         ops = before
               ++ [Wr (cat ["    data: ["; itoa (offset st); "]byte{"; nl]);
                   Wr (string_of_list_byte (buf_bytes (databuf st)));
                   Wr (cat ["    },"; nl])]
               ++ after)
    ∧ (Forall one_line names →
       go_elements (buf_bytes (databuf st)) =
         Some (mjoin (file_data fs <$> names))
       ∧ len (mjoin (file_data fs <$> names)) = offset st
       ∧ go_array (offset st) (buf_bytes (databuf st)) =
           Some (mjoin (file_data fs <$> names))).
Proof.
  intros (names & st & Hres & Hne & Hrun & Hst & ->)%generate_ok.
  exists names, st. split_and!; try done.
  - unfold render, render_closing, WriteTo.
    destruct (buf_bytes (databuf st)) as [|c text] eqn:Etext.
    + pose proof (reached_room _ _ _ Hst) as [Hroom _].
      pose proof (offset_max _ _ _ Hst).
      rewrite (reached_fcount _ _ _ Hst), Etext, len_nil in Hroom.
      destruct names; [done|]. unfold len in Hroom. simpl in Hroom. lia.
    + exists (render_header rt incHTTP pkg prefix st
              :: render_opening rt prefix st ++ render_entries rt st
                 ++ [Wr (cat ["    },"; nl])]),
             [Wr (cat ["}"; nl]); Cl].
      simpl. by rewrite <- !app_assoc.
  - intros Hpaths.
    assert (offset st = total_size fs names) as Hoffset.
    { pose proof (contiguous_sum _ _ _ (reached_contiguous _ _ _ Hst)) as Hsum.
      by rewrite (sum_sizes_recorded _ _ _ (reached_recorded _ _ _ Hst))
        in Hsum. }
    assert (go_elements (buf_bytes (databuf st)) =
            Some (mjoin (file_data fs <$> names))) as Helems.
    { unfold go_elements, decode.
      rewrite (reached_databuf _ _ _ Hst), tokens_blocks by done.
      apply decode_tokens. }
    split; [done|]. split; [by rewrite len_files|].
    unfold go_array. rewrite Helems. csimpl.
    rewrite len_files, <- Hoffset, Z.leb_refl, Z.sub_diag. simpl.
    by rewrite app_nil_r.
Qed.

Lemma array_holds_the_files_witness :
  let ops := ops_of Example.run_twice in
  Example.run_twice = Ret (ops, None)
  ∧ ∃ names st,
      resolve Example.fs ["a.txt"; "*.txt"] = Some names
      ∧ process_globs Example.fs (init_state Example.rt) ["a.txt"; "*.txt"]
          = Ret (inr st)
      ∧ ops = render Example.rt false "main" "assets" st
      ∧ (∃ before after,
           ops = before
                 ++ [Wr (cat ["    data: ["; itoa (offset st); "]byte{"; nl]);
                     Wr (string_of_list_byte (buf_bytes (databuf st)));
                     Wr (cat ["    },"; nl])]
                 ++ after)
      ∧ Forall one_line names
      ∧ go_elements (buf_bytes (databuf st)) =
          Some (mjoin (file_data Example.fs <$> names))
      ∧ len (mjoin (file_data Example.fs <$> names)) = offset st
      ∧ go_array (offset st) (buf_bytes (databuf st)) =
          Some (mjoin (file_data Example.fs <$> names)).
Proof.
  intros ops.
  assert (Example.run_twice = Ret (ops, None)) as Hrun
    by (vm_compute; reflexivity).
  split; [exact Hrun|].
  destruct (array_holds_the_files Example.rt Example.fs false "main" "assets"
              ["a.txt"; "*.txt"] ops Hrun)
    as (names & st & Hres & Hglobs & Hops & Hwrite & Harray).
  assert (Some names = Some ["a.txt"; "a.txt"; "b.txt"]) as Hnames
    by (rewrite <- Hres; vm_compute; reflexivity).
  assert (Forall one_line names) as Hpaths.
  { injection Hnames as ->.
    repeat constructor; apply (bool_decide_unpack _); vm_compute; reflexivity. }
  destruct (Harray Hpaths) as (Helems & Hlen & Hdata).
  exists names, st.
  exact (conj Hres (conj Hglobs (conj Hops (conj Hwrite (conj Hpaths
           (conj Helems (conj Hlen Hdata))))))).
Defined.

(** A path with a line end in it ends its comment early, and the rest of the
    path is read as part of the array: here as one literal more than
    [DataSize], which Go refuses. *)
Example path_with_line_end :
  ∃ st,
    process_globs Demo.fs (init_state Example.rt) ["odd*"] = Ret (inr st)
    ∧ generate Example.rt Demo.fs false "main" "assets" ["odd*"]
        = Ret (render Example.rt false "main" "assets" st, None)
    ∧ offset st = 1
    ∧ go_elements (buf_bytes (databuf st)) = Some ["*"; "A"]%byte
    ∧ go_array (offset st) (buf_bytes (databuf st)) = None.
Proof. eexists. split; [by vm_compute|]. by vm_compute. Qed.

Lemma take_drop_middle_files fs ps1 p ps2 :
  take (Z.to_nat (len (file_data fs p)))
       (drop (Z.to_nat (total_size fs ps1))
             (mjoin (file_data fs <$> ps1 ++ p :: ps2)))
  = file_data fs p.
Proof.
  rewrite fmap_app, fmap_cons, join_app.
  change (mjoin (?x :: ?l)) with (x ++ mjoin l).
  rewrite <- len_files. unfold len. rewrite !Nat2Z.id.
  rewrite drop_app_length. by rewrite take_app_length.
Qed.

(** X13.  In the program generated by a run without error, with the array
    holding the bytes of the files (as it does by
    [array_holds_the_files]), [Open] on a path [p] that was processed
    returns a file whose reader holds exactly the bytes that the file at [p]
    had, provided that no later path is recorded under the same name; with
    a later one, it is that one's bytes that the name gives. *)
Theorem Open_returns_the_bytes rt fs incHTTP pkg prefix globs ops :
  generate rt fs incHTTP pkg prefix globs = Ret (ops, None) →
  ∃ names st,
    resolve fs globs = Some names
    ∧ process_globs fs (init_state rt) globs = Ret (inr st)
    ∧ ops = render rt incHTTP pkg prefix st
    ∧ ∀ ps1 p ps2 base,
        names = ps1 ++ p :: ps2 →
        recorded_name p ∉ recorded_name <$> ps2 →
        ∃ file,
          Generated.Open base
            (embedded st (mjoin (file_data fs <$> names))) p = Ret (inr file)
          ∧ Generated.Reader file = file_data fs p
          ∧ GeneratedMethods.Len file = len (file_data fs p)
          ∧ GeneratedMethods.ModTime (GeneratedMethods.Stat file).1
              = file_ts fs p
          ∧ ∀ q, q ∈ ps1 → recorded_name q = recorded_name p →
                 Generated.Open base
                   (embedded st (mjoin (file_data fs <$> names))) q
                 = Ret (inr file).
Proof.
  intros (names & st & Hres & _ & Hrun & Hst & ->)%generate_ok.
  assert (offset st = total_size fs names) as Hoffset.
  { pose proof (contiguous_sum _ _ _ (reached_contiguous _ _ _ Hst)) as Hsum.
    by rewrite (sum_sizes_recorded _ _ _ (reached_recorded _ _ _ Hst)) in Hsum. }
  exists names, st. split_and!; try done.
  intros ps1 p ps2 base Hnames Hlast.
  destruct (recorded_at _ _ _ _ _ _ Hst Hnames) as (r1 & r2 & Hrec & _ & Hr2).
  assert (filemap st !! recorded_name p =
          Some (mkEntry (file_ts fs p) (total_size fs ps1)
                        (len (file_data fs p)))) as Hlook.
  { rewrite (reached_filemap _ _ _ Hst), Hrec.
    apply lookup_last_assignment. by rewrite Hr2. }
  pose proof (offset_max _ _ _ Hst) as Hmax.
  pose proof (total_size_nonneg fs ps1). pose proof (total_size_nonneg fs ps2).
  pose proof (len_nonneg (file_data fs p)).
  assert (∀ q, recorded_name q = recorded_name p →
            Generated.Open base
              (embedded st (mjoin (file_data fs <$> names))) q =
            Ret (inr (Generated.mkFile (file_data fs p)
                        (Generated.mkFI (base (recorded_name p))
                           (len (file_data fs p))
                           Generated.ModePerm (file_ts fs p))))) as Hopen.
  { intros q Hq. rewrite <- Hq in Hlook.
    rewrite (Open_found base (embedded st (mjoin (file_data fs <$> names)))
               q _ Hlook);
      simpl; rewrite ?len_files; try lia.
    - rewrite Hq. do 3 f_equal. rewrite Hnames. apply take_drop_middle_files.
    - rewrite Hnames, total_size_app. simpl. lia. }
  eexists. split; [by apply Hopen|]. split_and!; try done.
  intros q _ Hq. by apply Hopen.
Qed.

Lemma Open_returns_the_bytes_witness :
  let ops := ops_of Example.run_twice in
  Example.run_twice = Ret (ops, None)
  ∧ ∃ names st,
      resolve Example.fs ["a.txt"; "*.txt"] = Some names
      ∧ process_globs Example.fs (init_state Example.rt) ["a.txt"; "*.txt"]
          = Ret (inr st)
      ∧ ops = render Example.rt false "main" "assets" st
      ∧ ∀ ps1 p ps2 base,
          names = ps1 ++ p :: ps2 →
          recorded_name p ∉ recorded_name <$> ps2 →
          ∃ file,
            Generated.Open base
              (embedded st (mjoin (file_data Example.fs <$> names))) p
              = Ret (inr file)
            ∧ Generated.Reader file = file_data Example.fs p
            ∧ GeneratedMethods.Len file = len (file_data Example.fs p)
            ∧ GeneratedMethods.ModTime (GeneratedMethods.Stat file).1
                = file_ts Example.fs p
            ∧ ∀ q, q ∈ ps1 → recorded_name q = recorded_name p →
                   Generated.Open base
                     (embedded st (mjoin (file_data Example.fs <$> names))) q
                   = Ret (inr file).
Proof.
  intros ops.
  assert (Example.run_twice = Ret (ops, None)) as Hrun
    by (vm_compute; reflexivity).
  split; [exact Hrun|].
  exact (Open_returns_the_bytes Example.rt Example.fs false "main" "assets"
           ["a.txt"; "*.txt"] ops Hrun).
Defined.

(** The files [/a.txt] and [a.txt] are recorded under one name; the one
    processed last is the one that [Open] gives, for either path. *)
Example shadowed_file :
  ∃ st,
    process_globs Example.fs (init_state Example.rt) ["a.txt"; "/a.txt"]
      = Ret (inr st)
    ∧ go_array (offset st) (buf_bytes (databuf st))
        = Some ["001"; "002"; "003"; "x"]%byte
    ∧ ∃ file,
        Generated.Open Example.base
          (embedded st ["001"; "002"; "003"; "x"]%byte) "a.txt"
          = Ret (inr file)
        ∧ Generated.Reader file = ["x"]%byte.
Proof.
  eexists. split; [by vm_compute|]. split; [by vm_compute|].
  eexists. split; [by vm_compute|]. done.
Qed.

(** ** The template *)

Lemma String_append_assoc (s t u : string) : (s +:+ t) +:+ u = s +:+ t +:+ u.
Proof.
  induction s as [|c s IH]; [done|].
  change (String c s +:+ t) with (String c (s +:+ t)).
  change (String c ?x +:+ ?y) with (String c (x +:+ y)). by rewrite IH.
Qed.

Lemma cat_app l k : cat (l ++ k) = cat l +:+ cat k.
Proof.
  induction l as [|s l IH]; [done|].
  change (cat ((s :: l) ++ k)) with (s +:+ cat (l ++ k)).
  change (cat (s :: l)) with (s +:+ cat l).
  by rewrite IH, String_append_assoc.
Qed.

Lemma Execute_app l k data : Execute (l ++ k) data = Execute l data +:+ Execute k data.
Proof. unfold Execute. by rewrite map_app, cat_app. Qed.

Lemma String_append_nil_r (s : string) : s +:+ EmptyString = s.
Proof.
  induction s as [|c s IH]; [done|].
  change (String c s +:+ ?t) with (String c (s +:+ t)). by rewrite IH.
Qed.

Lemma Execute_singleton n data : Execute [n] data = exec_node data n.
Proof. unfold Execute. simpl. apply String_append_nil_r. Qed.

(** X14.  What the template prints depends on [IncludeHTTP] at two places
    only: the import of [net/http], which is there or not, and the line that
    opens [Open], whose result is [http.File] or a pointer to the file type
    of the package; the text before, between and after them is the same for
    both values of the flag.  And [Filenames], which [generate] passes to the
    template, is printed nowhere by it: the text is the same for every
    value of it. *)
Theorem header_include_http (size : Z) (pkg prefix now : string) :
  ∃ before between after : string,
    ∀ (incHTTP : bool) (names : string),
      Execute header
        (<["DataSize" := VInt size]>
        (<["Filenames" := VString names]>
        (<["IncludeHTTP" := VBool incHTTP]>
        (<["Pkg" := VString pkg]>
        (<["Prefix" := VString prefix]>
        (<["Time" := VString now]> ∅)))))) =
      before
      +:+ (if incHTTP then cat [dq; "net/http"; dq] else EmptyString)
      +:+ between
      +:+ (if incHTTP
           then "func (fs *" +:+ prefix
                +:+ "T) Open(filename string) (http.File, error) {"
           else "func (fs *" +:+ prefix
                +:+ "T) Open(filename string) (" +:+ "*" +:+ prefix
                +:+ "File, error) {")
      +:+ after.
Proof.
  set (d0 := <["DataSize" := VInt size]>
             (<["Pkg" := VString pkg]>
             (<["Prefix" := VString prefix]>
             (<["Time" := VString now]> (∅ : gmap string value))))).
  exists (Execute (take 5 header) d0),
         (Execute (take 33 (drop 6 header)) d0),
         (Execute (drop 40 header) d0).
  intros incHTTP names.
  change header
    with (take 5 header ++ [nth 5 header (Text EmptyString)]
          ++ take 33 (drop 6 header)
          ++ [nth 39 header (Text EmptyString)] ++ drop 40 header) at 1.
  rewrite !Execute_app, !Execute_singleton. subst d0.
  apply (f_equal2 String.append); [vm_compute; reflexivity|].
  apply (f_equal2 String.append); [destruct incHTTP; vm_compute; reflexivity|].
  apply (f_equal2 String.append); [vm_compute; reflexivity|].
  apply (f_equal2 String.append); [destruct incHTTP; vm_compute; reflexivity|].
  vm_compute; reflexivity.
Qed.

(** ** What [generate] does to [w] *)

Lemma size_list_to_map_names (l : list (string * entry)) :
  size (list_to_map l : gmap string entry) = length (remove_dups l.*1).
Proof.
  rewrite <- (size_dom (D := gset string)), dom_list_to_map_L.
  rewrite <- (size_list_to_set (C := gset string) (remove_dups l.*1))
    by apply NoDup_remove_dups.
  f_equal. apply set_eq. intros x.
  by rewrite !elem_of_list_to_set, elem_of_remove_dups.
Qed.

(** X15.  After a run without error on a machine that visits every key of a
    map once, in whatever order, [generate] has written the text of the
    template, three lines, one line per key of [filemap], that is, one per
    different name recorded, however often the name was recorded, and the
    lines of the array; every entry of [filemap] has its line; and the last
    thing done to [w], and the only one that is no write, is to close it. *)
Theorem one_entry_line_per_name rt fs incHTTP pkg prefix globs ops :
  generate rt fs incHTTP pkg prefix globs = Ret (ops, None) →
  range_ok rt →
  ∃ names st,
    resolve fs globs = Some names
    ∧ process_globs fs (init_state rt) globs = Ret (inr st)
    ∧ ops = render_header rt incHTTP pkg prefix st
            :: render_opening rt prefix st
            ++ render_entries rt st ++ render_closing st
    ∧ render_entries rt st
        ≡ₚ (λ kv, Wr (entry_line rt kv)) <$> map_to_list (filemap st)
    ∧ length (render_entries rt st)
        = length (remove_dups (recorded_name <$> names))
    ∧ (∀ n e, filemap st !! n = Some e →
              Wr (entry_line rt (n, e)) ∈ render_entries rt st)
    ∧ ∃ texts, ops = (Wr <$> texts) ++ [Cl].
Proof.
  intros (names & st & Hres & Hne & Hrun & Hst & ->)%generate_ok Hrange.
  exists names, st. split_and!; try done.
  - unfold render_entries. apply fmap_Permutation, Hrange.
  - unfold render_entries. rewrite length_fmap, (Hrange _).
    rewrite length_map_to_list, (reached_filemap _ _ _ Hst).
    rewrite size_list_to_map_names, fmap_reverse.
    rewrite <- (recorded_names _ _ _ Hst).
    assert (∀ l : list string, length (remove_dups (reverse l))
                               = length (remove_dups l)) as Hrev.
    { intros l.
      rewrite <- (size_list_to_set (C := gset string) (remove_dups l))
        by apply NoDup_remove_dups.
      rewrite <- (size_list_to_set (C := gset string) (remove_dups (reverse l)))
        by apply NoDup_remove_dups.
      f_equal. apply set_eq. intros x.
      by rewrite !elem_of_list_to_set, !elem_of_remove_dups, elem_of_reverse. }
    apply Hrev.
  - intros n e He. unfold render_entries.
    apply (list_elem_of_fmap_2 (λ kv, Wr (entry_line rt kv)) _ (n, e)).
    rewrite (Hrange _). by apply elem_of_map_to_list.
  - unfold render, render_opening, render_entries, render_closing, WriteTo,
      render_header.
    destruct (buf_bytes (databuf st)) as [|c text].
    + eexists (_ :: [_; _; _]
               ++ (entry_line rt <$> rt_range rt (map_to_list (filemap st)))
               ++ [_; _; _; _]).
      rewrite fmap_cons, !fmap_app, <- list_fmap_compose.
      simpl. rewrite <- !app_assoc. done.
    + eexists (_ :: [_; _; _]
               ++ (entry_line rt <$> rt_range rt (map_to_list (filemap st)))
               ++ [_; _; _; _; _]).
      rewrite fmap_cons, !fmap_app, <- list_fmap_compose.
      simpl. rewrite <- !app_assoc. done.
Qed.

Lemma one_entry_line_per_name_witness :
  let ops := ops_of Example.run_twice in
  Example.run_twice = Ret (ops, None)
  ∧ range_ok Example.rt
  ∧ ∃ names st,
      resolve Example.fs ["a.txt"; "*.txt"] = Some names
      ∧ process_globs Example.fs (init_state Example.rt) ["a.txt"; "*.txt"]
          = Ret (inr st)
      ∧ ops = render_header Example.rt false "main" "assets" st
              :: render_opening Example.rt "assets" st
              ++ render_entries Example.rt st ++ render_closing st
      ∧ render_entries Example.rt st
          ≡ₚ (λ kv, Wr (entry_line Example.rt kv))
               <$> map_to_list (filemap st)
      ∧ length (render_entries Example.rt st)
          = length (remove_dups (recorded_name <$> names))
      ∧ (∀ n e, filemap st !! n = Some e →
                Wr (entry_line Example.rt (n, e))
                  ∈ render_entries Example.rt st)
      ∧ ∃ texts, ops = (Wr <$> texts) ++ [Cl].
Proof.
  intros ops.
  assert (Example.run_twice = Ret (ops, None)) as Hrun
    by (vm_compute; reflexivity).
  assert (range_ok Example.rt) as Hrange by (intros l; reflexivity).
  split; [exact Hrun|]. split; [exact Hrange|].
  exact (one_entry_line_per_name Example.rt Example.fs false "main" "assets"
           ["a.txt"; "*.txt"] ops Hrun Hrange).
Defined.

(** ** [main] *)

Lemma generate_error_no_ops rt fs incHTTP pkg prefix globs ops err :
  generate rt fs incHTTP pkg prefix globs = Ret (ops, Some err) → ops = [].
Proof.
  unfold generate.
  destruct (process_globs fs (init_state rt) globs) as [[err'|st]|];
    csimpl; [| |done].
  - by intros [= <- _].
  - destruct (fcount st =? 0); [|done]. by intros [= <- _].
Qed.

(** X16.  A run of [main] that ends, ends in one of two ways.  Either it
    calls [fail]: then the status is 100 and nothing at all was done to the
    output, no write and no close.  Or the status is 0: then there were
    patterns, they gave at least one path, and what was done to the output
    is all that [generate] does for the state its loops reached, written to
    the file named by [-filename], or to the standard output when that name
    is empty or [-]. *)
Theorem main_all_or_nothing rt fs os_Create fl r :
  main rt fs os_Create fl = Ret r →
  match m_failure r with
  | Some f =>
      exit_status r = 100 ∧ fail_code f = 100 ∧ m_ops r = []
  | None =>
      exit_status r = 0
      ∧ m_created r = (if to_file fl then Some (flag_fn fl) else None)
      ∧ ∃ names st,
          resolve fs (flag_args fl) = Some names
          ∧ names ≠ []
          ∧ process_globs fs (init_state rt) (flag_args fl) = Ret (inr st)
          ∧ m_ops r = render rt (flag_incHTTP fl) (flag_pkg fl)
                        (flag_prefix fl) st
  end.
Proof.
  unfold main. destruct (flag_args fl) as [|pattern globs] eqn:Hargs.
  { intros [= <-]. done. }
  destruct (if to_file fl then os_Create (flag_fn fl) else None) as [err|].
  { intros [= <-]. done. }
  destruct (generate rt fs (flag_incHTTP fl) (flag_pkg fl) (flag_prefix fl)
              (pattern :: globs)) as [[ops [err|]]|] eqn:Hgen; csimpl; [| |done].
  - intros [= <-]. simpl.
    by apply generate_error_no_ops in Hgen as ->.
  - intros [= <-]. simpl.
    apply generate_ok in Hgen as (names & st & Hres & Hne & Hrun & _ & ->).
    split_and!; try done. by exists names, st.
Qed.

Lemma main_all_or_nothing_witness :
  let fl := mkFlags "out.go" "web" "Assets" true ["*.txt"] in
  let r := mkMain (Some "out.go")
             (ops_of (generate Example.rt Demo.fs true "web" "Assets" ["*.txt"]))
             None in
  main Example.rt Demo.fs Demo.create fl = Ret r
  ∧ match m_failure r with
    | Some f =>
        exit_status r = 100 ∧ fail_code f = 100 ∧ m_ops r = []
    | None =>
        exit_status r = 0
        ∧ m_created r = (if to_file fl then Some (flag_fn fl) else None)
        ∧ ∃ names st,
            resolve Demo.fs (flag_args fl) = Some names
            ∧ names ≠ []
            ∧ process_globs Demo.fs (init_state Example.rt) (flag_args fl)
                = Ret (inr st)
            ∧ m_ops r = render Example.rt (flag_incHTTP fl) (flag_pkg fl)
                          (flag_prefix fl) st
    end.
Proof.
  intros fl r.
  assert (main Example.rt Demo.fs Demo.create fl = Ret r) as Hrun
    by (vm_compute; reflexivity).
  split; [exact Hrun|].
  exact (main_all_or_nothing Example.rt Demo.fs Demo.create fl r Hrun).
Defined.

(** X17.  The failures of [main], in the order in which it meets them.
    Without patterns it fails with [No globs specified] before it looks at
    [-filename]: no file is made.  With patterns and a file name that
    [os.Create] refuses, it fails with that error as operand of [%v] before
    it looks at a pattern, whatever [generate] would do.  After that, when
    [generate] returns an error it fails: the file, if one was named, has
    then been made (and emptied) and nothing is written to it, and the text
    of the error is passed to [fail] as the format, with no operand, so that
    [Fprintf] reads the percent signs of a path in it as verbs.  And these
    are all its failures: a run that ends in [fail] is one of the three. *)
Theorem main_failures rt fs os_Create fl :
  (flag_args fl = [] →
   main rt fs os_Create fl =
     Ret (mkMain None [] (Some (fail "No globs specified" []))))
  ∧ (∀ err,
       flag_args fl ≠ [] → to_file fl = true →
       os_Create (flag_fn fl) = Some err →
       main rt fs os_Create fl =
         Ret (mkMain None []
                (Some (fail "Failed to open file for write: %v" [err]))))
  ∧ (∀ ops err,
       flag_args fl ≠ [] →
       (to_file fl = true → os_Create (flag_fn fl) = None) →
       generate rt fs (flag_incHTTP fl) (flag_pkg fl) (flag_prefix fl)
         (flag_args fl) = Ret (ops, Some err) →
       ops = []
       ∧ main rt fs os_Create fl =
           Ret (mkMain (if to_file fl then Some (flag_fn fl) else None) []
                  (Some (mkFailure (Error err +:+ nl) [] 100))))
  ∧ (∀ r f,
       main rt fs os_Create fl = Ret r →
       m_failure r = Some f →
       (flag_args fl = []
        ∧ f = fail "No globs specified" []
        ∧ m_created r = None)
       ∨ (flag_args fl ≠ [] ∧ to_file fl = true
          ∧ (∃ err, os_Create (flag_fn fl) = Some err
                    ∧ f = fail "Failed to open file for write: %v" [err])
          ∧ m_created r = None)
       ∨ (flag_args fl ≠ []
          ∧ (to_file fl = true → os_Create (flag_fn fl) = None)
          ∧ (∃ err, generate rt fs (flag_incHTTP fl) (flag_pkg fl)
                      (flag_prefix fl) (flag_args fl) = Ret ([], Some err)
                    ∧ fail_format f = Error err +:+ nl
                    ∧ fail_operands f = [])
          ∧ m_created r = (if to_file fl then Some (flag_fn fl) else None)
          ∧ m_ops r = [])).
Proof.
  split_and!.
  - unfold main. by intros ->.
  - intros err Hargs Hfile Hcreate. unfold main.
    destruct (flag_args fl) as [|pattern globs]; [done|].
    by rewrite Hfile, Hcreate.
  - intros ops err Hargs Hcreate Hgen.
    pose proof (generate_error_no_ops _ _ _ _ _ _ _ _ Hgen) as ->.
    split; [done|]. unfold main.
    destruct (flag_args fl) as [|pattern globs]; [done|].
    destruct (to_file fl); [rewrite Hcreate by done|]; by rewrite Hgen.
  - intros r f. unfold main.
    destruct (flag_args fl) as [|pattern globs] eqn:Hargs.
    { intros [= <-] [= <-]. left. done. }
    destruct (to_file fl) eqn:Hfile.
    + destruct (os_Create (flag_fn fl)) as [err|] eqn:Hcreate.
      { intros [= <-] [= <-]. right. left. split_and!; try done.
        by exists err. }
      destruct (generate rt fs (flag_incHTTP fl) (flag_pkg fl) (flag_prefix fl)
                  (pattern :: globs)) as [[ops [err|]]|] eqn:Hgen;
        csimpl; [| |done]; intros [= <-]; [|done].
      intros [= <-]. right. right.
      pose proof (generate_error_no_ops _ _ _ _ _ _ _ _ Hgen) as ->.
      split_and!; try done. by exists err.
    + destruct (generate rt fs (flag_incHTTP fl) (flag_pkg fl) (flag_prefix fl)
                  (pattern :: globs)) as [[ops [err|]]|] eqn:Hgen;
        csimpl; [| |done]; intros [= <-]; [|done].
      intros [= <-]. right. right.
      pose proof (generate_error_no_ops _ _ _ _ _ _ _ _ Hgen) as ->.
      split_and!; try done. by exists err.
Qed.

Lemma main_failures_witness :
  let denied := ErrNew "permission denied" in
  let fl1 := mkFlags "/proc/out.go" "main" "assets" false [] in
  let fl2 := mkFlags "/proc/out.go" "main" "assets" false ["a.txt"] in
  let fl3 := mkFlags "out.go" "main" "assets" false ["a.txt"; "100%*"] in
  let err3 := ErrNew "Failed to read 100%s.txt: permission denied" in
  (flag_args fl1 = []
   ∧ main Example.rt Demo.fs Demo.create fl1 =
       Ret (mkMain None [] (Some (fail "No globs specified" []))))
  ∧ (flag_args fl2 ≠ [] ∧ to_file fl2 = true
     ∧ Demo.create (flag_fn fl2) = Some denied
     ∧ main Example.rt Demo.fs Demo.create fl2 =
         Ret (mkMain None []
                (Some (fail "Failed to open file for write: %v" [denied]))))
  ∧ (flag_args fl3 ≠ []
     ∧ (to_file fl3 = true → Demo.create (flag_fn fl3) = None)
     ∧ generate Example.rt Demo.fs (flag_incHTTP fl3) (flag_pkg fl3)
         (flag_prefix fl3) (flag_args fl3) = Ret ([], Some err3)
     ∧ main Example.rt Demo.fs Demo.create fl3 =
         Ret (mkMain (if to_file fl3 then Some (flag_fn fl3) else None) []
                (Some (mkFailure (Error err3 +:+ nl) [] 100)))).
Proof.
  intros denied fl1 fl2 fl3 err3.
  assert (flag_args fl1 = []) as A1 by reflexivity.
  assert (flag_args fl2 ≠ []) as A2 by discriminate.
  assert (to_file fl2 = true) as B2 by reflexivity.
  assert (Demo.create (flag_fn fl2) = Some denied) as C2 by reflexivity.
  assert (flag_args fl3 ≠ []) as A3 by discriminate.
  assert (to_file fl3 = true → Demo.create (flag_fn fl3) = None) as B3
    by (intros _; reflexivity).
  assert (generate Example.rt Demo.fs (flag_incHTTP fl3) (flag_pkg fl3)
            (flag_prefix fl3) (flag_args fl3) = Ret ([], Some err3)) as C3
    by (vm_compute; reflexivity).
  destruct (main_failures Example.rt Demo.fs Demo.create fl1) as (H1 & _).
  destruct (main_failures Example.rt Demo.fs Demo.create fl2)
    as (_ & H2 & _).
  destruct (main_failures Example.rt Demo.fs Demo.create fl3)
    as (_ & _ & H3 & _).
  destruct (H3 [] err3 A3 B3 C3) as [_ H3'].
  exact (conj (conj A1 (H1 A1))
           (conj (conj A2 (conj B2 (conj C2 (H2 denied A2 B2 C2))))
                 (conj A3 (conj B3 (conj C3 H3'))))).
Defined.

(** With the flags left as they are and no pattern, or with a destination
    that cannot be made, nothing is looked at and nothing is made. *)
Example main_without_patterns :
  main Example.rt Demo.fs Demo.create (mkFlags "/proc/out.go" "main" "assets" false [])
    = Ret (mkMain None [] (Some (fail "No globs specified" [])))
  ∧ main Example.rt Demo.fs Demo.create
      (mkFlags "/proc/out.go" "main" "assets" false ["["])
    = Ret (mkMain None []
             (Some (fail "Failed to open file for write: %v"
                      [ErrNew "permission denied"])))
  ∧ main Example.rt Demo.fs Demo.create (default_flags ["["])
    = Ret (mkMain None [] (Some (fail (Error ErrBadPattern) []))).
Proof. split_and!; by vm_compute. Qed.
